(** * Route matching and relative path resolution of [packages/router/utils.ts]

    A shallow embedding of the route-matching engine (flattening, scoring,
    ranking, pattern compilation and matching, chain matching) and of the
    relative path resolver, together with the platform pieces the code
    relies on: strings of UTF-16 code units, the backtracking regular
    expression matcher, [String.prototype.replace], [Array.prototype.sort]
    and [decodeURIComponent]. *)

From Stdlib Require Import ZArith Ascii String.
From stdpp Require Import base option list sorting gmap.

Open Scope Z_scope.
Open Scope list_scope.

(** ** Strings

    A JavaScript string is a sequence of 16-bit code units; a code unit is
    kept as its number.  [str] reads a literal. *)

Definition char := N.
Definition jsstring := list char.

Definition chr (a : ascii) : char := N_of_ascii a.

Definition str (s : string) : jsstring := map chr (list_ascii_of_string s).

Definition len (s : jsstring) : Z := Z.of_nat (length s).

(** [xs.length] of an array. *)
Definition len_list {A} (xs : list A) : Z := Z.of_nat (length xs).

(** [s === t] on strings. *)
Definition streq (s t : jsstring) : bool := bool_decide (s = t).

(** Truthiness of a string: every string but the empty one. *)
Definition truthy (s : jsstring) : bool :=
  match s with [] => false | _ => true end.

(** [s || d] on strings. *)
Definition or_else (s d : jsstring) : jsstring :=
  if truthy s then s else d.

(** Relative index of [slice]: negative counts from the end, the result is
    clamped to [0, n]. *)
Definition rel_index (n i : Z) : Z :=
  if i <? 0 then Z.max (n + i) 0 else Z.min i n.

(** [xs.slice(start, end)], on strings and on arrays; [None] is an omitted
    [end]. *)
Definition slice {A} (xs : list A) (start : Z) (end_ : option Z) : list A :=
  let n := Z.of_nat (length xs) in
  let from := rel_index n start in
  let to := match end_ with Some e => rel_index n e | None => n end in
  take (Z.to_nat (to - from)) (drop (Z.to_nat from) xs).

Fixpoint startsWith (s prefix : jsstring) : bool :=
  match prefix, s with
  | [], _ => true
  | p :: prefix', c :: s' => (c =? p)%N && startsWith s' prefix'
  | _ :: _, [] => false
  end.

Definition endsWith (s suffix : jsstring) : bool :=
  startsWith (rev s) (rev suffix).

(** [s.charAt(i)]: the empty string out of range. *)
Definition charAt (s : jsstring) (i : Z) : jsstring :=
  if (0 <=? i) && (i <? len s) then take 1 (drop (Z.to_nat i) s) else [].

(** [s.split(sep)] for a separator of one code unit (the only use is
    [split("/")]): the pieces between the separators, never an empty
    array. *)
Fixpoint split (sep : char) (s : jsstring) : list jsstring :=
  match s with
  | [] => [[]]
  | c :: s' =>
      if (c =? sep)%N then [] :: split sep s'
      else match split sep s' with
           | [] => [[c]]
           | seg :: segs => (c :: seg) :: segs
           end
  end.

(** [xs.join(sep)]. *)
Fixpoint join (sep : jsstring) (xs : list jsstring) : jsstring :=
  match xs with
  | [] => []
  | [x] => x
  | x :: xs' => x ++ sep ++ join sep xs'
  end.

(** Case mapping.  Only the letters of ASCII are mapped: code units from
    128 on are left as they are. *)
Definition is_upper (c : char) : bool := ((65 <=? c) && (c <=? 90))%N.
Definition is_lower (c : char) : bool := ((97 <=? c) && (c <=? 122))%N.
Definition is_digit (c : char) : bool := ((48 <=? c) && (c <=? 57))%N.
Definition to_upper (c : char) : char := if is_lower c then (c - 32)%N else c.
Definition to_lower (c : char) : char := if is_upper c then (c + 32)%N else c.

Definition toLowerCase (s : jsstring) : jsstring := map to_lower s.

(** The class [\w]. *)
Definition is_word (c : char) : bool :=
  is_upper c || is_lower c || is_digit c || (c =? 95)%N.

(** The code unit named by a one-letter literal. *)
Definition ch (s : string) : char :=
  match s with String a _ => chr a | EmptyString => 0%N end.

(** ** Regular expressions

    The matcher follows the continuation-passing semantics of the language
    definition: a matcher takes a state and a continuation, alternatives
    and greedy quantifiers try their choices in priority order and fall
    back when the continuation fails.  Quantifiers are kept on
    one-character atoms, the only place the router's patterns have them. *)

Inductive citem :=
| CiChar (c : char)
| CiRange (lo hi : char)
| CiWord
| CiLineTerminator.

Inductive regex :=
| REmpty
| RSet (neg : bool) (items : list citem)
| RQuant (min : nat) (max : option nat) (neg : bool) (items : list citem)
| RSeq (r1 r2 : regex)
| RAlt (r1 r2 : regex)
| RGroup (i : nat) (r : regex)
| RBol
| REol
| RWordB
| RLook (r : regex).

(** Canonicalize of a code unit under the [i] flag (ASCII letters only). *)
Definition canon (icase : bool) (c : char) : char :=
  if icase then to_upper c else c.

Definition in_range (lo hi c : char) : bool := ((lo <=? c) && (c <=? hi))%N.
Arguments in_range (lo hi c)%_N.

Definition item_mem (icase : bool) (it : citem) (c : char) : bool :=
  match it with
  | CiChar a => (canon icase a =? canon icase c)%N
  | CiRange lo hi =>
      in_range lo hi c
      || (icase && (in_range lo hi (to_upper c) || in_range lo hi (to_lower c)))
  | CiWord => is_word c
  | CiLineTerminator =>
      (c =? 10)%N || (c =? 13)%N || (c =? 8232)%N || (c =? 8233)%N
  end.

Definition set_mem (icase neg : bool) (items : list citem) (c : char) : bool :=
  xorb neg (existsb (fun it => item_mem icase it c) items).

(** The matcher's state: the input before the current position (latest
    code unit first), the input after it, and the captures so far. *)
Record mstate := MState {
  before : jsstring;
  after : jsstring;
  caps : list (option jsstring)
}.

Definition continuation := mstate -> option mstate.

(** A greedy quantifier over a one-character atom. *)
Fixpoint quant (p : char -> bool) (min : nat) (max : option nat)
    (bef aft : jsstring) (cs : list (option jsstring)) (k : continuation)
    {struct aft} : option mstate :=
  let stop := match min with O => k (MState bef aft cs) | S _ => None end in
  match max with
  | Some O => stop
  | _ =>
      match aft with
      | c :: aft' =>
          if p c then
            match quant p (Nat.pred min) (Nat.pred <$> max) (c :: bef) aft' cs k with
            | Some z => Some z
            | None => stop
            end
          else stop
      | [] => stop
      end
  end.

(** The text consumed between two states of one run. *)
Definition captured (x y : mstate) : jsstring :=
  take (length (after x) - length (after y)) (after x).

Definition at_word (s : jsstring) : bool :=
  match s with c :: _ => is_word c | [] => false end.

Fixpoint m (icase : bool) (r : regex) (x : mstate) (k : continuation)
    : option mstate :=
  match r with
  | REmpty => k x
  | RSet neg items =>
      match after x with
      | c :: aft' =>
          if set_mem icase neg items c
          then k (MState (c :: before x) aft' (caps x))
          else None
      | [] => None
      end
  | RQuant mn mx neg items =>
      quant (set_mem icase neg items) mn mx (before x) (after x) (caps x) k
  | RSeq r1 r2 => m icase r1 x (fun y => m icase r2 y k)
  | RAlt r1 r2 =>
      match m icase r1 x k with
      | Some z => Some z
      | None => m icase r2 x k
      end
  | RGroup i r =>
      m icase r x (fun y =>
        k (MState (before y) (after y) (<[i := Some (captured x y)]> (caps y))))
  | RBol => match before x with [] => k x | _ :: _ => None end
  | REol => match after x with [] => k x | _ :: _ => None end
  | RWordB =>
      if xorb (at_word (before x)) (at_word (after x)) then k x else None
  | RLook r =>
      match m icase r x Some with
      | Some y => k (MState (before x) (after x) (caps y))
      | None => None
      end
  end.

(** A compiled regular expression with its flags. *)
Record RegExp := mkRegExp {
  re_ast : regex;
  re_groups : nat;
  re_ignoreCase : bool;
  re_global : bool
}.

(** A successful match: the text before it, the matched text, the text
    after it, and the capture groups ([None] for a group that did not
    take part). *)
Record match_result := mkMatch {
  m_pre : jsstring;
  m_0 : jsstring;
  m_post : jsstring;
  m_groups : list (option jsstring)
}.

Definition match_at (re : RegExp) (bef aft : jsstring) : option mstate :=
  m (re_ignoreCase re) (re_ast re)
    (MState bef aft (replicate (re_groups re) None)) Some.

(** The leftmost match at or after the current position. *)
Fixpoint search_from (re : RegExp) (bef aft : jsstring) : option match_result :=
  match match_at re bef aft with
  | Some y =>
      Some (mkMatch (rev bef)
              (take (length aft - length (after y)) aft) (after y) (caps y))
  | None =>
      match aft with
      | [] => None
      | c :: aft' => search_from re (c :: bef) aft'
      end
  end.

(** [re.exec(s)] from index 0, which is also [s.match(re)] without the
    [g] flag. *)
Definition exec (re : RegExp) (s : jsstring) : option match_result :=
  search_from re [] s.

(** [re.test(s)]. *)
Definition test (re : RegExp) (s : jsstring) : bool :=
  match exec re s with Some _ => true | None => false end.

(** *** [String.prototype.replace]

    The replacer is a function of the match, threaded with a state for the
    callbacks that write to a variable of their closure.  Without the [g]
    flag the first match is replaced; with it every match is, the search
    resuming where the last match ended (one code unit further after an
    empty match). *)

Fixpoint replace_loop {S} (fuel : nat) (re : RegExp)
    (f : S -> match_result -> S * jsstring) (st : S) (bef aft : jsstring)
    : S * jsstring :=
  match fuel with
  | O => (st, aft)
  | Datatypes.S fuel' =>
      match search_from re bef aft with
      | None => (st, aft)
      | Some r =>
          let skipped := drop (length bef) (m_pre r) in
          let '(st1, rep) := f st r in
          if re_global re then
            match m_0 r, m_post r with
            | [], [] => (st1, skipped ++ rep)
            | [], c :: aft' =>
                let '(st2, out) :=
                  replace_loop fuel' re f st1
                    (c :: rev (m_pre r)) aft' in
                (st2, skipped ++ rep ++ c :: out)
            | _ :: _, _ =>
                let '(st2, out) :=
                  replace_loop fuel' re f st1
                    (rev (m_0 r) ++ rev (m_pre r)) (m_post r) in
                (st2, skipped ++ rep ++ out)
            end
          else (st1, skipped ++ rep ++ m_post r)
      end
  end.

Definition replace_with {S} (re : RegExp)
    (f : S -> match_result -> S * jsstring) (st : S) (s : jsstring)
    : S * jsstring :=
  replace_loop (Datatypes.S (length s)) re f st [] s.

(** [s.replace(re, f)] for a pure callback. *)
Definition replace_fn (re : RegExp) (f : match_result -> jsstring)
    (s : jsstring) : jsstring :=
  (replace_with re (fun (_ : unit) r => (tt, f r)) tt s).2.

(** The value of a decimal digit. *)
Definition digit_val (c : char) : nat := N.to_nat (c - 48)%N.

Definition group_text (r : match_result) (n : nat) : jsstring :=
  default [] (mjoin (m_groups r !! Nat.pred n)).

(** The substitution of a replacement text: [$$], [$&], [$`], [$'] and
    [$n], [$nn] for the groups the expression has. *)
Fixpoint substitution (tpl : jsstring) (r : match_result) : jsstring :=
  let groups := length (m_groups r) in
  match tpl with
  | [] => []
  | c :: tpl1 =>
      if negb (c =? ch "$")%N then c :: substitution tpl1 r else
      match tpl1 with
      | [] => [c]
      | d :: tpl2 =>
          if (d =? ch "$")%N then ch "$" :: substitution tpl2 r
          else if (d =? ch "&")%N then m_0 r ++ substitution tpl2 r
          else if (d =? ch "`")%N then m_pre r ++ substitution tpl2 r
          else if (d =? ch "'")%N then m_post r ++ substitution tpl2 r
          else if is_digit d then
            let one := digit_val d in
            match tpl2 with
            | e :: tpl3 =>
                let two := (10 * one + digit_val e)%nat in
                if is_digit e && (1 <=? two)%nat && (two <=? groups)%nat
                then group_text r two ++ substitution tpl3 r
                else if (1 <=? one)%nat && (one <=? groups)%nat
                then group_text r one ++ substitution tpl2 r
                else c :: substitution tpl1 r
            | [] =>
                if (1 <=? one)%nat && (one <=? groups)%nat
                then group_text r one
                else [c; d]
            end
          else c :: substitution tpl1 r
      end
  end.

(** [s.replace(re, tpl)] for a replacement text. *)
Definition replace (re : RegExp) (tpl s : jsstring) : jsstring :=
  replace_fn re (substitution tpl) s.

(** *** [new RegExp(source, flags)]

    The source text is cut into tokens, then the tokens are read with a
    stack of the groups that are open.  What the reader does not support
    (and what is not a pattern at all) has no result, which stands for the
    [SyntaxError] of the constructor. *)

Inductive gkind := GCap | GNonCap | GLook.

Inductive token :=
| TAtom (neg : bool) (items : list citem)
| TQuant (min : nat) (max : option nat)
| TOpen (k : gkind)
| TClose
| TBar
| TBol
| TEol
| TWordB.

Definition is_syntax_char (c : char) : bool :=
  bool_decide (c ∈ str "^$\.*+?()[]{}|/-").

(** An escape outside a class. *)
Definition escape_token (e : char) : option token :=
  if (e =? ch "w")%N then Some (TAtom false [CiWord])
  else if (e =? ch "d")%N then Some (TAtom false [CiRange (ch "0") (ch "9")])
  else if (e =? ch "b")%N then Some TWordB
  else if is_syntax_char e then Some (TAtom false [CiChar e])
  else None.

(** An escape inside a class. *)
Definition escape_item (e : char) : option citem :=
  if (e =? ch "w")%N then Some CiWord
  else if (e =? ch "d")%N then Some (CiRange (ch "0") (ch "9"))
  else if is_syntax_char e then Some (CiChar e)
  else None.

Fixpoint tokenize (s : jsstring) : option (list token) :=
  match s with
  | [] => Some []
  | c :: s1 =>
      if (c =? ch "\")%N then
        match s1 with
        | e :: s2 => t ← escape_token e; cons t <$> tokenize s2
        | [] => None
        end
      else if (c =? ch "(")%N then
        match s1 with
        | q :: s2 =>
            if (q =? ch "?")%N then
              match s2 with
              | k :: s3 =>
                  if (k =? ch ":")%N then cons (TOpen GNonCap) <$> tokenize s3
                  else if (k =? ch "=")%N then cons (TOpen GLook) <$> tokenize s3
                  else None
              | [] => None
              end
            else cons (TOpen GCap) <$> tokenize s1
        | [] => cons (TOpen GCap) <$> tokenize s1
        end
      else if (c =? ch "[")%N then
        match s1 with
        | n :: s2 =>
            if (n =? ch "^")%N then in_class true [] s2
            else in_class false [] s1
        | [] => None
        end
      else if (c =? ch "{")%N then in_brace None s1
      else if (c =? ch ")")%N then cons TClose <$> tokenize s1
      else if (c =? ch "|")%N then cons TBar <$> tokenize s1
      else if (c =? ch "^")%N then cons TBol <$> tokenize s1
      else if (c =? ch "$")%N then cons TEol <$> tokenize s1
      else if (c =? ch "*")%N then cons (TQuant 0 None) <$> tokenize s1
      else if (c =? ch "+")%N then cons (TQuant 1 None) <$> tokenize s1
      else if (c =? ch "?")%N then cons (TQuant 0 (Some 1%nat)) <$> tokenize s1
      else if (c =? ch ".")%N
      then cons (TAtom true [CiLineTerminator]) <$> tokenize s1
      else cons (TAtom false [CiChar c]) <$> tokenize s1
  end
with in_class (neg : bool) (acc : list citem) (s : jsstring)
    : option (list token) :=
  match s with
  | [] => None
  | c :: s1 =>
      if (c =? ch "]")%N then cons (TAtom neg acc) <$> tokenize s1
      else if (c =? ch "\")%N then
        match s1 with
        | e :: s2 => it ← escape_item e; in_class neg (acc ++ [it]) s2
        | [] => None
        end
      else
        match s1 with
        | d :: b :: s3 =>
            if (d =? ch "-")%N && negb (b =? ch "]")%N then
              if (b =? ch "\")%N || (b <? c)%N then None
              else in_class neg (acc ++ [CiRange c b]) s3
            else in_class neg (acc ++ [CiChar c]) s1
        | _ => in_class neg (acc ++ [CiChar c]) s1
        end
  end
with in_brace (n : option nat) (s : jsstring) : option (list token) :=
  match s with
  | [] => None
  | c :: s1 =>
      if is_digit c
      then in_brace (Some (10 * default O n + digit_val c)%nat) s1
      else if (c =? ch "}")%N then
        match n with
        | Some v => cons (TQuant v (Some v)) <$> tokenize s1
        | None => None
        end
      else None
  end.

(** A group that is open: what it is, and the alternatives and terms read
    before it in the group around it. *)
Inductive fkind := FCap (i : nat) | FNonCap | FLook.

Record frame := Frame {
  f_kind : fkind;
  f_alts : list regex;
  f_cur : list regex
}.

(** The terms of an alternative, in order. *)
Fixpoint seq_of (ts : list regex) : regex :=
  match ts with
  | [] => REmpty
  | [t] => t
  | t :: ts' => RSeq t (seq_of ts')
  end.

(** The alternatives of a disjunction, in order. *)
Fixpoint alt_of (rs : list regex) : regex :=
  match rs with
  | [] => REmpty
  | [r] => r
  | r :: rs' => RAlt r (alt_of rs')
  end.

(** [alts] and [cur] are kept latest first. *)
Definition finish (alts cur : list regex) : regex :=
  alt_of (rev (seq_of (rev cur) :: alts)).

Definition wrap (k : fkind) (r : regex) : regex :=
  match k with
  | FCap i => RGroup i r
  | FNonCap => r
  | FLook => RLook r
  end.

Fixpoint parse_tokens (ts : list token) (stack : list frame)
    (alts cur : list regex) (n : nat) : option (regex * nat) :=
  match ts with
  | [] =>
      match stack with
      | [] => Some (finish alts cur, n)
      | _ :: _ => None
      end
  | t :: ts' =>
      match t with
      | TAtom neg items => parse_tokens ts' stack alts (RSet neg items :: cur) n
      | TQuant mn mx =>
          match cur with
          | RSet neg items :: cur' =>
              parse_tokens ts' stack alts (RQuant mn mx neg items :: cur') n
          | _ => None
          end
      | TOpen GCap =>
          parse_tokens ts' (Frame (FCap n) alts cur :: stack) [] [] (S n)
      | TOpen GNonCap =>
          parse_tokens ts' (Frame FNonCap alts cur :: stack) [] [] n
      | TOpen GLook =>
          parse_tokens ts' (Frame FLook alts cur :: stack) [] [] n
      | TClose =>
          match stack with
          | Frame fk alts0 cur0 :: stack' =>
              parse_tokens ts' stack' alts0 (wrap fk (finish alts cur) :: cur0) n
          | [] => None
          end
      | TBar => parse_tokens ts' stack (seq_of (rev cur) :: alts) [] n
      | TBol => parse_tokens ts' stack alts (RBol :: cur) n
      | TEol => parse_tokens ts' stack alts (REol :: cur) n
      | TWordB => parse_tokens ts' stack alts (RWordB :: cur) n
      end
  end.

(** [new RegExp(source, flags)], the flags given as [i] and [g]. *)
Definition new_RegExp (source : jsstring) (icase global : bool)
    : option RegExp :=
  ts ← tokenize source;
  '(r, n) ← parse_tokens ts [] [] [] 0%nat;
  Some (mkRegExp r n icase global).

(** A regular expression literal [/source/flags]. *)
Definition regexp (source : string) (icase global : bool) : RegExp :=
  default (mkRegExp (RSet false []) 0 icase global)
    (new_RegExp (str source) icase global).

(** ** [decodeURIComponent]

    Every [%XX] escape stands for one octet; the octets are read as UTF-8
    and the code point is written in UTF-16.  No result stands for the
    [URIError] thrown on an escape that is cut short, is not hexadecimal
    or is not well-formed UTF-8. *)

Definition hex_val (c : char) : option N :=
  if is_digit c then Some (c - 48)%N
  else if in_range (ch "a") (ch "f") c then Some (c - 87)%N
  else if in_range (ch "A") (ch "F") c then Some (c - 55)%N
  else None.

Definition hex_octet (h l : char) : option N :=
  hv ← hex_val h; lv ← hex_val l; Some (16 * hv + lv)%N.

(** The number of octets announced by a leading octet from 128 on. *)
Definition utf8_length (b : N) : option nat :=
  if (b <? 192)%N then None
  else if (b <? 224)%N then Some 2%nat
  else if (b <? 240)%N then Some 3%nat
  else if (b <? 248)%N then Some 4%nat
  else None.

(** The code point of a leading octet and its continuation octets, when
    they are a well-formed encoding: continuation octets in [80, BF], no
    overlong form, no surrogate, nothing above 10FFFF. *)
Definition utf8_code_point (b : N) (conts : list N) : option N :=
  if forallb (in_range 128 191) conts then
    let payload := fold_left (fun v o => v * 64 + (o - 128))%N conts in
    match length conts with
    | 1%nat =>
        let v := payload (b - 192)%N in
        if (128 <=? v)%N then Some v else None
    | 2%nat =>
        let v := payload (b - 224)%N in
        if (2048 <=? v)%N && negb (in_range 55296 57343 v) then Some v else None
    | 3%nat =>
        let v := payload (b - 240)%N in
        if (65536 <=? v)%N && (v <=? 1114111)%N then Some v else None
    | _ => None
    end
  else None.

Definition utf16 (v : N) : jsstring :=
  if (v <? 65536)%N then [v]
  else [(55296 + (v - 65536) / 1024)%N; (56320 + (v - 65536) mod 1024)%N].

Fixpoint decodeURIComponent (s : jsstring) : option jsstring :=
  match s with
  | [] => Some []
  | c :: s1 =>
      if negb (c =? ch "%")%N then cons c <$> decodeURIComponent s1 else
      match s1 with
      | h :: l :: s3 =>
          b ← hex_octet h l;
          if (b <? 128)%N then cons b <$> decodeURIComponent s3
          else
            n ← utf8_length b;
            more_octets b (Nat.pred (Nat.pred n)) [] s3
      | _ => None
      end
  end
with more_octets (b : N) (more : nat) (acc : list N) (s : jsstring)
    : option jsstring :=
  match s with
  | p :: h :: l :: s3 =>
      if negb (p =? ch "%")%N then None else
      o ← hex_octet h l;
      match more with
      | O =>
          v ← utf8_code_point b (acc ++ [o]);
          app (utf16 v) <$> decodeURIComponent s3
      | S more' => more_octets b more' (acc ++ [o]) s3
      end
  | _ => None
  end.

(** ** Exceptions and [Array.prototype.sort] *)

Inductive exn :=
| Error (message : jsstring)
| SyntaxError (source : jsstring).

Inductive result (A : Type) :=
| Ok (a : A)
| Throw (e : exn).
Arguments Ok {A} a.
Arguments Throw {A} e.

Global Instance result_ret : MRet result := fun A a => Ok a.

Global Instance result_bind : MBind result := fun A B f r =>
  match r with
  | Ok a => f a
  | Throw e => Throw e
  end.

(** [xs.forEach((x, index) => ...)] for a callback that updates a state
    and may throw. *)
Definition forEach {A S} (f : A -> nat -> S -> result S)
    : list A -> nat -> S -> result S :=
  fix go (xs : list A) (index : nat) (st : S) : result S :=
    match xs with
    | [] => Ok st
    | x :: xs' => st' ← f x index st; go xs' (Datatypes.S index) st'
    end.

(** [xs.sort(cmp)].  The sort is stable; it is taken as the insertion
    sort, each element entering the sorted elements that followed it and
    passing those that [cmp] puts strictly before it. *)
Fixpoint insert {A} (cmp : A -> A -> Z) (x : A) (xs : list A) : list A :=
  match xs with
  | [] => [x]
  | y :: xs' => if cmp x y <=? 0 then x :: y :: xs' else y :: insert cmp x xs'
  end.

Fixpoint sort {A} (cmp : A -> A -> Z) (xs : list A) : list A :=
  match xs with
  | [] => []
  | x :: xs' => insert cmp x (sort cmp xs')
  end.

(** [xs.every((x, index) => ...)]. *)
Fixpoint every {A} (f : A -> nat -> bool) (xs : list A) (index : nat) : bool :=
  match xs with
  | [] => true
  | x :: xs' => f x index && every f xs' (S index)
  end.

(** ** The router's data *)

(** A route object.  An absent [caseSensitive] or [index] reads as
    [false] and absent [children] as no children, which is how the code
    reads them; [element], [loader], [action], [errorElement],
    [shouldRevalidate] and [handle] are never looked at and are left
    out. *)
#[warnings="-register-all"]
Inductive RouteObject := mkRoute {
  route_caseSensitive : bool;
  route_children : list RouteObject;
  route_index : bool;
  route_path : option jsstring;
  route_id : option jsstring
}.

(** [Params]: a plain object from names to strings.  The map holds the
    properties of the object's own, all of them strings; an own property
    whose value is [undefined] is not modelled.  What the object
    inherits is read through [get_property]. *)
Abbreviation Params := (gmap jsstring jsstring).

(** ** Plain objects

    An object written [{}] or as a literal inherits the properties of
    [Object.prototype], which is taken as the engine sets it up: eleven
    functions and the accessor [__proto__]. *)
Definition object_prototype_functions : list jsstring :=
  [str "constructor"; str "__defineGetter__"; str "__defineSetter__";
   str "hasOwnProperty"; str "__lookupGetter__"; str "__lookupSetter__";
   str "isPrototypeOf"; str "propertyIsEnumerable"; str "toString";
   str "valueOf"; str "toLocaleString"].

Definition inherited (key : jsstring) : bool :=
  streq key (str "__proto__")
  || existsb (streq key) object_prototype_functions.

(** What reading a property gives: the value of the object's own
    property, or the object that the name stands for in
    [Object.prototype]. *)
Inductive property (V : Type) :=
| Own (v : V)
| Inherited (key : jsstring).
Arguments Own {V} v.
Arguments Inherited {V} key.

(** [o[key]]; [None] is [undefined]. *)
Definition get_property {V} (o : gmap jsstring V) (key : jsstring)
    : option (property V) :=
  match o !! key with
  | Some v => Some (Own v)
  | None => if inherited key then Some (Inherited key) else None
  end.

(** [o[key] = v] for a string or a boolean [v].  An own property is
    written or made, but for [__proto__]: without an own property of
    that name the write goes to the accessor of [Object.prototype],
    which takes an object or [null] only and changes nothing here. *)
Definition set_property {V} (key : jsstring) (v : V) (o : gmap jsstring V)
    : gmap jsstring V :=
  match o !! key with
  | Some _ => <[key := v]> o
  | None => if streq key (str "__proto__") then o else <[key := v]> o
  end.

(** The string that an inherited object converts to: [[object Object]]
    for the prototype that [__proto__] reads, and for a function its
    source text, as V8 writes that of a built-in function. *)
Definition inherited_text (key : jsstring) : jsstring :=
  if streq key (str "__proto__") then str "[object Object]"
  else
    str "function "
    ++ (if streq key (str "constructor") then str "Object" else key)
    ++ str "() { [native code] }".

(** The string that the value of a property converts to. *)
Definition property_text (p : property jsstring) : jsstring :=
  match p with
  | Own v => v
  | Inherited key => inherited_text key
  end.

(** Whether the value of a property is truthy, for an object of
    booleans; an inherited object is. *)
Definition property_truthy (p : option (property bool)) : bool :=
  match p with
  | Some (Own b) => b
  | Some (Inherited _) => true
  | None => false
  end.

(** The objects that match attempts allocate for [matchedParams]; a
    [RouteMatch] holds the address of one. *)
Abbreviation heap := (list Params).
Definition loc := nat.
Bind Scope nat_scope with loc.

Record RouteMatch := mkRouteMatch {
  match_params : loc;
  match_pathname : jsstring;
  match_pathnameBase : jsstring;
  match_route : RouteObject
}.

Record RouteMeta := mkRouteMeta {
  relativePath : jsstring;
  caseSensitive : bool;
  childrenIndex : nat;
  route : RouteObject
}.

Record RouteBranch := mkRouteBranch {
  branch_path : jsstring;
  score : Z;
  routesMeta : list RouteMeta
}.

Record PathPattern := mkPathPattern {
  pattern_path : jsstring;
  pattern_caseSensitive : option bool;
  pattern_end : option bool
}.

Record PathMatch := mkPathMatch {
  pm_params : Params;
  pm_pathname : jsstring;
  pm_pathnameBase : jsstring;
  pm_pattern : PathPattern
}.

(** [Path], and [Partial<Path>] (of which [Partial<Location>] only adds
    fields that are not read). *)
Record Path := mkPath {
  path_pathname : jsstring;
  path_search : jsstring;
  path_hash : jsstring
}.

Record PartialPath := mkPartialPath {
  p_pathname : option jsstring;
  p_search : option jsstring;
  p_hash : option jsstring
}.

(** [To], and the location argument of [matchRoutes]: a string or an
    object. *)
Inductive To :=
| ToString (s : jsstring)
| ToPath (p : PartialPath).

Definition quoted (s : jsstring) : jsstring := [34%N] ++ s ++ [34%N].

(** Modelled from the spec: [parsePath] of [./history], which is imported
    but is not among the sources.  It parses a path string into pathname,
    search and hash: the hash starts at the first [#], the search at the
    first [?] before it, and a part that is empty is left out. *)
Fixpoint break_at (c : char) (s : jsstring) : jsstring * option jsstring :=
  match s with
  | [] => ([], None)
  | x :: s' =>
      if (x =? c)%N then ([], Some s)
      else let '(l, r) := break_at c s' in (x :: l, r)
  end.

Definition parsePath (path : jsstring) : PartialPath :=
  let '(path1, hash) := break_at (ch "#") path in
  let '(path2, search) := break_at (ch "?") path1 in
  mkPartialPath (if truthy path2 then Some path2 else None) search hash.

(** ** The router's functions *)

Definition invariant (value : bool) (message : jsstring) : result unit :=
  if value then Ok tt else Throw (Error message).

(** The regular expression literals of the file, each with its text. *)
Definition re_slashes : RegExp :=
  Eval vm_compute in regexp "\/\/+" false true.
Definition re_trailing_slashes : RegExp :=
  Eval vm_compute in regexp "\/+$" false false.
Definition re_leading_slashes : RegExp :=
  Eval vm_compute in regexp "^\/*" false false.
Definition re_base : RegExp :=
  Eval vm_compute in regexp "(.)\/+$" false false.
Definition re_trailing_splat : RegExp :=
  Eval vm_compute in regexp "\/*\*?$" false false.
Definition re_special : RegExp :=
  Eval vm_compute in regexp "[\\.*+^$?{}|()[\]]" false true.
Definition re_param : RegExp :=
  Eval vm_compute in regexp ":(\w+)" false true.
Definition re_splat : RegExp :=
  Eval vm_compute in regexp "\/*\*$" false false.

Definition joinPaths (paths : list jsstring) : jsstring :=
  replace re_slashes (str "/") (join (str "/") paths).

Definition normalizePathname (pathname : jsstring) : jsstring :=
  replace re_leading_slashes (str "/")
    (replace re_trailing_slashes [] pathname).

Definition normalizeSearch (search : jsstring) : jsstring :=
  if negb (truthy search) || streq search (str "?") then []
  else if startsWith search (str "?") then search
  else str "?" ++ search.

Definition normalizeHash (hash : jsstring) : jsstring :=
  if negb (truthy hash) || streq hash (str "#") then []
  else if startsWith hash (str "#") then hash
  else str "#" ++ hash.

Definition stripBasename (pathname basename : jsstring) : option jsstring :=
  if streq basename (str "/") then Some pathname
  else if negb (startsWith (toLowerCase pathname) (toLowerCase basename))
  then None
  else
    let nextChar := charAt pathname (len basename) in
    if truthy nextChar && negb (streq nextChar (str "/")) then None
    else Some (or_else (slice pathname (len basename) None) (str "/")).

Definition paramRe : RegExp := Eval vm_compute in regexp "^:\w+$" false false.
Definition dynamicSegmentValue : Z := 3.
Definition indexRouteValue : Z := 2.
Definition emptySegmentValue : Z := 1.
Definition staticSegmentValue : Z := 10.
Definition splatPenalty : Z := -2.
Definition isSplat (s : jsstring) : bool := streq s (str "*").

Definition computeScore (path : jsstring) (index : bool) : Z :=
  let segments := split (ch "/") path in
  let initialScore := len_list segments in
  let initialScore :=
    if existsb isSplat segments then initialScore + splatPenalty
    else initialScore in
  let initialScore :=
    if index then initialScore + indexRouteValue else initialScore in
  fold_left
    (fun score segment =>
       score +
       (if test paramRe segment then dynamicSegmentValue
        else if streq segment [] then emptySegmentValue
        else staticSegmentValue))
    (filter (fun s => negb (isSplat s)) segments)
    initialScore.

Definition absolute_path_message (relativePath parentPath : jsstring)
    : jsstring :=
  str "Absolute route path " ++ quoted relativePath
  ++ str " nested under path " ++ quoted parentPath
  ++ str " is not valid. An absolute child route path "
  ++ str "must start with the combined path of all its parent routes.".

Definition index_children_message (path : jsstring) : jsstring :=
  str "Index routes must not have child routes. Please remove "
  ++ str "all child routes from route path " ++ quoted path ++ str ".".

(** The body of the [forEach] of [flattenRoutes] for one route; it gives
    the array [branches] after the pushes. *)
Fixpoint flattenRoute (route : RouteObject) (index : nat)
    (branches : list RouteBranch) (parentsMeta : list RouteMeta)
    (parentPath : jsstring) {struct route} : result (list RouteBranch) :=
  let relativePath := default [] (route_path route) in
  relativePath ←
    (if startsWith relativePath (str "/") then
       _ ← invariant (startsWith relativePath parentPath)
             (absolute_path_message relativePath parentPath);
       Ok (slice relativePath (len parentPath) None)
     else Ok relativePath);
  let meta :=
    mkRouteMeta relativePath (route_caseSensitive route) index route in
  let path := joinPaths [parentPath; relativePath] in
  let routesMeta := parentsMeta ++ [meta] in
  branches ←
    (match route_children route with
     | [] => Ok branches
     | _ :: _ =>
         _ ← invariant (negb (route_index route))
               (index_children_message path);
         forEach
           (fun child i bs => flattenRoute child i bs routesMeta path)
           (route_children route) 0%nat branches
     end);
  if bool_decide (route_path route = None) && negb (route_index route)
  then Ok branches
  else Ok (branches ++
             [mkRouteBranch path (computeScore path (route_index route))
                routesMeta]).

Definition flattenRoutes (routes : list RouteObject)
    (branches : list RouteBranch) (parentsMeta : list RouteMeta)
    (parentPath : jsstring) : result (list RouteBranch) :=
  forEach (fun route index bs => flattenRoute route index bs parentsMeta parentPath)
    routes 0%nat branches.

(** The difference of the last indexes is [NaN] for two empty arrays,
    which [sort] takes as 0. *)
Definition compareIndexes (a b : list Z) : Z :=
  let siblings :=
    bool_decide (length a = length b)
    && every (fun n i => bool_decide (b !! i = Some n))
         (slice a 0 (Some (-1))) 0 in
  if siblings then
    match last a, last b with
    | Some x, Some y => x - y
    | _, _ => 0
    end
  else 0.

Definition rankRouteBranches (branches : list RouteBranch)
    : list RouteBranch :=
  sort
    (fun a b =>
       if negb (score a =? score b) then score b - score a
       else compareIndexes
              (map (fun meta => Z.of_nat (childrenIndex meta)) (routesMeta a))
              (map (fun meta => Z.of_nat (childrenIndex meta)) (routesMeta b)))
    branches.

Definition safelyDecodeURIComponent (value paramName : jsstring) : jsstring :=
  default value (decodeURIComponent value).

(** The warning of [compilePath] for a path that ends in a [*] without a
    [/] before it only writes to the console and is left out. *)
Definition compilePath (path : jsstring) (caseSensitive end_ : option bool)
    : result (RegExp * list jsstring) :=
  let caseSensitive := default false caseSensitive in
  let end_ := default true end_ in
  let '(paramNames, source) :=
    replace_with re_param
      (fun paramNames r => (paramNames ++ [group_text r 1], str "([^\/]+)"))
      []
      (replace re_special (str "\$&")
         (replace re_leading_slashes (str "/")
            (replace re_trailing_splat [] path))) in
  let regexpSource := str "^" ++ source in
  let '(paramNames, regexpSource) :=
    if endsWith path (str "*") then
      (paramNames ++ [str "*"],
       regexpSource ++
         (if streq path (str "*") || streq path (str "/*")
          then str "(.*)$"
          else str "(?:\/(.+)|\/*)$"))
    else
      (paramNames,
       regexpSource ++
         (if end_ then str "\/*$"
          else str "(?:(?=[.~-]|%[0-9A-F]{2})|\b|\/|$)")) in
  match new_RegExp regexpSource (negb caseSensitive) false with
  | Some matcher => Ok (matcher, paramNames)
  | None => Throw (SyntaxError regexpSource)
  end.

(** [captureGroups[index] || ""]. *)
Definition group_or_empty (captureGroups : list (option jsstring))
    (index : nat) : jsstring :=
  default [] (mjoin (captureGroups !! index)).

(** The [reduce] of [matchPath]: [memo], which starts as [{}], grows by
    the assignment [memo[paramName] = ...], and [pathnameBase], a
    variable of the enclosing function, is assigned at the splat. *)
Fixpoint matchPath_reduce (matchedPathname : jsstring)
    (captureGroups : list (option jsstring)) (paramNames : list jsstring)
    (index : nat) (memo : Params) (pathnameBase : jsstring)
    : Params * jsstring :=
  match paramNames with
  | [] => (memo, pathnameBase)
  | paramName :: rest =>
      let pathnameBase :=
        if streq paramName (str "*") then
          let splatValue := group_or_empty captureGroups index in
          replace re_base (str "$1")
            (slice matchedPathname 0
               (Some (len matchedPathname - len splatValue)))
        else pathnameBase in
      let memo :=
        set_property paramName
          (safelyDecodeURIComponent (group_or_empty captureGroups index)
             paramName)
          memo in
      matchPath_reduce matchedPathname captureGroups rest (S index) memo
        pathnameBase
  end.

Inductive PatternArg :=
| PatternString (s : jsstring)
| PatternObject (p : PathPattern).

Definition matchPath (pattern : PatternArg) (pathname : jsstring)
    : result (option PathMatch) :=
  let pattern :=
    match pattern with
    | PatternString s => mkPathPattern s (Some false) (Some true)
    | PatternObject p => p
    end in
  '(matcher, paramNames) ←
    compilePath (pattern_path pattern) (pattern_caseSensitive pattern)
      (pattern_end pattern);
  match exec matcher pathname with
  | None => Ok None
  | Some r =>
      let matchedPathname := m_0 r in
      let pathnameBase := replace re_base (str "$1") matchedPathname in
      let captureGroups := m_groups r in
      let '(params, pathnameBase) :=
        matchPath_reduce matchedPathname captureGroups paramNames 0 ∅
          pathnameBase in
      Ok (Some (mkPathMatch params matchedPathname pathnameBase pattern))
  end.

(** [let matchedParams = {}]: a new object at the next free address. *)
Definition alloc (h : heap) : loc * heap := (length h, h ++ [∅]).

(** [Object.assign(target, source)]: the keys of [source] are written
    over those of the object at [target].  The sources are the params
    that [matchPath] gives, which have no property [__proto__], the one
    key whose write would make no property. *)
Definition assign (target : loc) (source : Params) (h : heap) : heap :=
  match h !! target with
  | Some obj => <[target := source ∪ obj]> h
  | None => h
  end.

(** The loop of [matchRouteBranch] from one element of [routesMeta] on. *)
Fixpoint matchRouteBranch_loop (routesMeta : list RouteMeta)
    (pathname : jsstring) (matchedParams : loc) (matchedPathname : jsstring)
    (matches : list RouteMatch) (h : heap)
    : result (option (list RouteMatch)) * heap :=
  match routesMeta with
  | [] => (Ok (Some matches), h)
  | meta :: rest =>
      let end_ := match rest with [] => true | _ :: _ => false end in
      let remainingPathname :=
        if streq matchedPathname (str "/") then pathname
        else or_else (slice pathname (len matchedPathname) None) (str "/") in
      match
        matchPath
          (PatternObject
             (mkPathPattern (relativePath meta) (Some (caseSensitive meta))
                (Some end_)))
          remainingPathname
      with
      | Throw e => (Throw e, h)
      | Ok None => (Ok None, h)
      | Ok (Some match_) =>
          let h := assign matchedParams (pm_params match_) h in
          let matches :=
            matches ++
              [mkRouteMatch matchedParams
                 (joinPaths [matchedPathname; pm_pathname match_])
                 (normalizePathname
                    (joinPaths [matchedPathname; pm_pathnameBase match_]))
                 (route meta)] in
          let matchedPathname :=
            if negb (streq (pm_pathnameBase match_) (str "/"))
            then joinPaths [matchedPathname; pm_pathnameBase match_]
            else matchedPathname in
          matchRouteBranch_loop rest pathname matchedParams matchedPathname
            matches h
      end
  end.

Definition matchRouteBranch (branch : RouteBranch) (pathname : jsstring)
    (h : heap) : result (option (list RouteMatch)) * heap :=
  let '(matchedParams, h) := alloc h in
  matchRouteBranch_loop (routesMeta branch) pathname matchedParams (str "/")
    [] h.

(** The loop of [matchRoutes]: the branches are tried in order while
    [matches] is [null]. *)
Fixpoint matchRoutes_loop (branches : list RouteBranch) (pathname : jsstring)
    (h : heap) : result (option (list RouteMatch)) * heap :=
  match branches with
  | [] => (Ok None, h)
  | branch :: rest =>
      match matchRouteBranch branch pathname h with
      | (Ok None, h') => matchRoutes_loop rest pathname h'
      | r => r
      end
  end.

(** [matchRoutes(routes, locationArg, basename = "/")]; [None] is an
    omitted [basename]. *)
Definition matchRoutes (routes : list RouteObject) (locationArg : To)
    (basename : option jsstring) (h : heap)
    : result (option (list RouteMatch)) * heap :=
  let basename := default (str "/") basename in
  let location :=
    match locationArg with
    | ToString s => parsePath s
    | ToPath p => p
    end in
  match
    stripBasename (or_else (default [] (p_pathname location)) (str "/"))
      basename
  with
  | None => (Ok None, h)
  | Some pathname =>
      match flattenRoutes routes [] [] [] with
      | Throw e => (Throw e, h)
      | Ok branches =>
          matchRoutes_loop (rankRouteBranches branches) pathname h
      end
  end.

Definition missing_param_message (key : jsstring) : jsstring :=
  str "Missing " ++ quoted (str ":" ++ key) ++ str " param".

(** [generatePath(path, params = {})].  The callback of the first
    [replace] throws at the first key whose read gives [undefined],
    which ends the call; the state of the replacement keeps that first
    exception.  What the callback returns is converted to a string.
    [*] is no name of [Object.prototype], so [params["*"]] is the
    object's own property. *)
Definition generatePath (path : jsstring) (params : Params)
    : result jsstring :=
  let '(thrown, replaced) :=
    replace_with re_param
      (fun (thrown : option exn) r =>
         let key := group_text r 1 in
         match thrown, get_property params key with
         | None, None => (Some (Error (missing_param_message key)), [])
         | _, v => (thrown, from_option property_text [] v)
         end)
      None path in
  match thrown with
  | Some e => Throw e
  | None =>
      Ok (replace_fn re_splat
            (fun _ =>
               match params !! str "*" with
               | None => []
               | Some splat => replace re_leading_slashes (str "/") splat
               end)
            replaced)
  end.

Definition resolvePathname (relativePath fromPathname : jsstring)
    : jsstring :=
  let segments :=
    split (ch "/") (replace re_trailing_slashes [] fromPathname) in
  let relativeSegments := split (ch "/") relativePath in
  let segments :=
    fold_left
      (fun segments segment =>
         if streq segment (str "..") then
           if 1 <? len_list segments then removelast segments else segments
         else if negb (streq segment (str ".")) then segments ++ [segment]
         else segments)
      relativeSegments segments in
  if 1 <? len_list segments then join (str "/") segments else str "/".

(** [resolvePath(to, fromPathname = "/")]. *)
Definition resolvePath (to : To) (fromPathname : option jsstring) : Path :=
  let fromPathname := default (str "/") fromPathname in
  let p := match to with ToString s => parsePath s | ToPath p => p end in
  let toPathname := p_pathname p in
  let search := default [] (p_search p) in
  let hash := default [] (p_hash p) in
  let pathname :=
    match toPathname with
    | Some toPathname =>
        if truthy toPathname then
          if startsWith toPathname (str "/") then toPathname
          else resolvePathname toPathname fromPathname
        else fromPathname
    | None => fromPathname
    end in
  mkPath pathname (normalizeSearch search) (normalizeHash hash).

(** The [while] of [resolveTo]: every leading [..] is shifted off
    [toSegments] and takes one off [routePathnameIndex]. *)
Fixpoint shift_parents (toSegments : list jsstring) (routePathnameIndex : Z)
    : list jsstring * Z :=
  match toSegments with
  | segment :: rest =>
      if streq segment (str "..")
      then shift_parents rest (routePathnameIndex - 1)
      else (toSegments, routePathnameIndex)
  | [] => ([], routePathnameIndex)
  end.

(** [routePathnames[i]] for an index that is not negative. *)
Definition at_index (xs : list jsstring) (i : Z) : option jsstring :=
  xs !! Z.to_nat i.

(** [to === ""]. *)
Definition is_empty_string (to : To) : bool :=
  match to with
  | ToString [] => true
  | _ => false
  end.

Definition resolveTo (toArg : To) (routePathnames : list jsstring)
    (locationPathname : jsstring) : Path :=
  let to := match toArg with ToString s => parsePath s | ToPath p => p end in
  let toPathname :=
    if is_empty_string toArg || bool_decide (p_pathname to = Some [])
    then Some (str "/")
    else p_pathname to in
  let '(to, from) :=
    match toPathname with
    | None => (to, locationPathname)
    | Some toPathname =>
        let routePathnameIndex := len_list routePathnames - 1 in
        let '(to, routePathnameIndex) :=
          if startsWith toPathname (str "..") then
            let '(toSegments, routePathnameIndex) :=
              shift_parents (split (ch "/") toPathname) routePathnameIndex in
            (mkPartialPath (Some (join (str "/") toSegments))
               (p_search to) (p_hash to),
             routePathnameIndex)
          else (to, routePathnameIndex) in
        (to,
         if 0 <=? routePathnameIndex
         then default [] (at_index routePathnames routePathnameIndex)
         else str "/")
    end in
  let path := resolvePath (ToPath to) (Some from) in
  if match toPathname with
     | Some toPathname =>
         truthy toPathname && negb (streq toPathname (str "/"))
         && endsWith toPathname (str "/")
         && negb (endsWith (path_pathname path) (str "/"))
     | None => false
     end
  then mkPath (path_pathname path ++ str "/") (path_search path)
         (path_hash path)
  else path.

Definition getToPathname (to : To) : option jsstring :=
  match to with
  | ToString s =>
      if is_empty_string to then Some (str "/") else p_pathname (parsePath s)
  | ToPath p =>
      if bool_decide (p_pathname p = Some []) then Some (str "/")
      else p_pathname p
  end.

(** ** Warnings

    [warning] writes its message to the console when the condition does
    not hold; the console is kept as the list of the messages written so
    far, and is taken to be there.  The error that [warning] throws and
    catches at once has no effect.  [warningOnce] keeps the keys that
    have warned in [alreadyWarned], a variable of the module and a plain
    object: a key that it inherits reads as truthy before any call. *)

Definition warning (cond : bool) (message : jsstring)
    (console : list jsstring) : list jsstring :=
  if negb cond then console ++ [message] else console.

Record WarningState := mkWarningState {
  alreadyWarned : gmap jsstring bool;
  console_messages : list jsstring
}.

Definition warningOnce (key : jsstring) (cond : bool) (message : jsstring)
    (st : WarningState) : WarningState :=
  if negb cond
     && negb (property_truthy (get_property (alreadyWarned st) key))
  then mkWarningState (set_property key true (alreadyWarned st))
         (warning false message (console_messages st))
  else st.

(** * Definitions for the statements

    What the claims speak of, written down from their words and not
    from the code, and the notions that the proofs go through. *)


(** The number of [..] segments at the head of the segments of a
    target. *)
Fixpoint leading_parents (segments : list jsstring) : nat :=
  match segments with
  | s :: rest => if streq s (str "..") then S (leading_parents rest) else O
  | [] => O
  end.

(** The base after [k] levels are popped off the chain of route
    pathnames: the entry [k] places before the last one, the root when no
    entry is left. *)
Definition route_base (routePathnames : list jsstring) (k : nat) : jsstring :=
  if (k <? length routePathnames)%nat
  then default [] (routePathnames !! (length routePathnames - 1 - k)%nat)
  else str "/".

(** The trailing slash of the target, put back on a resolved path that
    lost it. *)
Definition restore_slash (toPathname : jsstring) (path : Path) : Path :=
  if truthy toPathname && negb (streq toPathname (str "/"))
     && endsWith toPathname (str "/")
     && negb (endsWith (path_pathname path) (str "/"))
  then mkPath (path_pathname path ++ str "/") (path_search path)
         (path_hash path)
  else path.

(** The length of the longest prefix of code units that satisfy [p]. *)
Fixpoint run (p : char -> bool) (s : jsstring) : nat :=
  match s with
  | c :: s' => if p c then S (run p s') else O
  | [] => O
  end.

(** The form [:name]: a colon and then one or more word characters. *)
Definition is_param_form (s : jsstring) : bool :=
  match s with
  | c :: name =>
      (c =? ch ":")%N
      && match name with [] => false | _ :: _ => forallb is_word name end
  | [] => false
  end.

(** What a segment that is not a splat adds to the score. *)
Definition segment_value (s : jsstring) : Z :=
  if is_param_form s then 3 else match s with [] => 1 | _ :: _ => 10 end.

(** The score as the specification words it. *)
Definition score_spec (p : jsstring) (b : bool) : Z :=
  let segments := split (ch "/") p in
  Z.of_nat (length segments)
  - (if bool_decide (Exists (fun s => s = str "*") segments) then 2 else 0)
  + (if b then 2 else 0)
  + foldr Z.add 0
      (map segment_value (filter (fun s => s <> str "*") segments)).

(** The pathname that [matchRoutes] matches: that of the location, the
    root for a location without one, with the basename stripped; none
    when the pathname is not under the basename. *)
Definition requested_pathname (locationArg : To) (basename : option jsstring)
    : option jsstring :=
  stripBasename
    (or_else
       (default []
          (p_pathname
             match locationArg with
             | ToString s => parsePath s
             | ToPath p => p
             end))
       (str "/"))
    (default (str "/") basename).

(** Every branch of a list, tried in order, gives [null]; the heap goes
    from [h] to [h']. *)
Inductive all_null (pathname : jsstring)
    : list RouteBranch -> heap -> heap -> Prop :=
| all_null_nil h : all_null pathname [] h h
| all_null_cons b l h h1 h2 :
    matchRouteBranch b pathname h = (Ok None, h1) ->
    all_null pathname l h1 h2 ->
    all_null pathname (b :: l) h h2.

(** The route object [{path: p}] and the location [{pathname: p}]. *)
Definition route_of_path (p : string) : RouteObject :=
  mkRoute false [] false (Some (str p)) None.

Definition location_of (p : string) : To :=
  ToPath (mkPartialPath (Some (str p)) None None).

(** The part of the pathname left for the next segment of a branch: the
    whole pathname while nothing is consumed, else the pathname without
    the base matched so far, [/] when nothing is left. *)
Definition remaining_pathname (pathname matchedSoFar : jsstring) : jsstring :=
  if streq matchedSoFar (str "/") then pathname
  else or_else (slice pathname (len matchedSoFar) None) (str "/").

(** The base matched so far, after a segment matched: it advances by the
    base of the segment unless that base is [/]. *)
Definition advance_base (matchedSoFar : jsstring) (pm : PathMatch) : jsstring :=
  if negb (streq (pm_pathnameBase pm) (str "/"))
  then joinPaths [matchedSoFar; pm_pathnameBase pm]
  else matchedSoFar.

(** The segments of a branch match in turn, root to leaf, each against
    what the segments before it left; [pms] are the matches of the
    segments, one for each. *)
Inductive segments_match (pathname : jsstring)
    : jsstring -> list RouteMeta -> list PathMatch -> Prop :=
| segments_match_nil matchedSoFar :
    segments_match pathname matchedSoFar [] []
| segments_match_cons matchedSoFar meta rest pm pms :
    matchPath
      (PatternObject
         (mkPathPattern (relativePath meta) (Some (caseSensitive meta))
            (Some (bool_decide (rest = [])))))
      (remaining_pathname pathname matchedSoFar) = Ok (Some pm) ->
    segments_match pathname (advance_base matchedSoFar pm) rest pms ->
    segments_match pathname matchedSoFar (meta :: rest) (pm :: pms).

(** The union of the params that the segments captured, a later segment
    writing over the keys of an earlier one. *)
Definition params_union (pms : list PathMatch) : Params :=
  foldl (fun acc pm => pm_params pm ∪ acc) ∅ pms.

(** The path accumulated at a route under the accumulated path of its
    parents: the two are joined, an absolute path of the route first
    losing the part that is the path of its parents. *)
Definition accumulated_path (parentPath : jsstring) (r : RouteObject)
    : jsstring :=
  let relativePath := default [] (route_path r) in
  joinPaths
    [parentPath;
     if startsWith relativePath (str "/")
     then slice relativePath (len parentPath) None
     else relativePath].

(** A tree is well formed when no path that starts with [/] fails to
    start with the accumulated path of its parents, and no index route
    has children. *)
Fixpoint well_formed (parentPath : jsstring) (r : RouteObject) : bool :=
  let relativePath := default [] (route_path r) in
  (negb (startsWith relativePath (str "/"))
   || startsWith relativePath parentPath)
  && negb (route_index r
           && match route_children r with [] => false | _ :: _ => true end)
  && forallb (well_formed (accumulated_path parentPath r)) (route_children r).

(** The two messages of an invalid tree, each with the path at fault. *)
Definition invalid_tree_message (msg : jsstring) : Prop :=
  (exists relativePath parentPath,
      msg = absolute_path_message relativePath parentPath)
  \/ (exists path, msg = index_children_message path).


(** Two sequences of sibling indexes are those of siblings when they
    have the same length and agree at every position but the last. *)
Definition siblings (a b : list Z) : Prop :=
  length a = length b
  /\ forall i, (S i < length a)%nat -> a !! i = b !! i.







(** The comparison of two elements by a key, the greater key first. *)
Definition by_key {A} (key : A -> Z) (a b : A) : Z := key b - key a.





(** A state of the matcher that is reached from another by consuming
    input. *)
Definition extends (x y : mstate) : Prop :=
  exists consumed,
    after x = consumed ++ after y /\ before y = rev consumed ++ before x.

(** The pieces of a path pattern: a token [:name] is a colon and the
    longest run of word characters after it, of one at least; every other
    code unit is a literal.  [skip] counts the code units of a name that
    are still to be passed. *)
Inductive piece :=
| Lit (c : char)
| Tok (name : jsstring).

Fixpoint pieces (s : jsstring) (skip : nat) : list piece :=
  match s with
  | [] => []
  | c :: s' =>
      match skip with
      | S k => pieces s' k
      | O =>
          if (c =? ch ":")%N && (1 <=? run is_word s')%nat
          then Tok (take (run is_word s') s') :: pieces s' (run is_word s')
          else Lit c :: pieces s' O
      end
  end.

(** The pieces written out again, a token by a function of its name that
    also updates a state. *)
Fixpoint fold_pieces {S} (g : S -> jsstring -> S * jsstring) (st : S)
    (ps : list piece) : S * jsstring :=
  match ps with
  | [] => (st, [])
  | Lit c :: ps' =>
      let '(st', out) := fold_pieces g st ps' in (st', c :: out)
  | Tok name :: ps' =>
      let '(st1, rep) := g st name in
      let '(st2, out) := fold_pieces g st1 ps' in (st2, rep ++ out)
  end.

Definition is_slash (c : char) : bool := (c =? ch "/")%N.

Definition strip_leading_slashes (s : jsstring) : jsstring :=
  drop (run is_slash s) s.

Definition strip_trailing_slashes (s : jsstring) : jsstring :=
  rev (strip_leading_slashes (rev s)).

(** Every token replaced by what its name reads as in [params]; the
    first token, in the order of the text, whose name reads as
    [undefined] is a fatal error. *)
Fixpoint substitute (params : Params) (ps : list piece) : result jsstring :=
  match ps with
  | [] => Ok []
  | Lit c :: ps' => rest ← substitute params ps'; Ok (c :: rest)
  | Tok name :: ps' =>
      match get_property params name with
      | None => Throw (Error (missing_param_message name))
      | Some v => rest ← substitute params ps'; Ok (property_text v ++ rest)
      end
  end.

(** A trailing splat, with the slashes before it, replaced by a [/] and
    the value of [*] without the slashes it starts with, or by nothing
    when [*] has no value. *)
Definition fill_splat (params : Params) (s : jsstring) : jsstring :=
  if endsWith s (str "*") then
    strip_trailing_slashes (removelast s)
    ++ match params !! str "*" with
       | None => []
       | Some v => str "/" ++ strip_leading_slashes v
       end
  else s.

(** The callback of the first replacement of [generatePath], as a
    function of the name. *)
Definition value_or_throw (params : Params) (thrown : option exn)
    (key : jsstring) : option exn * jsstring :=
  match thrown, get_property params key with
  | None, None => (Some (Error (missing_param_message key)), [])
  | _, v => (thrown, from_option property_text [] v)
  end.

(** The pattern that [matchPath] works with: a string stands for the
    pattern of that path, case-insensitive and matched to the end. *)
Definition pattern_of (pattern : PatternArg) : PathPattern :=
  match pattern with
  | PatternString s => mkPathPattern s (Some false) (Some true)
  | PatternObject p => p
  end.

(** The names of the tokens among the pieces of a pattern, in order. *)
Fixpoint token_names (ps : list piece) : list jsstring :=
  match ps with
  | [] => []
  | Lit _ :: ps' => token_names ps'
  | Tok name :: ps' => name :: token_names ps'
  end.

(** The collapse of the slashes that end a text: [(.)\/+$] to [$1]. *)
Definition collapse_slashes (s : jsstring) : jsstring :=
  replace re_base (str "$1") s.

(** A text has a token when a colon in it has a word character next. *)
Fixpoint has_token (s : jsstring) : bool :=
  match s with
  | c :: s' => ((c =? ch ":")%N && at_word s') || has_token s'
  | [] => false
  end.

(** The characters that [compilePath] escapes, and the escaped text. *)
Definition is_special (c : char) : bool :=
  existsb (N.eqb c) (str "\.*+^$?{}|()[]").

Definition escape (s : jsstring) : jsstring :=
  concat (map (fun c => if is_special c then [ch "\"; c] else [c]) s).

(** The term of a matcher for one literal code unit. *)
Definition lit (c : char) : regex := RSet false [CiChar c].

(** The token of one literal code unit. *)
Definition lit_token (c : char) : token := TAtom false [CiChar c].

(** The text that [compilePath] makes its matcher of: the path without
    the slashes that end it, with one slash for those it starts with. *)
Definition pattern_body (path : jsstring) : jsstring :=
  str "/" ++ strip_leading_slashes (strip_trailing_slashes path).

(** The source of the group that stands for a token. *)
Definition group_source : jsstring := str "([^\/]+)".

(** One code unit of a path in the source of the matcher. *)
Definition escape_unit (c : char) : jsstring :=
  if is_special c then [ch "\"; c] else [c].

(** The source, the tokens and the terms of the matcher for the pieces
    of a path; [n] is the index of the next group. *)
Definition piece_source (p : piece) : jsstring :=
  match p with
  | Lit c => escape_unit c
  | Tok _ => group_source
  end.

Definition piece_tokens (p : piece) : list token :=
  match p with
  | Lit c => [lit_token c]
  | Tok _ =>
      [TOpen GCap; TAtom true [CiChar (ch "/")]; TQuant 1 None; TClose]
  end.

Fixpoint piece_terms (ps : list piece) (n : nat) : list regex :=
  match ps with
  | [] => []
  | Lit c :: ps' => lit c :: piece_terms ps' n
  | Tok _ :: ps' =>
      RGroup n (RQuant 1 None true [CiChar (ch "/")]) :: piece_terms ps' (S n)
  end.

(** The pieces of an escaped text, from those of the text. *)
Definition escaped_piece (p : piece) : list piece :=
  match p with
  | Lit c => map Lit (escape_unit c)
  | Tok name => [Tok name]
  end.

(** The four endings of the source of a matcher. *)
Definition is_ending (suffix : jsstring) : Prop :=
  suffix = str "(.*)$" \/ suffix = str "(?:\/(.+)|\/*)$"
  \/ suffix = str "\/*$" \/ suffix = str "(?:(?=[.~-]|%[0-9A-F]{2})|\b|\/|$)".

(** What a run of the flattener says about the tree. *)
Definition flatten_outcome (res : result (list RouteBranch)) (wf : bool) : Prop :=
  match res with
  | Ok _ => wf = true
  | Throw e => wf = false /\ exists msg, e = Error msg /\ invalid_tree_message msg
  end.

(** * Definitions for the further properties *)

(** A text with every run of slashes cut down to one slash. *)
Fixpoint squeeze (s : jsstring) : jsstring :=
  match s with
  | c :: s' =>
      if is_slash c && startsWith s' (str "/") then squeeze s'
      else c :: squeeze s'
  | [] => []
  end.

(** A text has a double slash when a slash in it has a slash next. *)
Fixpoint double_slash (s : jsstring) : bool :=
  match s with
  | c :: s' => (is_slash c && startsWith s' (str "/")) || double_slash s'
  | [] => false
  end.

(** The chain of segments of a branch goes down the tree: every segment
    is the route at its index among the children of the segment before,
    the first one among [roots]. *)
Fixpoint meta_chain (roots : list RouteObject) (metas : list RouteMeta)
    : Prop :=
  match metas with
  | [] => True
  | meta :: rest =>
      roots !! childrenIndex meta = Some (route meta)
      /\ meta_chain (route_children (route meta)) rest
  end.

(** The same for a chain of routes. *)
Fixpoint route_chain (roots : list RouteObject) (chain : list RouteObject)
    : Prop :=
  match chain with
  | [] => True
  | r :: rest => r ∈ roots /\ route_chain (route_children r) rest
  end.

(** A route that can end a branch: it has a path, or it is an index
    route. *)
Definition can_end (r : RouteObject) : bool :=
  negb (bool_decide (route_path r = None) && negb (route_index r)).

(** The last segment of a branch is a route that can end one, and the
    score of the branch is that of its path. *)
Definition ends_well (b : RouteBranch) : Prop :=
  exists meta,
    last (routesMeta b) = Some meta
    /\ can_end (route meta) = true
    /\ score b = computeScore (branch_path b) (route_index (route meta)).

(** The branch [b] lies below the branch [a]: its chain goes on after
    that of [a]. *)
Definition below (b a : RouteBranch) : Prop :=
  exists tail, tail <> [] /\ routesMeta b = routesMeta a ++ tail.

(** The number of routes, in a tree, that can end a branch. *)
Fixpoint count_branches (r : RouteObject) : nat :=
  list_sum (map count_branches (route_children r))
  + (if can_end r then 1 else 0).

(** The path joined, one segment after the other, from the path of the
    parents and the relative paths of a chain of segments. *)
Definition joined_path (parentPath : jsstring) (metas : list RouteMeta)
    : jsstring :=
  foldl (fun path meta => joinPaths [path; relativePath meta]) parentPath metas.

(** A branch that the flattener adds for the route [r], child [index]
    of a node with the chain [parentsMeta] and the path [parentPath], or
    for a route below it. *)
Definition grown (r : RouteObject) (index : nat) (parentsMeta : list RouteMeta)
    (parentPath : jsstring) (b : RouteBranch) : Prop :=
  exists meta rest,
    routesMeta b = parentsMeta ++ meta :: rest
    /\ childrenIndex meta = index /\ route meta = r
    /\ meta_chain (route_children r) rest
    /\ ends_well b
    /\ branch_path b = joined_path parentPath (meta :: rest).

(** What a run of the flattener adds to [branches]: [n] branches for
    which [P] holds, none of them before a branch it lies above. *)
Definition flatten_grows (res : result (list RouteBranch))
    (branches : list RouteBranch) (P : RouteBranch -> Prop) (n : nat) : Prop :=
  forall branches', res = Ok branches' ->
    exists new,
      branches' = branches ++ new /\ Forall P new
      /\ StronglySorted (fun a b => ~ below b a) new
      /\ length new = n.

(** A tree for the examples: the route [/users] with an index route
    and the route [:id] below it, and the branches of that tree. *)
Definition users_route : RouteObject :=
  mkRoute false [mkRoute false [] true None None; route_of_path ":id"]
    false (Some (str "/users")) None.

Definition users_branches : list RouteBranch :=
  [mkRouteBranch (str "/users/") 17
     [mkRouteMeta (str "/users") false 0 users_route;
      mkRouteMeta [] false 0 (mkRoute false [] true None None)];
   mkRouteBranch (str "/users/:id") 17
     [mkRouteMeta (str "/users") false 0 users_route;
      mkRouteMeta (str ":id") false 1 (route_of_path ":id")];
   mkRouteBranch (str "/users") 13
     [mkRouteMeta (str "/users") false 0 users_route]].

(** The pathnames of a match are well formed: the pathname starts with
    a slash and has no two slashes in a row, the base is in the normal
    form of [normalizePathname]. *)
Definition well_formed_match (m : RouteMatch) : Prop :=
  startsWith (match_pathname m) (str "/") = true
  /\ (forall a b, match_pathname m <> a ++ str "//" ++ b)
  /\ startsWith (match_pathnameBase m) (str "/") = true
  /\ startsWith (match_pathnameBase m) (str "//") = false
  /\ (endsWith (match_pathnameBase m) (str "/") = true ->
      match_pathnameBase m = str "/").

(** The four endings of a matcher: a splat at the root, a splat after a
    path, a match to the end, a match of a prefix. *)
Inductive ending := EndRootSplat | EndSplat | EndWhole | EndPrefix.

Definition ending_of (path : jsstring) (end_ : bool) : ending :=
  if endsWith path (str "*") then
    if streq path (str "*") || streq path (str "/*")
    then EndRootSplat else EndSplat
  else if end_ then EndWhole else EndPrefix.

Definition ending_source (e : ending) : jsstring :=
  match e with
  | EndRootSplat => str "(.*)$"
  | EndSplat => str "(?:\/(.+)|\/*)$"
  | EndWhole => str "\/*$"
  | EndPrefix => str "(?:(?=[.~-]|%[0-9A-F]{2})|\b|\/|$)"
  end.

(** The terms of an ending; [n] is the index of the group of the
    splat. *)
Definition ending_terms (e : ending) (n : nat) : list regex :=
  match e with
  | EndRootSplat => [RGroup n (RQuant 0 None true [CiLineTerminator]); REol]
  | EndSplat =>
      [RAlt
         (RSeq (RSet false [CiChar (ch "/")])
            (RGroup n (RQuant 1 None true [CiLineTerminator])))
         (RQuant 0 None false [CiChar (ch "/")]);
       REol]
  | EndWhole => [RQuant 0 None false [CiChar (ch "/")]; REol]
  | EndPrefix =>
      [RAlt
         (RLook
            (RAlt
               (RSet false [CiChar (ch "."); CiChar (ch "~"); CiChar (ch "-")])
               (RSeq (RSet false [CiChar (ch "%")])
                  (RQuant 2 (Some 2%nat) false
                     [CiRange (ch "0") (ch "9"); CiRange (ch "A") (ch "F")]))))
         (RAlt RWordB (RAlt (RSet false [CiChar (ch "/")]) REol))]
  end.

Definition ending_groups (e : ending) : nat :=
  match e with
  | EndRootSplat | EndSplat => 1
  | EndWhole | EndPrefix => 0
  end.

(** The matcher of a pattern, from its pieces and its ending. *)
Definition matcher_of (ps : list piece) (e : ending) (icase : bool) : RegExp :=
  mkRegExp
    (seq_of (RBol :: piece_terms ps 0
             ++ ending_terms e (length (token_names ps))))
    (length (token_names ps) + ending_groups e) icase false.

(** The text that the pieces of a matcher are those of: the path
    without the slashes and the splat that end it, with one slash for
    the slashes it starts with. *)
Definition pattern_text (path : jsstring) : jsstring :=
  str "/" ++ strip_leading_slashes (replace re_trailing_splat [] path).

(** The names of the tokens of a path, in order. *)
Definition tokens_of (path : jsstring) : list jsstring :=
  token_names (pieces path O).

(** The text that a token captures: one code unit at least, and no
    slash. *)
Definition segment_text (raw : jsstring) : Prop :=
  raw <> [] /\ forallb (fun c => negb (is_slash c)) raw = true.

(** The groups of a term have the index [n] at least. *)
Fixpoint groups_from (n : nat) (r : regex) : Prop :=
  match r with
  | RSeq r1 r2 | RAlt r1 r2 => groups_from n r1 /\ groups_from n r2
  | RGroup i r => (n <= i)%nat /\ groups_from n r
  | RLook r => groups_from n r
  | _ => True
  end.

(** A call of [warningOnce], and a run of calls one after the other. *)
Record WarningCall := mkWarningCall {
  call_key : jsstring;
  call_cond : bool;
  call_message : jsstring
}.

Definition run_warnings (calls : list WarningCall) (st : WarningState)
    : WarningState :=
  foldl (fun st c => warningOnce (call_key c) (call_cond c) (call_message c) st)
    st calls.

(** A value that a pathname segment holds as it stands: one code unit
    at least, and none of [/], [%] and [*]. *)
Definition plain_value (v : jsstring) : bool :=
  truthy v
  && forallb
       (fun c => negb (is_slash c || (c =? ch "%")%N || (c =? ch "*")%N)) v.

(** Every name has such a value in [params]. *)
Definition has_plain_values (params : Params) (names : list jsstring) : bool :=
  forallb
    (fun name =>
       match params !! name with
       | Some v => plain_value v
       | None => false
       end)
    names.

(** Every token of a pattern goes to the end of its segment: a slash,
    or nothing, comes after it. *)
Fixpoint whole_tokens (ps : list piece) : bool :=
  match ps with
  | [] => true
  | Lit _ :: rest => whole_tokens rest
  | Tok _ :: rest =>
      match rest with
      | [] => true
      | Lit c :: _ => is_slash c
      | Tok _ :: _ => false
      end
      && whole_tokens rest
  end.

(** The captures after the tokens of a pattern took their values; [n]
    is the index of the next group. *)
Fixpoint captures_of (params : Params) (ps : list piece) (n : nat)
    (cs : list (option jsstring)) : list (option jsstring) :=
  match ps with
  | [] => cs
  | Lit _ :: ps' => captures_of params ps' n cs
  | Tok name :: ps' =>
      captures_of params ps' (S n)
        (<[n := Some (default [] (params !! name))]> cs)
  end.

(** The code units that end a line, which [.] does not match. *)
Definition line_terminator (c : char) : bool :=
  (c =? 10)%N || (c =? 13)%N || (c =? 8232)%N || (c =? 8233)%N.

(** A text of ASCII code units, on which the case mapping of the model
    is that of [toLowerCase]. *)
Definition ascii_text (s : jsstring) : bool :=
  forallb (fun c => (c <? 128)%N) s.

(** A text that lies in another one. *)
Definition part_of (raw s : jsstring) : Prop :=
  exists pre post, s = pre ++ raw ++ post.

(** A key that reads as truthy in [alreadyWarned]. *)
Definition warned (st : WarningState) (key : jsstring) : bool :=
  property_truthy (get_property (alreadyWarned st) key).

(** The place of a branch in the tree: the sibling indexes of its
    segments, root to leaf. *)
Definition place_of (b : RouteBranch) : list nat :=
  map childrenIndex (routesMeta b).

(** The route that a place leads to from a route, through children. *)
Fixpoint route_from (r : RouteObject) (place : list nat)
    : option RouteObject :=
  match place with
  | [] => Some r
  | i :: rest =>
      match route_children r !! i with
      | Some child => route_from child rest
      | None => None
      end
  end.

(** The route at a place of a tree. *)
Definition route_at (roots : list RouteObject) (place : list nat)
    : option RouteObject :=
  match place with
  | [] => None
  | i :: rest =>
      match roots !! i with
      | Some r => route_from r rest
      | None => None
      end
  end.

(** What a run of the flattener adds to [branches]: one branch for every
    place, after [prefix], that [ok] holds of. *)
Definition adds_places (res : result (list RouteBranch))
    (branches : list RouteBranch) (prefix : list nat)
    (ok : list nat -> Prop) : Prop :=
  forall branches', res = Ok branches' ->
    exists new,
      branches' = branches ++ new
      /\ NoDup (map place_of new)
      /\ forall place,
           place ∈ map place_of new
           <-> exists rest, place = prefix ++ rest /\ ok rest.

(** * Properties *)

(** ** Strings *)

Arguments str : simpl never.
Arguments ch : simpl never.

(** Literals are evaluated on demand. *)
Ltac eval_str :=
  repeat match goal with
  | |- context [str ?s] =>
      let v := eval vm_compute in (str s) in change (str s) with v
  | |- context [ch ?s] =>
      let v := eval vm_compute in (ch s) in change (ch s) with v
  end.

Lemma split_nonempty sep s : split sep s <> [].
Proof.
  destruct s as [|c s]; simpl; [discriminate|].
  destruct (c =? sep)%N; [discriminate|].
  destruct (split sep s); discriminate.
Qed.

Lemma join_cons sep x y ys :
  join sep (x :: y :: ys) = x ++ sep ++ join sep (y :: ys).
Proof. reflexivity. Qed.

Lemma join_split sep s : join [sep] (split sep s) = s.
Proof.
  induction s as [|c s IH]; simpl; [reflexivity|].
  destruct (N.eqb_spec c sep) as [->|Hne].
  - pose proof (split_nonempty sep s) as Hn.
    destruct (split sep s) as [|y ys]; [contradiction|].
    rewrite join_cons, IH. reflexivity.
  - pose proof (split_nonempty sep s) as Hn.
    destruct (split sep s) as [|y ys]; [contradiction|].
    destruct ys as [|z zs]; simpl in *; rewrite <- IH; reflexivity.
Qed.

Lemma streq_true s t : streq s t = true <-> s = t.
Proof. unfold streq. apply bool_decide_eq_true. Qed.

Lemma streq_false s t : streq s t = false <-> s <> t.
Proof. unfold streq. apply bool_decide_eq_false. Qed.

(** ** Plain objects *)

Lemma get_property_own {V} (o : gmap jsstring V) (key : jsstring) (v : V) :
  o !! key = Some v -> get_property o key = Some (Own v).
Proof. intros H. unfold get_property. rewrite H. reflexivity. Qed.

Lemma get_property_not_inherited {V} (o : gmap jsstring V) (key : jsstring) :
  inherited key = false -> get_property o key = Own <$> o !! key.
Proof.
  intros H. unfold get_property. rewrite H. destruct (o !! key); reflexivity.
Qed.

Lemma set_property_insert {V} (key : jsstring) (v : V) (o : gmap jsstring V) :
  key <> str "__proto__" -> set_property key v o = <[key := v]> o.
Proof.
  intros H. unfold set_property. apply streq_false in H. rewrite H.
  destruct (o !! key); reflexivity.
Qed.

Lemma lookup_set_property_eq {V} (key : jsstring) (v : V) (o : gmap jsstring V) :
  key <> str "__proto__" -> set_property key v o !! key = Some v.
Proof. intros H. rewrite set_property_insert by exact H. apply lookup_insert_eq. Qed.

Lemma lookup_set_property_ne {V} (key key' : jsstring) (v : V) (o : gmap jsstring V) :
  key <> key' -> set_property key v o !! key' = o !! key'.
Proof.
  intros H. unfold set_property.
  destruct (o !! key); [apply lookup_insert_ne, H|].
  destruct (streq key (str "__proto__")); [reflexivity|].
  apply lookup_insert_ne, H.
Qed.

(** ** Relative resolution *)




Lemma shift_parents_spec segments i :
  shift_parents segments i =
  (drop (leading_parents segments) segments,
   i - Z.of_nat (leading_parents segments)).
Proof.
  revert i. induction segments as [|s rest IH]; intros i; simpl.
  - f_equal. lia.
  - destruct (streq s (str "..")).
    + rewrite IH. simpl. f_equal. lia.
    + simpl. f_equal. lia.
Qed.

Lemma startsWith_app s t : startsWith (s ++ t) s = true.
Proof.
  induction s as [|c s IH]; simpl; [destruct t; reflexivity|].
  rewrite N.eqb_refl. exact IH.
Qed.

Lemma split_head sep s :
  exists seg rest tail, split sep s = seg :: rest /\ s = seg ++ tail
    /\ (tail = [] \/ exists tail', tail = sep :: tail').
Proof.
  induction s as [|c s IH]; simpl.
  - exists [], [], []. auto.
  - destruct (N.eqb_spec c sep) as [->|Hne].
    + exists [], (split sep s), (sep :: s). eauto.
    + destruct IH as (seg & rest & tail & -> & -> & Ht).
      exists (c :: seg), rest, tail. auto.
Qed.

Lemma leading_parents_no_prefix p :
  startsWith p (str "..") = false ->
  leading_parents (split (ch "/") p) = O.
Proof.
  intros Hp. destruct (split_head (ch "/") p) as (seg & rest & tail & -> & -> & _).
  simpl. destruct (streq seg (str "..")) eqn:E; [|reflexivity].
  apply streq_true in E. subst seg. rewrite startsWith_app in Hp. discriminate.
Qed.

Lemma join_split_slash s : join (str "/") (split (ch "/") s) = s.
Proof. exact (join_split (ch "/") s). Qed.

Lemma route_base_index (xs : list jsstring) (k : nat) :
  (if 0 <=? len_list xs - 1 - Z.of_nat k
   then default [] (at_index xs (len_list xs - 1 - Z.of_nat k))
   else str "/") = route_base xs k.
Proof.
  unfold route_base, at_index, len_list.
  destruct (Nat.ltb_spec k (length xs)).
  - destruct (Z.leb_spec 0 (Z.of_nat (length xs) - 1 - Z.of_nat k)); [|lia].
    do 2 f_equal. lia.
  - destruct (Z.leb_spec 0 (Z.of_nat (length xs) - 1 - Z.of_nat k)); [lia|].
    reflexivity.
Qed.

(** C6: the [k] leading [..] segments of the target pop [k] levels off
    the chain of route pathnames, the base being the root when the chain
    has no more than [k] levels, and the rest of the target is resolved
    against that base; with the chain [/users], [/users/5], the target
    [..] resolves to [/users]. *)
Theorem resolveTo_leading_parents :
  (forall (p : jsstring) (search hash : option jsstring)
          (routePathnames : list jsstring) (locationPathname : jsstring),
      resolveTo (ToPath (mkPartialPath (Some p) search hash)) routePathnames
        locationPathname =
      restore_slash p
        (resolvePath
           (ToPath
              (mkPartialPath
                 (Some
                    (join (str "/")
                       (drop (leading_parents (split (ch "/") p))
                          (split (ch "/") p))))
                 search hash))
           (Some
              (route_base routePathnames
                 (leading_parents (split (ch "/") p))))))
  /\ path_pathname
       (resolveTo (ToPath (mkPartialPath (Some (str "..")) None None))
          [str "/users"; str "/users/5"] (str "/users/5")) = str "/users".
Proof.
  split; [|reflexivity].
  intros p search hash rps loc. unfold resolveTo.
  cbn [is_empty_string p_pathname p_search p_hash orb].
  destruct p as [|c p'].
  - rewrite bool_decide_eq_true_2 by reflexivity.
    change (startsWith (str "/") (str "..")) with false. cbv iota.
    change (leading_parents (split (ch "/") [])) with O.
    rewrite <- route_base_index, Z.sub_0_r. reflexivity.
  - rewrite bool_decide_eq_false_2 by discriminate.
    set (p := c :: p').
    destruct (startsWith p (str "..")) eqn:Hp.
    + rewrite shift_parents_spec. rewrite route_base_index. reflexivity.
    + rewrite (leading_parents_no_prefix p Hp).
      rewrite <- route_base_index, Z.sub_0_r. rewrite drop_0.
      rewrite join_split_slash. reflexivity.
Qed.

(** ** The matcher *)

Lemma run_le p s : (run p s <= length s)%nat.
Proof. induction s as [|c s IH]; simpl; [lia|]. destruct (p c); simpl; lia. Qed.

Lemma run_all p s : forallb p s = true <-> run p s = length s.
Proof.
  induction s as [|c s IH]; simpl; [tauto|].
  destruct (p c); simpl.
  - rewrite IH. split; [congruence | intros; lia].
  - split; [discriminate | intros; lia].
Qed.

Lemma run_ext p q s : (forall c, p c = q c) -> run p s = run q s.
Proof.
  intros H. induction s as [|c s IH]; simpl; [reflexivity|].
  rewrite H, IH. reflexivity.
Qed.

(** A greedy quantifier first hands the longest run to its
    continuation. *)
Lemma quant_max p mn bef aft cs k z :
  (mn <= run p aft)%nat ->
  k (MState (rev (take (run p aft) aft) ++ bef) (drop (run p aft) aft) cs)
    = Some z ->
  quant p mn None bef aft cs k = Some z.
Proof.
  revert mn bef. induction aft as [|c aft IH]; intros mn bef Hmn Hk; simpl in *.
  - destruct mn; [exact Hk | lia].
  - destruct (p c) eqn:Hp; simpl in *.
    + rewrite (IH (Nat.pred mn) (c :: bef)); [reflexivity | lia |].
      rewrite <- app_assoc in Hk. exact Hk.
    + destruct mn; [exact Hk | lia].
Qed.

(** It fails when the continuation fails after every admissible run. *)
Lemma quant_none p mn bef aft cs k :
  (forall j, (mn <= j <= run p aft)%nat ->
     k (MState (rev (take j aft) ++ bef) (drop j aft) cs) = None) ->
  quant p mn None bef aft cs k = None.
Proof.
  revert mn bef. induction aft as [|c aft IH]; intros mn bef Hk; simpl in *.
  - destruct mn; [|reflexivity]. apply (Hk O). lia.
  - assert (Hstop : match mn with O => k (MState bef (c :: aft) cs) | S _ => None end = None).
    { destruct mn; [|reflexivity]. apply (Hk O). destruct (p c); lia. }
    destruct (p c) eqn:Hp; [|exact Hstop].
    rewrite (IH (Nat.pred mn) (c :: bef)); [exact Hstop|].
    intros j Hj. specialize (Hk (S j)). simpl in Hk.
    rewrite <- app_assoc in Hk. apply Hk. lia.
Qed.

Lemma set_mem_word c : set_mem false false [CiWord] c = is_word c.
Proof. unfold set_mem. simpl. rewrite orb_false_r. reflexivity. Qed.

Lemma set_mem_char icase a c :
  set_mem icase false [CiChar a] c = (canon icase a =? canon icase c)%N.
Proof. unfold set_mem. simpl. rewrite orb_false_r. reflexivity. Qed.

(** ** The score *)

Lemma paramRe_from_start s :
  match_at paramRe [] s = if is_param_form s then Some (MState (rev s) [] []) else None.
Proof.
  unfold match_at, paramRe. cbn [m re_ast re_ignoreCase re_groups before after caps replicate].
  destruct s as [|c name]; [reflexivity|].
  rewrite set_mem_char. cbn [canon is_param_form].
  rewrite N.eqb_sym. change 58%N with (ch ":").
  destruct (c =? ch ":")%N; [|reflexivity]. cbn [andb].
  destruct (match name with [] => false | _ :: _ => forallb is_word name end) eqn:E.
  - assert (Hall : forallb is_word name = true /\ name <> []).
    { destruct name; [discriminate|]. split; [exact E | discriminate]. }
    destruct Hall as [Hall Hne].
    apply run_all in Hall.
    erewrite quant_max; [reflexivity| |].
    + rewrite (run_ext _ is_word) by apply set_mem_word.
      rewrite Hall. destruct name; [congruence | simpl; lia].
    + rewrite (run_ext _ is_word) by apply set_mem_word.
      rewrite Hall, firstn_all, drop_all. cbn [after]. reflexivity.
  - apply quant_none. intros j Hj. cbn [after].
    rewrite (run_ext _ is_word) in Hj by apply set_mem_word.
    destruct (drop j name) as [|d rest] eqn:Hd; [|reflexivity].
    exfalso. pose proof (run_le is_word name).
    assert (length (drop j name) = 0%nat) as Hl by (rewrite Hd; reflexivity).
    rewrite length_drop in Hl.
    assert (run is_word name = length name) as Hr by lia.
    apply run_all in Hr.
    destruct name; [simpl in *; lia|]. congruence.
Qed.

Lemma paramRe_later c bef aft : search_from paramRe (c :: bef) aft = None.
Proof.
  revert c bef. induction aft as [|d aft IH]; intros c bef.
  - reflexivity.
  - cbn [search_from]. change (match_at paramRe (c :: bef) (d :: aft)) with (@None mstate).
    apply IH.
Qed.

Lemma test_paramRe s : test paramRe s = is_param_form s.
Proof.
  unfold test, exec. destruct s as [|c s].
  - reflexivity.
  - cbn [search_from]. rewrite paramRe_from_start.
    destruct (is_param_form (c :: s)); [reflexivity|].
    rewrite paramRe_later. reflexivity.
Qed.

Lemma fold_left_add {A} (f : A -> Z) (l : list A) (init : Z) :
  fold_left (fun score x => score + f x) l init = init + foldr Z.add 0 (map f l).
Proof.
  revert init. induction l as [|x l IH]; intros init; simpl; [lia|].
  rewrite IH. lia.
Qed.

Lemma isSplat_true s : isSplat s = true <-> s = str "*".
Proof. apply streq_true. Qed.

Lemma existsb_isSplat segments :
  existsb isSplat segments = bool_decide (Exists (fun s => s = str "*") segments).
Proof.
  induction segments as [|s l IH]; cbn [existsb].
  - symmetry. apply bool_decide_eq_false. intros H. inversion H.
  - rewrite IH. destruct (isSplat s) eqn:E; simpl.
    + symmetry. apply bool_decide_eq_true. left. apply isSplat_true, E.
    + apply bool_decide_ext. rewrite Exists_cons.
      assert (s <> str "*") by (intros H; apply isSplat_true in H; congruence).
      tauto.
Qed.

(** C2: the score is the number of segments, less 2 when a segment is a
    splat, plus 2 for an index route, plus 3, 1 or 10 for every segment
    that is not a splat: 3 for the form [:name], 1 for the empty segment,
    10 for any other. *)
Theorem computeScore_is_score_spec :
  forall (p : jsstring) (b : bool), computeScore p b = score_spec p b.
Proof.
  intros p b. unfold computeScore, score_spec, len_list.
  set (segments := split (ch "/") p).
  rewrite fold_left_add. rewrite existsb_isSplat.
  rewrite (list_filter_iff _ (fun s => s <> str "*")).
  2: { intros s. unfold isSplat, streq. rewrite negb_True, bool_decide_spec. tauto. }
  assert (Hv : forall l : list jsstring,
    map (fun x => if test paramRe x then dynamicSegmentValue
                  else if streq x [] then emptySegmentValue
                  else staticSegmentValue) l = map segment_value l).
  { intros l. apply map_ext. intros s. rewrite test_paramRe.
    unfold segment_value, streq. destruct (is_param_form s); [reflexivity|].
    destruct s; reflexivity. }
  rewrite Hv. unfold splatPenalty, indexRouteValue.
  destruct (bool_decide _), b; lia.
Qed.

(** ** The driver of [matchRoutes] *)

Lemma matchRoutes_unfold routes locationArg basename h pathname branches :
  requested_pathname locationArg basename = Some pathname ->
  flattenRoutes routes [] [] [] = Ok branches ->
  matchRoutes routes locationArg basename h =
  matchRoutes_loop (rankRouteBranches branches) pathname h.
Proof.
  unfold requested_pathname, matchRoutes. intros -> ->. reflexivity.
Qed.

Lemma matchRoutes_loop_null bs pathname h h' :
  matchRoutes_loop bs pathname h = (Ok None, h') <-> all_null pathname bs h h'.
Proof.
  revert h. induction bs as [|b bs IH]; intros h; simpl.
  - split.
    + intros [= ->]. constructor.
    + intros H. inversion H. reflexivity.
  - split.
    + destruct (matchRouteBranch b pathname h) as [[[ms|]|e] h1] eqn:E;
        try discriminate.
      intros H. apply IH in H. econstructor; eauto.
    + intros H. inversion H as [|? ? ? h1 ? Hb Hl]; subst.
      rewrite Hb. apply IH, Hl.
Qed.

Lemma matchRoutes_loop_result bs pathname h r h' :
  r <> Ok None ->
  matchRoutes_loop bs pathname h = (r, h') <->
  exists l1 b l2 h1,
    bs = l1 ++ b :: l2 /\ all_null pathname l1 h h1
    /\ matchRouteBranch b pathname h1 = (r, h').
Proof.
  intros Hr. revert h. induction bs as [|b bs IH]; intros h; simpl.
  - split.
    + intros [= <- _]. congruence.
    + intros (l1 & b & l2 & h1 & Hbs & _). destruct l1; discriminate.
  - split.
    + destruct (matchRouteBranch b pathname h) as [[[ms|]|e] h1] eqn:E.
      * intros [= <- <-]. exists [], b, bs, h. repeat split; [constructor | exact E].
      * intros H. apply IH in H as (l1 & b' & l2 & h2 & -> & Hl & Hb).
        exists (b :: l1), b', l2, h2. repeat split; [|exact Hb].
        econstructor; eauto.
      * intros [= <- <-]. exists [], b, bs, h. repeat split; [constructor | exact E].
    + intros (l1 & b' & l2 & h1 & Hbs & Hl & Hb).
      destruct l1 as [|b0 l1]; simpl in Hbs; injection Hbs as -> ->.
      * inversion Hl; subst. rewrite Hb. destruct r as [[ms|]|e]; congruence.
      * inversion Hl as [|? ? ? h2 ? Hb0 Hl']; subst. rewrite Hb0.
        apply IH. eauto 10.
Qed.

(** C1: the ranked branches are tried in their order and the call gives
    what the first branch that matches gives, [null] when none does; the
    static [/a] is chosen before [/:id], and [/a/b] before [/a/*]. *)
Theorem matchRoutes_first_matching_branch :
  (forall routes locationArg basename h pathname branches,
      requested_pathname locationArg basename = Some pathname ->
      flattenRoutes routes [] [] [] = Ok branches ->
      (forall ms h',
          matchRoutes routes locationArg basename h = (Ok (Some ms), h') <->
          exists l1 b l2 h1,
            rankRouteBranches branches = l1 ++ b :: l2
            /\ all_null pathname l1 h h1
            /\ matchRouteBranch b pathname h1 = (Ok (Some ms), h'))
      /\ (forall h',
          matchRoutes routes locationArg basename h = (Ok None, h') <->
          all_null pathname (rankRouteBranches branches) h h'))
  /\ matchRoutes [route_of_path "/a"; route_of_path "/:id"] (location_of "/a")
       None []
     = (Ok (Some [mkRouteMatch 0 (str "/a") (str "/a") (route_of_path "/a")]),
        [∅])
  /\ matchRoutes [route_of_path "/a/*"; route_of_path "/a/b"]
       (location_of "/a/b") None []
     = (Ok (Some
              [mkRouteMatch 0 (str "/a/b") (str "/a/b") (route_of_path "/a/b")]),
        [∅]).
Proof.
  split; [|split; vm_compute; reflexivity].
  intros routes locationArg basename h pathname branches Hp Hf. split.
  - intros ms h'. rewrite (matchRoutes_unfold _ _ _ _ _ _ Hp Hf).
    apply matchRoutes_loop_result. discriminate.
  - intros h'. rewrite (matchRoutes_unfold _ _ _ _ _ _ Hp Hf).
    apply matchRoutes_loop_null.
Qed.

Lemma matchRoutes_first_matching_branch_witness :
  requested_pathname (location_of "/a") None = Some (str "/a")
  /\ flattenRoutes [route_of_path "/a"; route_of_path "/:id"] [] [] []
     = Ok [mkRouteBranch (str "/a") 13
             [mkRouteMeta (str "/a") false 0
                (route_of_path "/a")];
           mkRouteBranch (str "/:id") 6
             [mkRouteMeta (str "/:id") false 1
                (route_of_path "/:id")]]
  /\ (forall h',
        matchRoutes [route_of_path "/a"; route_of_path "/:id"]
          (location_of "/a") None [] = (Ok None, h') <->
        all_null (str "/a")
          (rankRouteBranches
             [mkRouteBranch (str "/a") 13
                [mkRouteMeta (str "/a") false 0
                   (route_of_path "/a")];
              mkRouteBranch (str "/:id") 6
                [mkRouteMeta (str "/:id") false 1
                   (route_of_path "/:id")]]) [] h').
Proof.
  assert (Hp : requested_pathname (location_of "/a") None = Some (str "/a"))
    by reflexivity.
  assert (Hf : flattenRoutes [route_of_path "/a"; route_of_path "/:id"] [] [] []
     = Ok [mkRouteBranch (str "/a") 13
             [mkRouteMeta (str "/a") false 0
                (route_of_path "/a")];
           mkRouteBranch (str "/:id") 6
             [mkRouteMeta (str "/:id") false 1
                (route_of_path "/:id")]]) by (vm_compute; reflexivity).
  split; [exact Hp | split; [exact Hf|]].
  exact (proj2 (proj1 matchRoutes_first_matching_branch _ _ _ [] _ _ Hp Hf)).
Defined.

(** ** The params of a chain of matches *)

Lemma matchRouteBranch_loop_spec metas :
  forall pathname l matchedSoFar ms0 h ms h' P0,
    h !! l = Some P0 ->
    matchRouteBranch_loop metas pathname l matchedSoFar ms0 h
      = (Ok (Some ms), h') ->
    exists pms new,
      segments_match pathname matchedSoFar metas pms
      /\ ms = ms0 ++ new
      /\ Forall2 (fun m meta => match_route m = route meta) new metas
      /\ Forall (fun m => match_params m = l) new
      /\ h' !! l = Some (foldl (fun acc pm => pm_params pm ∪ acc) P0 pms).
Proof.
  induction metas as [|meta rest IH];
    intros pathname l mp ms0 h ms h' P0 Hl Hrun; simpl in Hrun.
  - injection Hrun as <- <-. exists [], []. rewrite app_nil_r.
    repeat split; auto. constructor.
  - match type of Hrun with
    | context [matchPath ?pat ?rem] =>
        destruct (matchPath pat rem) as [[pm|]|e] eqn:Hpm; try discriminate
    end.
    assert (Hlt : (l < length h)%nat) by (eapply lookup_lt_Some; eauto).
    unfold assign in Hrun. rewrite Hl in Hrun.
    eapply IH in Hrun as (pms & new & Hseg & -> & Hroutes & Hparams & Hheap).
    2: { apply list_lookup_insert_eq. exact Hlt. }
    exists (pm :: pms), (mkRouteMatch l
        (joinPaths [mp; pm_pathname pm])
        (normalizePathname (joinPaths [mp; pm_pathnameBase pm]))
        (route meta) :: new).
    split; [|split; [|split; [|split]]].
    + econstructor; [|exact Hseg].
      unfold remaining_pathname. rewrite <- Hpm. do 4 f_equal.
      destruct rest; reflexivity.
    + rewrite <- app_assoc. reflexivity.
    + constructor; [reflexivity | exact Hroutes].
    + constructor; [reflexivity | exact Hparams].
    + exact Hheap.
Qed.

Lemma matchRouteBranch_spec b pathname h ms h' :
  matchRouteBranch b pathname h = (Ok (Some ms), h') ->
  exists pms,
    segments_match pathname (str "/") (routesMeta b) pms
    /\ Forall2 (fun m meta => match_route m = route meta) ms (routesMeta b)
    /\ Forall (fun m => match_params m = length h) ms
    /\ h' !! length h = Some (params_union pms).
Proof.
  unfold matchRouteBranch, alloc. intros Hrun.
  eapply matchRouteBranch_loop_spec in Hrun
    as (pms & new & Hseg & -> & Hroutes & Hparams & Hheap).
  2: { rewrite lookup_app_r, Nat.sub_diag by lia. reflexivity. }
  exists pms. auto.
Qed.

Lemma matchRoutes_some routes locationArg basename h ms h' :
  matchRoutes routes locationArg basename h = (Ok (Some ms), h') ->
  exists pathname branches,
    requested_pathname locationArg basename = Some pathname
    /\ flattenRoutes routes [] [] [] = Ok branches
    /\ matchRoutes_loop (rankRouteBranches branches) pathname h
       = (Ok (Some ms), h').
Proof.
  unfold matchRoutes, requested_pathname.
  destruct (stripBasename _ _) as [pathname|]; [|discriminate].
  destruct (flattenRoutes routes [] [] []) as [branches|e]; [|discriminate].
  eauto.
Qed.

(** C10: the matches of a chain all hold the address of one params
    object, and after the call that object is the union of what every
    segment of the branch captured; in the chain for [/users/5] under
    [/users] with the child [:id], the match of the parent has [id]. *)
Theorem matchRoutes_params_shared :
  (forall routes locationArg basename h ms h',
      matchRoutes routes locationArg basename h = (Ok (Some ms), h') ->
      exists pathname branches b pms l,
        requested_pathname locationArg basename = Some pathname
        /\ flattenRoutes routes [] [] [] = Ok branches
        /\ b ∈ rankRouteBranches branches
        /\ segments_match pathname (str "/") (routesMeta b) pms
        /\ Forall2 (fun m meta => match_route m = route meta) ms (routesMeta b)
        /\ Forall (fun m => match_params m = l) ms
        /\ h' !! l = Some (params_union pms))
  /\ matchRoutes
       [mkRoute false [route_of_path ":id"] false (Some (str "/users")) None]
       (location_of "/users/5") None []
     = (Ok (Some
              [mkRouteMatch 0 (str "/users") (str "/users")
                 (mkRoute false [route_of_path ":id"] false
                    (Some (str "/users")) None);
               mkRouteMatch 0 (str "/users/5") (str "/users/5")
                 (route_of_path ":id")]),
        [{[ str "id" := str "5" ]}]).
Proof.
  split; [|vm_compute; reflexivity].
  intros routes locationArg basename h ms h' Hrun.
  apply matchRoutes_some in Hrun as (pathname & branches & Hp & Hf & Hloop).
  apply matchRoutes_loop_result in Hloop as (l1 & b & l2 & h1 & Hbs & _ & Hb);
    [|discriminate].
  apply matchRouteBranch_spec in Hb as (pms & Hseg & Hroutes & Hparams & Hheap).
  exists pathname, branches, b, pms, (length h1).
  repeat split; auto.
  rewrite Hbs. apply elem_of_app. right. left.
Qed.

Lemma matchRoutes_params_shared_witness :
  exists pathname branches b pms l,
    requested_pathname (location_of "/users/5") None = Some pathname
    /\ flattenRoutes
         [mkRoute false [route_of_path ":id"] false (Some (str "/users")) None]
         [] [] [] = Ok branches
    /\ b ∈ rankRouteBranches branches
    /\ segments_match pathname (str "/") (routesMeta b) pms
    /\ Forall2 (fun m meta => match_route m = route meta)
         [mkRouteMatch 0 (str "/users") (str "/users")
            (mkRoute false [route_of_path ":id"] false
               (Some (str "/users")) None);
          mkRouteMatch 0 (str "/users/5") (str "/users/5")
            (route_of_path ":id")]
         (routesMeta b)
    /\ Forall (fun m => match_params m = l)
         [mkRouteMatch 0 (str "/users") (str "/users")
            (mkRoute false [route_of_path ":id"] false
               (Some (str "/users")) None);
          mkRouteMatch 0 (str "/users/5") (str "/users/5")
            (route_of_path ":id")]
    /\ [{[ str "id" := str "5" ]}] !! l = Some (params_union pms).
Proof.
  apply (proj1 matchRoutes_params_shared
           [mkRoute false [route_of_path ":id"] false (Some (str "/users")) None]
           (location_of "/users/5") None []).
  vm_compute. reflexivity.
Defined.

(** ** Invalid route trees *)

Lemma RouteObject_nested_ind (P : RouteObject -> Prop) :
  (forall cs children idx path id,
      Forall P children -> P (mkRoute cs children idx path id)) ->
  forall r, P r.
Proof.
  intros H. fix IH 1. intros [cs children idx path id]. apply H.
  induction children as [|c l IHl]; constructor; [apply IH | exact IHl].
Qed.

Lemma forEach_flatten_outcome children parentsMeta path :
  Forall (fun r => forall index branches parentsMeta parentPath,
            flatten_outcome (flattenRoute r index branches parentsMeta parentPath)
              (well_formed parentPath r)) children ->
  forall index branches,
    flatten_outcome
      (forEach (fun child i bs => flattenRoute child i bs parentsMeta path)
         children index branches)
      (forallb (well_formed path) children).
Proof.
  induction 1 as [|r l Hr Hl IH]; intros index branches; simpl.
  - reflexivity.
  - specialize (Hr index branches parentsMeta path).
    destruct (flattenRoute r index branches parentsMeta path) as [bs|e]; simpl in *.
    + rewrite Hr. apply IH.
    + destruct Hr as [-> Hmsg]. split; [reflexivity | exact Hmsg].
Qed.

Lemma flattenRoute_outcome r :
  forall index branches parentsMeta parentPath,
    flatten_outcome (flattenRoute r index branches parentsMeta parentPath)
      (well_formed parentPath r).
Proof.
  induction r as [cs children idx path id IH] using RouteObject_nested_ind.
  intros index branches parentsMeta parentPath.
  cbn [flattenRoute well_formed route_path route_children route_index
       route_caseSensitive].
  set (rel := default [] path).
  destruct (startsWith rel (str "/")) eqn:Habs; cbn [negb orb].
  - destruct (startsWith rel parentPath) eqn:Hpre; cbn [invariant mbind result_bind andb].
    + unfold accumulated_path. cbn [route_path]. fold rel. rewrite Habs.
      set (full := joinPaths [parentPath; slice rel (len parentPath) None]).
      destruct children as [|c l].
      * destruct idx; simpl; destruct (bool_decide _); reflexivity.
      * destruct idx; cbn [negb andb invariant mbind result_bind].
        -- split; [reflexivity|]. eexists. split; [reflexivity|]. right. eauto.
        -- pose proof (forEach_flatten_outcome (c :: l)
                         (parentsMeta ++ [mkRouteMeta (slice rel (len parentPath) None) cs index
                            (mkRoute cs (c :: l) false path id)]) full IH 0%nat branches) as Hc.
           cbn [route_children] in *.
           destruct (forEach _ (c :: l) 0%nat branches) as [bs|e]; cbn [flatten_outcome] in *.
           ++ rewrite Hc. destruct (bool_decide _ && _); reflexivity.
           ++ exact Hc.
    + split; [reflexivity|]. eexists. split; [reflexivity|]. left. eauto.
  - cbn [mbind result_bind andb].
    unfold accumulated_path. cbn [route_path]. fold rel. rewrite Habs.
    set (full := joinPaths [parentPath; rel]).
    destruct children as [|c l].
    + destruct idx; simpl; destruct (bool_decide _); reflexivity.
    + destruct idx; cbn [negb andb invariant mbind result_bind].
      * split; [reflexivity|]. eexists. split; [reflexivity|]. right. eauto.
      * pose proof (forEach_flatten_outcome (c :: l)
                       (parentsMeta ++ [mkRouteMeta rel cs index
                          (mkRoute cs (c :: l) false path id)]) full IH 0%nat branches) as Hc.
        cbn [route_children] in *.
        destruct (forEach _ (c :: l) 0%nat branches) as [bs|e]; cbn [flatten_outcome] in *.
        -- rewrite Hc. destruct (bool_decide _ && _); reflexivity.
        -- exact Hc.
Qed.

Lemma flattenRoutes_outcome routes :
  flatten_outcome (flattenRoutes routes [] [] [])
    (forallb (well_formed []) routes).
Proof.
  unfold flattenRoutes. apply forEach_flatten_outcome.
  apply Forall_forall. intros r _. apply flattenRoute_outcome.
Qed.

(** ** The stable sort *)

Section insertion_sort.
Context {A : Type}.
Implicit Types (cmp : A -> A -> Z) (x : A) (l : list A).

Lemma insert_perm cmp x l : insert cmp x l ≡ₚ x :: l.
Proof.
  induction l as [|y l IH]; simpl; [reflexivity|].
  destruct (cmp x y <=? 0); [reflexivity|].
  rewrite IH. apply Permutation_swap.
Qed.

Lemma sort_perm cmp l : sort cmp l ≡ₚ l.
Proof.
  induction l as [|x l IH]; simpl; [reflexivity|].
  rewrite insert_perm, IH. reflexivity.
Qed.





Context (key : A -> Z).



Lemma insert_sorted x l :
  StronglySorted (fun a b => key b <= key a) l ->
  StronglySorted (fun a b => key b <= key a) (insert (by_key key) x l).
Proof.
  induction 1 as [|y l Hl IH Hy]; simpl.
  - repeat constructor.
  - unfold by_key at 1. destruct (Z.leb_spec (key y - key x) 0).
    + constructor; [constructor; assumption|].
      constructor; [lia|]. eapply Forall_impl; [exact Hy|].
      simpl. intros; lia.
    + constructor; [exact IH|].
      rewrite insert_perm. constructor; [lia | exact Hy].
Qed.

Lemma sort_sorted l :
  StronglySorted (fun a b => key b <= key a) (sort (by_key key) l).
Proof.
  induction l as [|x l IH]; simpl; [constructor | apply insert_sorted, IH].
Qed.




End insertion_sort.

(** ** The ranking *)

Lemma every_true {A} (f : A -> nat -> bool) (l : list A) i0 :
  every f l i0 = true ->
  forall j x, l !! j = Some x -> f x (i0 + j)%nat = true.
Proof.
  revert i0. induction l as [|y l IH]; intros i0 H j x Hj; simpl in *.
  - rewrite lookup_nil in Hj. discriminate.
  - apply andb_true_iff in H as [Hy Hl]. destruct j as [|j]; simpl in Hj.
    + injection Hj as ->. rewrite Nat.add_0_r. exact Hy.
    + rewrite <- Nat.add_succ_comm. apply IH; assumption.
Qed.

Lemma slice_but_last {A} (a : list A) :
  slice a 0 (Some (-1)) = take (length a - 1) a.
Proof.
  unfold slice, rel_index. cbn [Z.ltb Z.compare].
  replace (Z.to_nat (Z.min 0 (Z.of_nat (length a)))) with O by lia.
  rewrite drop_0. f_equal. lia.
Qed.

Lemma every_intro {A} (f : A -> nat -> bool) (l : list A) i0 :
  (forall j x, l !! j = Some x -> f x (i0 + j)%nat = true) ->
  every f l i0 = true.
Proof.
  revert i0. induction l as [|y l IH]; intros i0 H; [reflexivity|].
  cbn [every]. apply andb_true_iff. split.
  - rewrite <- (Nat.add_0_r i0). apply H. reflexivity.
  - apply IH. intros j x Hj. rewrite Nat.add_succ_comm. apply H. exact Hj.
Qed.

(** The test of [compareIndexes] is that of siblings. *)
Lemma siblings_test (a b : list Z) :
  bool_decide (length a = length b)
  && every (fun n i => bool_decide (b !! i = Some n))
       (slice a 0 (Some (-1))) 0 = true
  <-> siblings a b.
Proof.
  rewrite slice_but_last, andb_true_iff, bool_decide_eq_true. split.
  - intros [Hlen Hall]. split; [exact Hlen|]. intros i Hi.
    destruct (a !! i) as [x|] eqn:Hx.
    + pose proof (every_true _ _ _ Hall i x) as Hf. simpl in Hf.
      rewrite lookup_take_lt in Hf by lia.
      specialize (Hf Hx). apply bool_decide_eq_true in Hf. congruence.
    + apply lookup_ge_None in Hx. lia.
  - intros [Hlen Hagree]. split; [exact Hlen|].
    apply every_intro. intros j x Hj. cbn [Nat.add].
    apply bool_decide_eq_true.
    pose proof (lookup_lt_Some _ _ _ Hj) as Hlt. rewrite length_take in Hlt.
    rewrite lookup_take_lt in Hj by lia.
    rewrite <- Hagree by lia. exact Hj.
Qed.


Lemma compareIndexes_not_siblings (a b : list Z) :
  ~ siblings a b -> compareIndexes a b = 0.
Proof.
  intros Hs. unfold compareIndexes.
  destruct (bool_decide (length a = length b) && _) eqn:E; [|reflexivity].
  apply siblings_test in E. contradiction.
Qed.


















(** ** The matcher only moves forward *)

Lemma extends_refl x : extends x x.
Proof. exists []. split; reflexivity. Qed.

Lemma extends_trans x y z : extends x y -> extends y z -> extends x z.
Proof.
  intros (c1 & Ha1 & Hb1) (c2 & Ha2 & Hb2). exists (c1 ++ c2).
  rewrite Ha1, Ha2, Hb2, Hb1, rev_app_distr, !app_assoc. split; reflexivity.
Qed.

Lemma extends_caps x y cs :
  extends x y -> extends x (MState (before y) (after y) cs).
Proof. intros (c & Ha & Hb). exists c. split; assumption. Qed.

Lemma quant_extends p mn mx bef aft cs k z :
  quant p mn mx bef aft cs k = Some z ->
  exists y, extends (MState bef aft cs) y /\ caps y = cs /\ k y = Some z.
Proof.
  revert mn mx bef. induction aft as [|c aft IH]; intros mn mx bef H.
  - assert (Hs : match mn with O => k (MState bef [] cs) | S _ => None end = Some z).
    { simpl in H. destruct mx as [[|?]|]; exact H. }
    destruct mn; [|discriminate]. eexists. split; [apply extends_refl|]. auto.
  - assert (Hstop : match mn with O => k (MState bef (c :: aft) cs) | S _ => None end = Some z ->
                    exists y, extends (MState bef (c :: aft) cs) y /\ caps y = cs /\ k y = Some z).
    { intros Hs. destruct mn; [|discriminate].
      eexists. split; [apply extends_refl|]. auto. }
    simpl in H.
    assert (Hgo : match (if p c then
                     match quant p (Nat.pred mn) (Nat.pred <$> mx) (c :: bef) aft cs k with
                     | Some z => Some z
                     | None => match mn with O => k (MState bef (c :: aft) cs) | S _ => None end
                     end
                   else match mn with O => k (MState bef (c :: aft) cs) | S _ => None end)
                 with Some z' => z' = z | None => False end \/
                 match mn with O => k (MState bef (c :: aft) cs) | S _ => None end = Some z).
    { destruct mx as [[|?]|]; [right; exact H | left; rewrite H; reflexivity
                              | left; rewrite H; reflexivity]. }
    destruct Hgo as [Hgo|Hs]; [|exact (Hstop Hs)].
    destruct (p c).
    + destruct (quant p (Nat.pred mn) (Nat.pred <$> mx) (c :: bef) aft cs k) as [z'|] eqn:E.
      * subst z'. apply IH in E as (y & (cons & Ha & Hb) & Hc & Hk).
        exists y. split; [|auto]. exists (c :: cons). simpl in *.
        rewrite Ha, Hb, <- app_assoc. split; reflexivity.
      * apply Hstop. destruct mn; [|contradiction].
        destruct (k _); [congruence | contradiction].
    + apply Hstop. destruct mn; [|contradiction].
      destruct (k _); [congruence | contradiction].
Qed.

Lemma m_extends icase r :
  forall x k z,
    m icase r x k = Some z -> exists y, extends x y /\ k y = Some z.
Proof.
  induction r as [|neg items|mn mx neg items|r1 IH1 r2 IH2|r1 IH1 r2 IH2
                  |i r IH| | | |r IH]; intros x k z H; simpl in H.
  - exists x. split; [apply extends_refl | exact H].
  - destruct x as [bef [|c aft] cs]; simpl in H; [discriminate|].
    destruct (set_mem icase neg items c); [|discriminate].
    eexists. split; [|exact H]. exists [c]. split; reflexivity.
  - destruct x as [bef aft cs]. simpl in H.
    apply quant_extends in H as (y & He & _ & Hk). eauto.
  - apply IH1 in H as (y1 & He1 & H). apply IH2 in H as (y2 & He2 & H).
    exists y2. split; [eapply extends_trans; eauto | exact H].
  - destruct (m icase r1 x k) as [z'|] eqn:E.
    + injection H as ->. apply IH1, E.
    + apply IH2, H.
  - apply IH in H as (y & He & H).
    eexists. split; [|exact H]. apply extends_caps, He.
  - destruct (before x) eqn:E; [|discriminate].
    exists x. split; [apply extends_refl | exact H].
  - destruct (after x) eqn:E; [|discriminate].
    exists x. split; [apply extends_refl | exact H].
  - destruct (xorb _ _); [|discriminate].
    exists x. split; [apply extends_refl | exact H].
  - destruct (m icase r x Some) as [y|]; [|discriminate].
    eexists. split; [|exact H]. apply extends_caps, extends_refl.
Qed.

Lemma match_at_extends re bef aft y :
  match_at re bef aft = Some y ->
  exists consumed, aft = consumed ++ after y /\ before y = rev consumed ++ bef.
Proof.
  unfold match_at. intros H.
  apply m_extends in H as (y' & (c & Ha & Hb) & [= ->]). eauto.
Qed.

Lemma take_consumed {A} (aft cons rest : list A) :
  aft = cons ++ rest -> take (length aft - length rest) aft = cons.
Proof.
  intros ->. rewrite length_app.
  replace (length cons + length rest - length rest)%nat with (length cons) by lia.
  apply take_app_length.
Qed.

(** What a search finds: the input is the text that is skipped, the text
    that is matched and the rest, and the expression matches where the
    skipped text ends and nowhere before. *)
Lemma search_from_spec re aft : forall bef r,
  search_from re bef aft = Some r ->
  exists skipped y,
    aft = skipped ++ m_0 r ++ m_post r
    /\ m_pre r = rev bef ++ skipped
    /\ match_at re (rev skipped ++ bef) (m_0 r ++ m_post r) = Some y
    /\ after y = m_post r /\ caps y = m_groups r
    /\ forall i, (i < length skipped)%nat ->
         match_at re (rev (take i skipped) ++ bef) (drop i aft) = None.
Proof.
  induction aft as [|c aft IH]; intros bef r H; simpl in H.
  - destruct (match_at re bef []) as [y|] eqn:E; [|discriminate].
    injection H as <-. destruct (match_at_extends _ _ _ _ E) as (cons & Ha & Hb).
    symmetry in Ha. apply app_eq_nil in Ha as [-> Ha].
    exists [], y. cbn [m_0 m_post m_pre m_groups]. rewrite Ha. simpl.
    rewrite app_nil_r. repeat split; auto. intros i Hi; simpl in Hi; lia.
  - destruct (match_at re bef (c :: aft)) as [y|] eqn:E.
    + injection H as <-. destruct (match_at_extends _ _ _ _ E) as (cons & Ha & Hb).
      pose proof (take_consumed _ _ _ Ha) as Ht. cbn [length] in Ht.
      exists [], y. unfold m_0, m_post, m_pre, m_groups.
      rewrite Ht, <- Ha, app_nil_r. simpl. repeat split; auto.
      intros i Hi; simpl in Hi; lia.
    + apply IH in H as (skipped & y & Ha & Hp & Hm & Hy & Hc & Hno).
      exists (c :: skipped), y. simpl. rewrite <- Ha.
      rewrite Hp. simpl. rewrite <- !app_assoc. simpl.
      repeat split; auto.
      intros [|i] Hi; simpl; [exact E|].
      rewrite <- app_assoc. simpl. apply Hno. simpl in Hi. lia.
Qed.

(** ** Replacement *)

Lemma search_from_here re bef aft y :
  match_at re bef aft = Some y ->
  search_from re bef aft
  = Some (mkMatch (rev bef) (take (length aft - length (after y)) aft)
            (after y) (caps y)).
Proof. intros H. destruct aft; simpl; rewrite H; reflexivity. Qed.

Lemma search_from_next re bef c aft :
  match_at re bef (c :: aft) = None ->
  search_from re bef (c :: aft) = search_from re (c :: bef) aft.
Proof. intros H. simpl. rewrite H. reflexivity. Qed.

Lemma search_from_none re aft : forall bef,
  search_from re bef aft = None ->
  forall i, (i <= length aft)%nat ->
    match_at re (rev (take i aft) ++ bef) (drop i aft) = None.
Proof.
  induction aft as [|c aft IH]; intros bef H i Hi; simpl in H.
  - destruct (match_at re bef []) eqn:E; [discriminate|].
    destruct i; [exact E | simpl in Hi; lia].
  - destruct (match_at re bef (c :: aft)) eqn:E; [discriminate|].
    destruct i as [|i]; [exact E|]. simpl. rewrite <- app_assoc.
    apply IH; [exact H | simpl in Hi; lia].
Qed.

(** Where the expression does not match, the code unit is copied and the
    replacement goes on after it. *)
Lemma replace_loop_skip {S} fuel re (f : S -> match_result -> S * jsstring)
    st bef c aft :
  match_at re bef (c :: aft) = None ->
  replace_loop (Datatypes.S fuel) re f st bef (c :: aft)
  = let '(st', out) := replace_loop (Datatypes.S fuel) re f st (c :: bef) aft in
    (st', c :: out).
Proof.
  intros Hno. cbn [replace_loop]. rewrite (search_from_next _ _ _ _ Hno).
  destruct (search_from re (c :: bef) aft) as [r|] eqn:E; [|reflexivity].
  destruct (search_from_spec _ _ _ _ E) as (sk & y & _ & Hpre & _).
  assert (H1 : drop (length bef) (m_pre r) = c :: sk).
  { rewrite Hpre. simpl. rewrite <- app_assoc.
    rewrite drop_app_length'; [reflexivity | symmetry; apply length_rev]. }
  assert (H2 : drop (length (c :: bef)) (m_pre r) = sk).
  { rewrite Hpre. rewrite drop_app_length'; [reflexivity|].
    symmetry. apply length_rev. }
  rewrite H1, H2. destruct (f st r) as [st1 rep].
  destruct (re_global re); [|reflexivity].
  destruct (m_0 r) as [|d m0]; [destruct (m_post r) as [|e post]|].
  - reflexivity.
  - destruct (replace_loop fuel re f st1 _ post). reflexivity.
  - destruct (replace_loop fuel re f st1 _ (m_post r)). reflexivity.
Qed.

(** Where a global expression matches some text that is not empty, the
    text is replaced and the replacement goes on after it. *)
Lemma replace_loop_here {S} fuel re (f : S -> match_result -> S * jsstring)
    st bef aft y d consumed :
  re_global re = true ->
  match_at re bef aft = Some y ->
  aft = (d :: consumed) ++ after y ->
  replace_loop (Datatypes.S fuel) re f st bef aft
  = let r := mkMatch (rev bef) (d :: consumed) (after y) (caps y) in
    let '(st1, rep) := f st r in
    let '(st2, out) :=
      replace_loop fuel re f st1 (rev (d :: consumed) ++ rev (rev bef)) (after y) in
    (st2, rep ++ out).
Proof.
  intros Hg Hm Ha. cbn [replace_loop]. rewrite (search_from_here _ _ _ _ Hm).
  rewrite (take_consumed _ _ _ Ha). cbn [m_0 m_pre m_post].
  rewrite drop_ge by (rewrite length_rev; lia). rewrite Hg.
  destruct (f st _) as [st1 rep].
  destruct (replace_loop fuel re f st1 _ (after y)). reflexivity.
Qed.

Lemma replace_loop_nil {S} fuel re (f : S -> match_result -> S * jsstring)
    st bef :
  match_at re bef [] = None ->
  replace_loop fuel re f st bef [] = (st, []).
Proof.
  intros H. destruct fuel; [reflexivity|]. simpl. rewrite H. reflexivity.
Qed.

(** ** The tokens of a pattern *)

(** Where [/:(\w+)/] matches: at a colon with a word character after it,
    the name being the longest run of word characters. *)
Lemma param_match_at bef aft :
  match_at re_param bef aft =
  match aft with
  | c :: aft' =>
      if (c =? ch ":")%N && (1 <=? run is_word aft')%nat
      then Some (MState (rev (take (run is_word aft') aft') ++ c :: bef)
                   (drop (run is_word aft') aft')
                   [Some (take (run is_word aft') aft')])
      else None
  | [] => None
  end.
Proof.
  unfold match_at, re_param.
  cbn [m re_ast re_ignoreCase re_groups before after caps replicate].
  destruct aft as [|c aft']; [reflexivity|].
  rewrite set_mem_char. cbn [canon]. rewrite N.eqb_sym. change 58%N with (ch ":").
  destruct (c =? ch ":")%N; [|reflexivity]. cbn [andb].
  pose proof (run_ext (set_mem false false [CiWord]) is_word aft' set_mem_word) as Hr.
  destruct (Nat.leb_spec 1 (run is_word aft')) as [Hle|Hlt].
  - erewrite quant_max; [reflexivity | rewrite Hr; exact Hle|].
    rewrite Hr. cbn [before after caps]. unfold captured. cbn [after].
    rewrite length_drop.
    replace (length aft' - (length aft' - run is_word aft'))%nat
      with (run is_word aft') by (pose proof (run_le is_word aft'); lia).
    reflexivity.
  - apply quant_none. intros j Hj. rewrite Hr in Hj. lia.
Qed.

Lemma pieces_skip s : forall k,
  (k <= length s)%nat -> pieces s k = pieces (drop k s) O.
Proof.
  induction s as [|c s IH]; intros k Hk.
  - destruct k; [reflexivity | simpl in Hk; lia].
  - destruct k as [|k]; [reflexivity|]. simpl. apply IH. simpl in Hk. lia.
Qed.

(** The global replacement of [/:(\w+)/] by a callback that reads the
    name goes over the pieces of the text. *)
Lemma replace_param_loop {S} (g : S -> jsstring -> S * jsstring) n :
  forall aft fuel bef st,
    (length aft <= n)%nat -> (length aft < fuel)%nat ->
    replace_loop fuel re_param (fun st r => g st (group_text r 1)) st bef aft
    = fold_pieces g st (pieces aft O).
Proof.
  induction n as [|n IH]; intros aft fuel bef st Hn Hfuel.
  - destruct aft; [|simpl in Hn; lia].
    apply replace_loop_nil. rewrite param_match_at. reflexivity.
  - destruct aft as [|c aft'].
    { apply replace_loop_nil. rewrite param_match_at. reflexivity. }
    destruct fuel as [|fuel]; [lia|]. simpl in Hn, Hfuel.
    pose proof (param_match_at bef (c :: aft')) as Hm. cbn [pieces].
    pose proof (run_le is_word aft') as Hrun.
    cbv beta iota in Hm. revert Hm.
    destruct ((c =? ch ":")%N && (1 <=? run is_word aft')%nat); intros Hm.
    + rewrite (replace_loop_here fuel re_param _ st bef (c :: aft') _ c
                 (take (run is_word aft') aft') eq_refl Hm).
      2: { cbn [after]. simpl. rewrite take_drop. reflexivity. }
      cbn [after caps fold_pieces]. unfold group_text. cbn [m_groups Nat.pred lookup].
      simpl (default _ _).
      destruct (g st _) as [st1 rep].
      rewrite IH by (rewrite length_drop; lia).
      rewrite (pieces_skip aft' (run is_word aft')) by lia. reflexivity.
    + rewrite replace_loop_skip by exact Hm.
      rewrite IH by lia. reflexivity.
Qed.

Lemma replace_param_pieces {S} (g : S -> jsstring -> S * jsstring) st s :
  replace_with re_param (fun st r => g st (group_text r 1)) st s
  = fold_pieces g st (pieces s O).
Proof. unfold replace_with. eapply replace_param_loop; [reflexivity | lia]. Qed.

(** ** [generatePath] *)

Lemma replace_fn_first re f s :
  re_global re = false ->
  replace_fn re f s =
  match search_from re [] s with
  | None => s
  | Some r => m_pre r ++ f r ++ m_post r
  end.
Proof.
  intros Hg. unfold replace_fn, replace_with. cbn [replace_loop].
  destruct (search_from re [] s) as [r|]; [|reflexivity].
  rewrite Hg. reflexivity.
Qed.

Lemma run_drop_head p s j :
  (j < run p s)%nat -> exists c rest, drop j s = c :: rest /\ p c = true.
Proof.
  revert j. induction s as [|c s IH]; intros j Hj; simpl in Hj; [lia|].
  destruct (p c) eqn:Hp; [|lia].
  destruct j as [|j]; [exists c, s; auto|]. simpl. apply IH. lia.
Qed.

Lemma run_take p s : forallb p (take (run p s) s) = true.
Proof.
  induction s as [|c s IH]; simpl; [reflexivity|].
  destruct (p c) eqn:Hp; simpl; [rewrite Hp; exact IH | reflexivity].
Qed.

Lemma run_app_all p s t :
  forallb p s = true -> run p (s ++ t) = (length s + run p t)%nat.
Proof.
  induction s as [|c s IH]; simpl; [reflexivity|].
  intros H. apply andb_true_iff in H as [-> H]. rewrite IH by exact H. reflexivity.
Qed.

Lemma set_mem_slash c : set_mem false false [CiChar 47%N] c = is_slash c.
Proof. rewrite set_mem_char. cbn [canon]. unfold is_slash. apply N.eqb_sym. Qed.

(** Where [/^\/*/] matches: at the start, over the slashes there. *)
Lemma leading_slashes_first s :
  search_from re_leading_slashes [] s
  = Some (mkMatch [] (take (run is_slash s) s) (drop (run is_slash s) s) []).
Proof.
  assert (Hm : match_at re_leading_slashes [] s
               = Some (MState (rev (take (run is_slash s) s))
                         (drop (run is_slash s) s) [])).
  { unfold match_at, re_leading_slashes.
    cbn [m re_ast re_ignoreCase re_groups before after caps replicate].
    pose proof (run_ext _ is_slash s set_mem_slash) as Hr.
    erewrite quant_max; [reflexivity | lia |].
    rewrite Hr, app_nil_r. reflexivity. }
  rewrite (search_from_here _ _ _ _ Hm). cbn [after caps rev].
  rewrite (take_consumed s (take (run is_slash s) s)); [reflexivity|].
  symmetry. apply take_drop.
Qed.

Lemma replace_leading_slashes s :
  replace re_leading_slashes (str "/") s = str "/" ++ strip_leading_slashes s.
Proof.
  unfold replace. rewrite replace_fn_first by reflexivity.
  rewrite leading_slashes_first. reflexivity.
Qed.

Lemma endsWith_char s c :
  endsWith s [c] = true <-> exists s', s = s' ++ [c].
Proof.
  unfold endsWith. simpl. split.
  - destruct (rev s) as [|d t] eqn:E; [discriminate|]. intros H.
    apply andb_true_iff in H as [H _]. apply N.eqb_eq in H. subst d.
    exists (rev t). rewrite <- (rev_involutive s), E. reflexivity.
  - intros [s' ->]. rewrite rev_app_distr. simpl. rewrite N.eqb_refl.
    destruct (rev s'); reflexivity.
Qed.

(** Where [/\/*\*$/] matches: where nothing but slashes and a final
    asterisk is left. *)
Lemma splat_match_at bef aft :
  match_at re_splat bef aft =
  if bool_decide (drop (run is_slash aft) aft = [ch "*"])
  then Some (MState (rev aft ++ bef) [] [])
  else None.
Proof.
  unfold match_at, re_splat.
  cbn [m re_ast re_ignoreCase re_groups before after caps replicate].
  pose proof (run_ext _ is_slash aft set_mem_slash) as Hr.
  assert (Hstar : forall c, set_mem false false [CiChar 42%N] c = (c =? ch "*")%N).
  { intros c. rewrite set_mem_char. apply N.eqb_sym. }
  case_bool_decide as Hd.
  - erewrite quant_max; [reflexivity | lia |].
    rewrite Hr, Hd. cbn [after before caps]. rewrite Hstar, N.eqb_refl.
    rewrite <- (take_drop (run is_slash aft) aft) at 3. rewrite Hd.
    rewrite rev_app_distr. reflexivity.
  - apply quant_none. intros j [_ Hj]. rewrite Hr in Hj. cbn [after before caps].
    destruct (drop j aft) as [|c rest] eqn:E; [reflexivity|].
    rewrite Hstar. destruct (N.eqb_spec c (ch "*")) as [->|]; [|reflexivity].
    destruct rest; [|reflexivity]. exfalso.
    destruct (decide (j = run is_slash aft)) as [->|Hne]; [contradiction|].
    destruct (run_drop_head is_slash aft j) as (c & rest & Hc & Hp); [lia|].
    rewrite E in Hc. injection Hc as <- _. discriminate.
Qed.

Lemma strip_trailing_slashes_app t sl :
  forallb is_slash sl = true ->
  (forall t', t <> t' ++ [ch "/"]) ->
  strip_trailing_slashes (t ++ sl) = t.
Proof.
  intros Hsl Ht. unfold strip_trailing_slashes, strip_leading_slashes.
  rewrite rev_app_distr, run_app_all.
  2: { rewrite forallb_forall in *. intros c Hc. apply Hsl.
       apply in_rev. exact Hc. }
  assert (Hr : run is_slash (rev t) = O).
  { destruct (rev t) as [|c u] eqn:E; [reflexivity|]. simpl.
    destruct (is_slash c) eqn:Hc; [|reflexivity]. exfalso.
    apply N.eqb_eq in Hc. subst c. apply (Ht (rev u)).
    rewrite <- (rev_involutive t), E. reflexivity. }
  rewrite Hr, Nat.add_0_r, drop_app_length. apply rev_involutive.
Qed.

(** The replacement of a trailing splat. *)
Lemma replace_splat (v s : jsstring) :
  replace_fn re_splat (fun _ => v) s
  = if endsWith s (str "*")
    then strip_trailing_slashes (removelast s) ++ v
    else s.
Proof.
  rewrite replace_fn_first by reflexivity.
  destruct (search_from re_splat [] s) as [r|] eqn:E.
  - destruct (search_from_spec _ _ _ _ E)
      as (skipped & y & Hs & Hpre & Hm & Hy & _ & Hno).
    rewrite splat_match_at in Hm. case_bool_decide as Hd; [|discriminate].
    injection Hm as <-. cbn [after] in Hy. rewrite <- Hy, app_nil_r in *.
    simpl in Hpre. subst skipped.
    assert (H0 : m_0 r = take (run is_slash (m_0 r)) (m_0 r) ++ [ch "*"]).
    { rewrite <- Hd. symmetry. apply take_drop. }
    set (sl := take (run is_slash (m_0 r)) (m_0 r)) in *.
    assert (Hsl : forallb is_slash sl = true) by apply run_take.
    assert (Hends : endsWith s (str "*") = true).
    { apply endsWith_char. exists (m_pre r ++ sl). rewrite Hs, H0, app_assoc. reflexivity. }
    rewrite Hends. rewrite Hs, H0 at 1. rewrite app_assoc, removelast_last.
    rewrite strip_trailing_slashes_app; [reflexivity | exact Hsl|].
    intros t' Ht'.
    specialize (Hno (length t')). rewrite Ht', length_app in Hno. simpl in Hno.
    rewrite take_app_length in Hno. rewrite Hs, Ht', <- !app_assoc in Hno.
    rewrite drop_app_length in Hno. rewrite splat_match_at, app_nil_r in Hno.
    rewrite bool_decide_eq_true_2 in Hno; [discriminate Hno; lia|].
    simpl. change (is_slash (ch "/")) with true. cbv iota. simpl. exact Hd.
  - destruct (endsWith s (str "*")) eqn:Hends; [|reflexivity]. exfalso.
    apply endsWith_char in Hends as [s' ->].
    pose proof (search_from_none _ _ _ E (length s')) as Hno.
    rewrite take_app_length, drop_app_length, splat_match_at in Hno.
    rewrite length_app in Hno. rewrite bool_decide_eq_true_2 in Hno by reflexivity.
    discriminate Hno. lia.
Qed.

Lemma value_or_throw_thrown params e key :
  value_or_throw params (Some e) key
  = (Some e, from_option property_text [] (get_property params key)).
Proof. reflexivity. Qed.

Lemma value_or_throw_value params key v :
  get_property params key = Some v ->
  value_or_throw params None key = (None, property_text v).
Proof. intros H. unfold value_or_throw. rewrite H. reflexivity. Qed.

Lemma value_or_throw_missing params key :
  get_property params key = None ->
  value_or_throw params None key
  = (Some (Error (missing_param_message key)), []).
Proof. intros H. unfold value_or_throw. rewrite H. reflexivity. Qed.

Lemma fold_thrown params e ps :
  (fold_pieces (value_or_throw params) (Some e) ps).1 = Some e.
Proof.
  induction ps as [|[c|name] ps IH]; cbn [fold_pieces]; [reflexivity| |].
  - destruct (fold_pieces _ _ ps). exact IH.
  - rewrite value_or_throw_thrown. destruct (fold_pieces _ _ ps). exact IH.
Qed.

Lemma fold_substitute params ps :
  match substitute params ps with
  | Ok s => fold_pieces (value_or_throw params) None ps = (None, s)
  | Throw e => (fold_pieces (value_or_throw params) None ps).1 = Some e
  end.
Proof.
  induction ps as [|[c|name] ps IH];
    cbn [fold_pieces substitute mbind result_bind]; [reflexivity| |].
  - destruct (substitute params ps) as [s|e]; cbn [mbind result_bind].
    + rewrite IH. reflexivity.
    + destruct (fold_pieces _ None ps). exact IH.
  - destruct (get_property params name) as [v|] eqn:Hv.
    + rewrite (value_or_throw_value _ _ _ Hv).
      destruct (substitute params ps) as [s|e]; cbn [mbind result_bind].
      * rewrite IH. reflexivity.
      * destruct (fold_pieces _ None ps). exact IH.
    + rewrite (value_or_throw_missing _ _ Hv).
      pose proof (fold_thrown params (Error (missing_param_message name)) ps) as H.
      destruct (fold_pieces _ (Some _) ps). exact H.
Qed.

(** The two replacements of [generatePath], one after the other: the
    tokens of the path are replaced, and then the trailing splat of the
    text so obtained is filled. *)
Lemma generatePath_by_pieces path params :
  generatePath path params
  = (s ← substitute params (pieces path O); Ok (fill_splat params s)).
Proof.
  unfold generatePath.
  change (replace_with re_param _ None path)
    with (replace_with re_param
            (fun st r => value_or_throw params st (group_text r 1)) None path).
  rewrite replace_param_pieces.
  pose proof (fold_substitute params (pieces path O)) as H.
  destruct (substitute params (pieces path O)) as [s|e]; cbn [mbind result_bind].
  - rewrite H. f_equal. unfold fill_splat.
    destruct (params !! str "*") as [v|].
    + rewrite replace_splat, replace_leading_slashes. reflexivity.
    + rewrite replace_splat, app_nil_r. reflexivity.
  - destruct (fold_pieces _ None _) as [thrown out]. simpl in H. subst thrown.
    reflexivity.
Qed.

(** C7: [generatePath] at the inputs where it leaves the claim.  The
    second replacement runs over the text with the values in it, so the
    [*] that ends the value of [a] is taken for a splat and removed; and
    the name [constructor], of which [{}] has no value of its own, reads
    as the function that every object inherits, so nothing is thrown and
    the text of that function is written into the path.  The two
    examples of the claim are as the claim has them. *)
Theorem generatePath_misses :
  generatePath (str "/:a") {[ str "a" := str "x*" ]} = Ok (str "/x")
  /\ generatePath (str "/:constructor") ∅
     = Ok (str "/function Object() { [native code] }")
  /\ generatePath (str ":id/detail") {[ str "id" := str "42" ]}
     = Ok (str "42/detail")
  /\ generatePath (str "files/*") {[ str "*" := str "a/b.txt" ]}
     = Ok (str "files/a/b.txt").
Proof. repeat split; vm_compute; reflexivity. Qed.

(** ** [matchPath] *)

Lemma fold_pieces_names (rep : jsstring) ps : forall names,
  (fold_pieces (fun names name => (names ++ [name], rep)) names ps).1
  = names ++ token_names ps.
Proof.
  induction ps as [|[c|name] ps IH]; intros names; cbn [fold_pieces token_names].
  - rewrite app_nil_r. reflexivity.
  - specialize (IH names). destruct (fold_pieces _ names ps). exact IH.
  - specialize (IH (names ++ [name])). destruct (fold_pieces _ _ ps).
    simpl in *. rewrite IH, <- app_assoc. reflexivity.
Qed.

Lemma token_names_word s : forall k name,
  name ∈ token_names (pieces s k) -> exists c rest, name = c :: rest /\ is_word c = true.
Proof.
  induction s as [|c s IH]; intros k name H; cbn [pieces] in H.
  - inversion H.
  - destruct k as [|k]; [|eapply IH, H].
    destruct ((c =? ch ":")%N && (1 <=? run is_word s)%nat) eqn:E.
    + cbn [token_names] in H. apply elem_of_cons in H as [->|H]; [|eapply IH, H].
      apply andb_true_iff in E as [_ E]. apply Nat.leb_le in E.
      destruct s as [|d s]; simpl in E; [lia|].
      destruct (is_word d) eqn:Hd; [|lia]. simpl. rewrite Hd. eauto.
    + cbn [token_names] in H. eapply IH, H.
Qed.

Lemma token_names_not_splat s name :
  name ∈ token_names (pieces s O) -> name <> str "*".
Proof.
  intros H ->. apply token_names_word in H as (c & rest & [= <- _] & Hc).
  discriminate.
Qed.

(** The names that [compilePath] gives: those of the tokens, and [*]
    last for a path that ends in [*]. *)
Lemma compilePath_names path cs e matcher names :
  compilePath path cs e = Ok (matcher, names) ->
  exists tokens,
    (forall name, name ∈ tokens -> name <> str "*")
    /\ names = if endsWith path (str "*") then tokens ++ [str "*"] else tokens.
Proof.
  unfold compilePath.
  change (replace_with re_param _ [] ?s)
    with (replace_with re_param
            (fun names r => (fun names name => (names ++ [name], str "([^\/]+)"))
                              names (group_text r 1)) [] s).
  rewrite replace_param_pieces.
  match goal with |- context [fold_pieces ?g [] (pieces ?s O)] =>
    pose proof (fold_pieces_names (str "([^\/]+)") (pieces s O) []) as Hn;
    pose proof (token_names_not_splat s) as Hs;
    destruct (fold_pieces g [] (pieces s O)) as [names0 source]
  end.
  simpl in Hn. subst names0. intros H. eexists. split; [exact Hs|].
  destruct (endsWith path (str "*")).
  - destruct (new_RegExp _ _ _); [|discriminate]. injection H as _ <-. reflexivity.
  - destruct (new_RegExp _ _ _); [|discriminate]. injection H as _ <-. reflexivity.
Qed.

Lemma matchPath_reduce_tokens m0 groups tokens :
  (forall name, name ∈ tokens -> name <> str "*") ->
  forall index memo base,
    exists memo',
      matchPath_reduce m0 groups tokens index memo base = (memo', base)
      /\ forall rest base',
           matchPath_reduce m0 groups (tokens ++ rest) index memo base'
           = matchPath_reduce m0 groups rest (index + length tokens) memo' base'.
Proof.
  induction tokens as [|name tokens IH]; intros Hne index memo base.
  - exists memo. split; [reflexivity|]. intros rest base'.
    rewrite Nat.add_0_r. reflexivity.
  - assert (Hname : streq name (str "*") = false).
    { apply streq_false. apply Hne. left. }
    destruct (IH (fun n Hn => Hne n (proj2 (elem_of_cons _ _ _) (or_intror Hn))) (S index)
                (set_property name
                   (safelyDecodeURIComponent (group_or_empty groups index) name)
                   memo)
                base) as (memo' & Hrun & Hrest).
    exists memo'. cbn [matchPath_reduce]. rewrite Hname. split; [exact Hrun|].
    intros rest base'. cbn [app matchPath_reduce]. rewrite Hname, Hrest.
    cbn [length]. rewrite Nat.add_succ_r. reflexivity.
Qed.

(** C4: a match gives the matched span for pathname; the base is the
    span with the slashes that end it collapsed, and, for a pattern that
    ends in a splat, the span shortened by the length of the raw text
    that the splat captured, then collapsed, while [params["*"]] is that
    text decoded. *)
Theorem matchPath_pathname_and_base :
  forall pattern pathname pm,
    matchPath pattern pathname = Ok (Some pm) ->
    exists matcher names r,
      compilePath (pattern_path (pattern_of pattern))
        (pattern_caseSensitive (pattern_of pattern))
        (pattern_end (pattern_of pattern)) = Ok (matcher, names)
      /\ exec matcher pathname = Some r
      /\ pathname = m_pre r ++ m_0 r ++ m_post r
      /\ pm_pathname pm = m_0 r
      /\ if endsWith (pattern_path (pattern_of pattern)) (str "*")
         then pm_pathnameBase pm
              = collapse_slashes
                  (slice (m_0 r) 0
                     (Some (len (m_0 r)
                            - len (group_or_empty (m_groups r)
                                     (length names - 1)))))
              /\ pm_params pm !! str "*"
                 = Some (safelyDecodeURIComponent
                           (group_or_empty (m_groups r) (length names - 1))
                           (str "*"))
         else pm_pathnameBase pm = collapse_slashes (m_0 r).
Proof.
  intros pattern pathname pm. unfold matchPath. fold (pattern_of pattern).
  set (p := pattern_of pattern).
  destruct (compilePath (pattern_path p) (pattern_caseSensitive p) (pattern_end p))
    as [[matcher names]|e] eqn:Hc; [|discriminate].
  cbn [mbind result_bind].
  destruct (exec matcher pathname) as [r|] eqn:Hr; [|discriminate].
  destruct (compilePath_names _ _ _ _ _ Hc) as (tokens & Htok & Hnames).
  fold (collapse_slashes (m_0 r)).
  destruct (matchPath_reduce_tokens (m_0 r) (m_groups r) tokens Htok O ∅
              (collapse_slashes (m_0 r))) as (memo & Hrun & Hrest).
  intros Hpm. exists matcher, names, r.
  split; [reflexivity|]. split; [exact Hr|]. split.
  { destruct (search_from_spec _ _ _ _ Hr) as (sk & y & Hs & Hp & _).
    simpl in Hp. subst sk. exact Hs. }
  destruct (endsWith (pattern_path p) (str "*")); subst names.
  - rewrite Hrest in Hpm. cbn [matchPath_reduce] in Hpm.
    rewrite (proj2 (streq_true _ _) eq_refl) in Hpm.
    injection Hpm as <-. cbn [pm_pathname pm_pathnameBase pm_params].
    rewrite length_app. cbn [length].
    replace (length tokens + 1 - 1)%nat with (0 + length tokens)%nat by lia.
    split; [reflexivity|]. split; [reflexivity|].
    apply lookup_set_property_eq. discriminate.
  - rewrite Hrun in Hpm. injection Hpm as <-. split; reflexivity.
Qed.

(** ** The pattern of a path without tokens *)

(** Where [/\/*\*?$/] matches: where nothing but slashes and at most one
    final asterisk is left. *)
Lemma trailing_splat_match_at bef aft :
  match_at re_trailing_splat bef aft =
  if bool_decide (drop (run is_slash aft) aft = []
                  \/ drop (run is_slash aft) aft = [ch "*"])
  then Some (MState (rev aft ++ bef) [] [])
  else None.
Proof.
  unfold match_at, re_trailing_splat.
  cbn [m re_ast re_ignoreCase re_groups before after caps replicate].
  pose proof (run_ext _ is_slash aft set_mem_slash) as Hr.
  assert (Hstar : forall c, set_mem false false [CiChar 42%N] c = (c =? ch "*")%N).
  { intros c. rewrite set_mem_char. apply N.eqb_sym. }
  case_bool_decide as Hd.
  - assert (Hrev : rev aft ++ bef
                   = rev (drop (run is_slash aft) aft)
                     ++ rev (take (run is_slash aft) aft) ++ bef).
    { rewrite <- (take_drop (run is_slash aft) aft) at 1.
      rewrite rev_app_distr, app_assoc. reflexivity. }
    rewrite Hrev. erewrite quant_max; [reflexivity | lia |].
    rewrite Hr. cbn [after before caps].
    destruct Hd as [Hd|Hd]; rewrite Hd; [reflexivity|].
    cbn [quant]. rewrite Hstar, N.eqb_refl. reflexivity.
  - apply quant_none. intros j [_ Hj]. rewrite Hr in Hj. cbn [after before caps].
    destruct (decide (j = run is_slash aft)) as [->|Hne].
    + destruct (drop (run is_slash aft) aft) as [|c [|d rest]]; [tauto| |].
      * cbn [quant]. rewrite Hstar.
        destruct (N.eqb_spec c (ch "*")) as [->|]; [tauto | reflexivity].
      * cbn [quant]. rewrite Hstar. destruct (c =? ch "*")%N; reflexivity.
    + destruct (run_drop_head is_slash aft j) as (c & rest & -> & Hp); [lia|].
      cbn [quant]. rewrite Hstar. apply N.eqb_eq in Hp. subst c.
      reflexivity.
Qed.

Lemma replace_trailing_splat s :
  endsWith s (str "*") = false ->
  replace re_trailing_splat [] s = strip_trailing_slashes s.
Proof.
  intros Hends. unfold replace. rewrite replace_fn_first by reflexivity.
  destruct (search_from re_trailing_splat [] s) as [r|] eqn:E.
  - destruct (search_from_spec _ _ _ _ E)
      as (skipped & y & Hs & Hpre & Hm & Hy & _ & Hno).
    rewrite trailing_splat_match_at in Hm. case_bool_decide as Hd; [|discriminate].
    injection Hm as <-. cbn [after] in Hy. rewrite <- Hy, app_nil_r in *.
    simpl in Hpre. subst skipped. cbn [substitution app].
    assert (H0 : m_0 r = take (run is_slash (m_0 r)) (m_0 r)).
    { destruct Hd as [Hd|Hd].
      - rewrite <- (take_drop (run is_slash (m_0 r)) (m_0 r)) at 1.
        rewrite Hd, app_nil_r. reflexivity.
      - exfalso. assert (endsWith s (str "*") = true); [|congruence].
        apply endsWith_char. exists (m_pre r ++ take (run is_slash (m_0 r)) (m_0 r)).
        rewrite Hs at 1.
        rewrite <- (take_drop (run is_slash (m_0 r)) (m_0 r)) at 1.
        rewrite Hd, app_assoc. reflexivity. }
    rewrite Hs at 1. rewrite H0. rewrite strip_trailing_slashes_app;
      [reflexivity | apply run_take|].
    intros t' Ht'.
    specialize (Hno (length t')). rewrite Ht', length_app in Hno. simpl in Hno.
    rewrite take_app_length in Hno. rewrite Hs, Ht', <- !app_assoc in Hno.
    rewrite drop_app_length in Hno. rewrite trailing_splat_match_at, app_nil_r in Hno.
    rewrite bool_decide_eq_true_2 in Hno; [discriminate Hno; lia|].
    simpl. change (is_slash (ch "/")) with true. cbv iota. simpl. exact Hd.
  - exfalso. pose proof (search_from_none _ _ _ E (length s)) as Hno.
    rewrite drop_all, trailing_splat_match_at in Hno.
    rewrite bool_decide_eq_true_2 in Hno by (left; reflexivity).
    discriminate Hno. lia.
Qed.

Lemma special_match_at bef aft :
  match_at re_special bef aft =
  match aft with
  | c :: aft' => if is_special c then Some (MState (c :: bef) aft' []) else None
  | [] => None
  end.
Proof.
  unfold match_at, re_special.
  cbn [m re_ast re_ignoreCase re_groups before after caps replicate].
  destruct aft as [|c aft']; [reflexivity|].
  replace (set_mem false false _ c) with (is_special c); [reflexivity|].
  unfold set_mem, is_special. cbn [existsb item_mem canon xorb].
  change (str "\.*+^$?{}|()[]")
    with [92; 46; 42; 43; 94; 36; 63; 123; 125; 124; 40; 41; 91; 93]%N.
  cbn [existsb]. rewrite !(N.eqb_sym c). reflexivity.
Qed.

(** The global replacement of the special characters by themselves after
    a backslash. *)
Lemma replace_special_loop aft : forall fuel bef,
  (length aft < fuel)%nat ->
  replace_loop fuel re_special
    (fun (_ : unit) r => (tt, substitution (str "\$&") r)) tt bef aft
  = (tt, escape aft).
Proof.
  induction aft as [|c aft IH]; intros fuel bef Hfuel.
  - apply replace_loop_nil. rewrite special_match_at. reflexivity.
  - destruct fuel as [|fuel]; [lia|]. simpl in Hfuel.
    pose proof (special_match_at bef (c :: aft)) as Hm. cbv beta iota in Hm.
    unfold escape. cbn [map concat]. fold (escape aft).
    destruct (is_special c).
    + rewrite (replace_loop_here fuel re_special _ tt bef (c :: aft) _ c []
                 eq_refl Hm eq_refl).
      cbn [after caps]. rewrite IH by lia. reflexivity.
    + rewrite replace_loop_skip by exact Hm. rewrite IH by lia. reflexivity.
Qed.

Lemma replace_special s : replace re_special (str "\$&") s = escape s.
Proof.
  unfold replace, replace_fn, replace_with.
  rewrite replace_special_loop by lia. reflexivity.
Qed.

Lemma at_word_run s : at_word s = (1 <=? run is_word s)%nat.
Proof. destruct s as [|c s]; [reflexivity|]. simpl. destruct (is_word c); reflexivity. Qed.

Lemma pieces_no_token s : has_token s = false -> pieces s O = map Lit s.
Proof.
  induction s as [|c s IH]; [reflexivity|]. cbn [has_token pieces map].
  intros H. apply orb_false_iff in H as [Hc Hs].
  rewrite <- at_word_run, Hc, IH by exact Hs. reflexivity.
Qed.

Lemma fold_pieces_lits {S} (g : S -> jsstring -> S * jsstring) st s :
  fold_pieces g st (map Lit s) = (st, s).
Proof.
  induction s as [|c s IH]; [reflexivity|]. cbn [map fold_pieces].
  rewrite IH. reflexivity.
Qed.

Lemma has_token_app s t : has_token (s ++ t) = false -> has_token s = false.
Proof.
  induction s as [|c s IH]; [reflexivity|]. cbn [app has_token].
  intros H. apply orb_false_iff in H as [Hc Hs].
  rewrite (IH Hs), orb_false_r.
  destruct (c =? ch ":")%N; [|reflexivity]. simpl in *.
  destruct s as [|d s]; [reflexivity | exact Hc].
Qed.

Lemma has_token_escape s : has_token s = false -> has_token (escape s) = false.
Proof.
  induction s as [|c s IH]; [reflexivity|].
  cbn [has_token]. intros H. apply orb_false_iff in H as [Hc Hs].
  specialize (IH Hs). unfold escape. cbn [map concat]. fold (escape s).
  destruct (is_special c) eqn:Hsp.
  - cbn [app has_token]. rewrite IH.
    change (ch "\" =? ch ":")%N with false. cbn [andb orb].
    destruct (N.eqb_spec c (ch ":")) as [->|]; [discriminate Hsp | reflexivity].
  - cbn [app has_token]. rewrite IH, orb_false_r.
    destruct (c =? ch ":")%N; [|reflexivity]. simpl in *.
    destruct s as [|d s]; [reflexivity|]. simpl in Hc. unfold escape. cbn [map concat].
    destruct (is_special d); simpl; [reflexivity | exact Hc].
Qed.

Lemma is_special_cases c :
  is_special c = true ->
  c ∈ [92; 46; 42; 43; 94; 36; 63; 123; 125; 124; 40; 41; 91; 93]%N.
Proof.
  unfold is_special.
  change (str "\.*+^$?{}|()[]")
    with [92; 46; 42; 43; 94; 36; 63; 123; 125; 124; 40; 41; 91; 93]%N.
  intros H. apply existsb_exists in H as (x & Hx & Heq).
  apply N.eqb_eq in Heq. subst x. apply list_elem_of_In. exact Hx.
Qed.

Lemma tokenize_escaped c s :
  is_special c = true ->
  tokenize (ch "\" :: c :: s) = cons (lit_token c) <$> tokenize s.
Proof.
  intros H. apply is_special_cases in H.
  repeat (apply elem_of_cons in H as [->|H]; [reflexivity|]).
  inversion H.
Qed.

Lemma tokenize_plain c s :
  is_special c = false ->
  tokenize (c :: s) = cons (lit_token c) <$> tokenize s.
Proof.
  unfold is_special.
  change (str "\.*+^$?{}|()[]")
    with [92; 46; 42; 43; 94; 36; 63; 123; 125; 124; 40; 41; 91; 93]%N.
  cbn [existsb]. rewrite !orb_false_iff.
  intros (H1 & H2 & H3 & H4 & H5 & H6 & H7 & H8 & H9 & H10 & H11 & H12 & H13 & H14 & _).
  cbn [tokenize].
  change (ch "\") with 92%N. change (ch "(") with 40%N. change (ch "[") with 91%N.
  change (ch "{") with 123%N. change (ch ")") with 41%N. change (ch "|") with 124%N.
  change (ch "^") with 94%N. change (ch "$") with 36%N. change (ch "*") with 42%N.
  change (ch "+") with 43%N. change (ch "?") with 63%N. change (ch ".") with 46%N.
  rewrite H1, H11, H13, H8, H12, H10, H5, H6, H3, H4, H7, H2. reflexivity.
Qed.

Lemma tokenize_escape s rest toks :
  tokenize rest = Some toks ->
  tokenize (escape s ++ rest) = Some (map lit_token s ++ toks).
Proof.
  intros Hrest. induction s as [|c s IH]; [exact Hrest|].
  unfold escape. cbn [map concat]. fold (escape s).
  destruct (is_special c) eqn:Hc.
  - cbn [app]. rewrite tokenize_escaped by exact Hc. rewrite IH. reflexivity.
  - cbn [app]. rewrite tokenize_plain by exact Hc. rewrite IH. reflexivity.
Qed.

Lemma parse_tokens_lits s : forall rest stack alts cur n,
  parse_tokens (map lit_token s ++ rest) stack alts cur n
  = parse_tokens rest stack alts (rev (map lit s) ++ cur) n.
Proof.
  induction s as [|c s IH]; intros rest stack alts cur n; [reflexivity|].
  cbn [map app parse_tokens lit_token]. rewrite IH.
  cbn [rev]. rewrite <- app_assoc. reflexivity.
Qed.

(** The matcher of a path that has no token and is matched to its end:
    the start, the literals of the path, slashes, the end. *)
Lemma new_RegExp_literal s icase :
  new_RegExp (str "^" ++ escape s ++ str "\/*$") icase false
  = Some (mkRegExp
            (seq_of (RBol :: map lit s
                     ++ [RQuant 0 None false [CiChar (ch "/")]; REol]))
            0 icase false).
Proof.
  unfold new_RegExp.
  change (str "^" ++ escape s ++ str "\/*$")
    with (ch "^" :: escape s ++ str "\/*$").
  assert (Ht : tokenize (ch "^" :: escape s ++ str "\/*$")
               = Some (TBol :: map lit_token s
                       ++ [lit_token (ch "/"); TQuant 0 None; TEol])).
  { change (tokenize (ch "^" :: ?x)) with (cons TBol <$> tokenize x).
    rewrite (tokenize_escape s _ [lit_token (ch "/"); TQuant 0 None; TEol]);
      reflexivity. }
  rewrite Ht. cbn [mbind option_bind parse_tokens].
  rewrite parse_tokens_lits. cbn [parse_tokens lit_token]. unfold finish.
  assert (Hrev : forall q e : regex,
    rev (e :: q :: rev (map lit s) ++ [RBol]) = RBol :: map lit s ++ [q; e]).
  { intros q e. cbn [rev]. rewrite rev_app_distr, rev_involutive.
    cbn [rev app]. rewrite <- !app_assoc. reflexivity. }
  rewrite Hrev. reflexivity.
Qed.

Lemma m_seq_of_cons icase t ts x k :
  m icase (seq_of (t :: ts)) x k
  = m icase t x (fun y => m icase (seq_of ts) y k).
Proof. destruct ts; reflexivity. Qed.

Lemma m_lits icase s : forall ts bef aft cs k,
  m icase (seq_of (map lit s ++ ts)) (MState bef (s ++ aft) cs) k
  = m icase (seq_of ts) (MState (rev s ++ bef) aft cs) k.
Proof.
  induction s as [|c s IH]; intros ts bef aft cs k; [reflexivity|].
  cbn [map app]. rewrite m_seq_of_cons. unfold lit at 1.
  cbn [m after before caps]. rewrite set_mem_char, N.eqb_refl.
  rewrite IH. cbn [rev]. rewrite <- app_assoc. reflexivity.
Qed.

Lemma literal_match_at icase s sl :
  forallb is_slash sl = true ->
  match_at
    (mkRegExp
       (seq_of (RBol :: map lit s ++ [RQuant 0 None false [CiChar (ch "/")]; REol]))
       0 icase false)
    [] (s ++ sl)
  = Some (MState (rev (s ++ sl)) [] []).
Proof.
  intros Hsl. unfold match_at. cbn [re_ast re_ignoreCase re_groups replicate].
  rewrite m_seq_of_cons. cbn [m before]. rewrite m_lits.
  cbn [seq_of m before after caps].
  assert (Hr : run (set_mem icase false [CiChar (ch "/")]) sl = length sl).
  { apply run_all. rewrite forallb_forall in *. intros c Hc.
    specialize (Hsl c Hc). apply N.eqb_eq in Hsl. subst c.
    rewrite set_mem_char. apply N.eqb_refl. }
  erewrite quant_max; [reflexivity | lia|].
  rewrite Hr, firstn_all, drop_all. cbn [after].
  rewrite rev_app_distr, app_nil_r. reflexivity.
Qed.

Lemma strip_trailing_slashes_split s :
  exists sl, forallb is_slash sl = true /\ s = strip_trailing_slashes s ++ sl.
Proof.
  exists (rev (take (run is_slash (rev s)) (rev s))). split.
  - rewrite forallb_forall. intros c Hc. apply in_rev in Hc.
    pose proof (run_take is_slash (rev s)) as H.
    rewrite forallb_forall in H. apply H, Hc.
  - unfold strip_trailing_slashes, strip_leading_slashes.
    rewrite <- rev_app_distr, take_drop, rev_involutive. reflexivity.
Qed.

(** A path that starts with one slash and no more is, up to the slashes
    that end it, the text that [compilePath] makes its matcher of. *)
Lemma single_slash_shape path :
  startsWith path (str "/") = true ->
  startsWith path (str "//") = false ->
  exists sl,
    forallb is_slash sl = true
    /\ path = (str "/" ++ strip_leading_slashes (strip_trailing_slashes path)) ++ sl.
Proof.
  destruct (strip_trailing_slashes_split path) as (sl & Hsl & Hpath).
  revert Hsl Hpath. unfold strip_leading_slashes, is_slash. eval_str.
  intros Hsl Hpath H1 H2.
  destruct path as [|c q]; [discriminate|].
  cbn [startsWith] in H1, H2. revert H1 H2.
  destruct (N.eqb_spec c 47) as [->|]; [|discriminate]. cbn [andb].
  intros _ H2.
  assert (Hq : run (fun c => (c =? 47)%N) q = O).
  { destruct q as [|d q]; [reflexivity|]. cbn [run startsWith] in H2 |- *.
    destruct (d =? 47)%N; [|reflexivity]. destruct q; discriminate. }
  match type of Hpath with
  | _ = ?stripped ++ _ => destruct stripped as [|c t] eqn:Et
  end.
  - cbn [app] in Hpath. subst sl. cbn [forallb] in Hsl.
    destruct q as [|d q].
    + exists []. split; reflexivity.
    + cbn [forallb run] in Hsl, Hq. destruct (d =? 47)%N; [lia | discriminate].
  - injection Hpath as <- Hq'. exists sl. split; [exact Hsl|].
    cbn [run]. rewrite N.eqb_refl.
    assert (Ht : run (fun c => (c =? 47)%N) t = O).
    { destruct t as [|d t]; [reflexivity|]. subst q. cbn [app run] in Hq |- *.
      destruct (d =? 47)%N; [lia | reflexivity]. }
    rewrite Ht. cbn [drop]. subst q. reflexivity.
Qed.

Lemma exec_literal icase s sl :
  forallb is_slash sl = true ->
  exec
    (mkRegExp
       (seq_of (RBol :: map lit s ++ [RQuant 0 None false [CiChar (ch "/")]; REol]))
       0 icase false)
    (s ++ sl)
  = Some (mkMatch [] (s ++ sl) [] []).
Proof.
  intros Hsl. unfold exec.
  rewrite (search_from_here _ _ _ _ (literal_match_at icase s sl Hsl)).
  cbn [after caps rev length]. rewrite Nat.sub_0_r, firstn_all. reflexivity.
Qed.

Lemma compilePath_literal path cs :
  endsWith path (str "*") = false ->
  has_token (pattern_body path) = false ->
  compilePath path cs (Some true)
  = Ok (mkRegExp
          (seq_of (RBol :: map lit (pattern_body path)
                   ++ [RQuant 0 None false [CiChar (ch "/")]; REol]))
          0 (negb (default false cs)) false,
        []).
Proof.
  intros Hends Htok. unfold compilePath.
  rewrite replace_trailing_splat by exact Hends.
  rewrite replace_leading_slashes, replace_special. fold (pattern_body path).
  change (replace_with re_param _ [] ?s)
    with (replace_with re_param
            (fun names r => (fun names name => (names ++ [name], str "([^\/]+)"))
                              names (group_text r 1)) [] s).
  rewrite replace_param_pieces.
  rewrite (pieces_no_token _ (has_token_escape _ Htok)), fold_pieces_lits.
  rewrite Hends. cbn [default id]. rewrite <- app_assoc.
  rewrite new_RegExp_literal. reflexivity.
Qed.

(** C9, as the code has it: a path that starts with one slash and no
    more, has no token and does not end in an asterisk matches itself,
    and the pathname of the match is the path. *)
Theorem matchPath_literal_round_trip :
  forall path,
    startsWith path (str "/") = true ->
    startsWith path (str "//") = false ->
    has_token path = false ->
    endsWith path (str "*") = false ->
    exists pm,
      matchPath (PatternString path) path = Ok (Some pm)
      /\ pm_pathname pm = path.
Proof.
  intros path H1 H2 Htok Hends.
  destruct (single_slash_shape path H1 H2) as (sl & Hsl & Hpath).
  fold (pattern_body path) in Hpath.
  assert (Hbody : has_token (pattern_body path) = false).
  { apply (has_token_app _ sl). rewrite <- Hpath. exact Htok. }
  unfold matchPath. cbn [pattern_path pattern_caseSensitive pattern_end].
  rewrite (compilePath_literal path (Some false) Hends Hbody).
  cbn [mbind result_bind].
  pose proof (exec_literal (negb (default false (Some false)))
                (pattern_body path) sl Hsl) as He.
  rewrite <- Hpath in He. rewrite He.
  cbn [matchPath_reduce m_0]. eexists. split; reflexivity.
Qed.

Lemma matchPath_literal_round_trip_witness :
  startsWith (str "/a/b") (str "/") = true
  /\ startsWith (str "/a/b") (str "//") = false
  /\ has_token (str "/a/b") = false
  /\ endsWith (str "/a/b") (str "*") = false
  /\ exists pm,
       matchPath (PatternString (str "/a/b")) (str "/a/b") = Ok (Some pm)
       /\ pm_pathname pm = str "/a/b".
Proof.
  repeat (split; [reflexivity|]).
  apply (matchPath_literal_round_trip (str "/a/b")); reflexivity.
Defined.

(** C9 as stated fails: the path [a] has no token and no splat, and does
    not match itself. *)
Lemma matchPath_relative_path_no_match :
  has_token (str "a") = false
  /\ endsWith (str "a") (str "*") = false
  /\ matchPath (PatternString (str "a")) (str "a") = Ok None.
Proof. repeat split; vm_compute; reflexivity. Qed.

Lemma matchPath_pathname_and_base_witness :
  matchPath (PatternString (str "/files/*")) (str "/files/a%20b/c")
  = Ok (Some
          (mkPathMatch {[ str "*" := str "a b/c" ]} (str "/files/a%20b/c")
             (str "/files")
             (mkPathPattern (str "/files/*") (Some false) (Some true))))
  /\ exists matcher names r,
       compilePath (str "/files/*") (Some false) (Some true)
       = Ok (matcher, names)
       /\ exec matcher (str "/files/a%20b/c") = Some r
       /\ str "/files/a%20b/c" = m_pre r ++ m_0 r ++ m_post r
       /\ str "/files/a%20b/c" = m_0 r
       /\ str "/files"
          = collapse_slashes
              (slice (m_0 r) 0
                 (Some (len (m_0 r)
                        - len (group_or_empty (m_groups r) (length names - 1)))))
       /\ ({[ str "*" := str "a b/c" ]} : Params) !! str "*"
          = Some (safelyDecodeURIComponent
                    (group_or_empty (m_groups r) (length names - 1)) (str "*")).
Proof.
  assert (H : matchPath (PatternString (str "/files/*")) (str "/files/a%20b/c")
              = Ok (Some
                      (mkPathMatch {[ str "*" := str "a b/c" ]}
                         (str "/files/a%20b/c") (str "/files")
                         (mkPathPattern (str "/files/*") (Some false)
                            (Some true)))))
    by (vm_compute; reflexivity).
  split; [exact H|].
  destruct (matchPath_pathname_and_base _ _ _ H)
    as (matcher & names & r & Hc & He & Hs & Hp & Hb & Hparams).
  exists matcher, names, r. auto 10.
Defined.

(** ** [compilePath] always gives a matcher *)

Lemma is_word_not_special c : is_word c = true -> is_special c = false.
Proof.
  intros Hw. destruct (is_special c) eqn:Hs; [|reflexivity].
  apply is_special_cases in Hs.
  repeat (apply elem_of_cons in Hs as [->|Hs]; [discriminate Hw|]).
  inversion Hs.
Qed.

Lemma escape_cons c s : escape (c :: s) = escape_unit c ++ escape s.
Proof. reflexivity. Qed.

Lemma escape_word_run s :
  run is_word (escape s) = run is_word s
  /\ take (run is_word s) (escape s) = take (run is_word s) s
  /\ drop (run is_word s) (escape s) = escape (drop (run is_word s) s).
Proof.
  induction s as [|c s (IH1 & IH2 & IH3)]; [auto|].
  rewrite escape_cons. unfold escape_unit. cbn [run].
  destruct (is_word c) eqn:Hw.
  - rewrite (is_word_not_special c Hw). cbn [app run take drop]. rewrite Hw.
    rewrite IH1, IH2, IH3. auto.
  - destruct (is_special c) eqn:Hs; cbn [app run take drop].
    + change (is_word (ch "\")) with false. cbv iota.
      rewrite escape_cons. unfold escape_unit. rewrite Hs. auto.
    + rewrite Hw, escape_cons. unfold escape_unit. rewrite Hs. auto.
Qed.

Lemma pieces_escape n : forall s,
  (length s <= n)%nat ->
  pieces (escape s) O = concat (map escaped_piece (pieces s O)).
Proof.
  induction n as [|n IH]; intros s Hn.
  - destruct s; [reflexivity | simpl in Hn; lia].
  - destruct s as [|c s]; [reflexivity|]. simpl in Hn.
    destruct (escape_word_run s) as (Hr & Ht & Hd).
    pose proof (run_le is_word s) as Hle.
    rewrite escape_cons. unfold escape_unit. cbn [pieces].
    destruct (N.eqb_spec c (ch ":")) as [->|Hc].
    + change (is_special (ch ":")) with false. cbn [app pieces].
      rewrite N.eqb_refl, Hr. cbn [andb].
      destruct (1 <=? run is_word s)%nat eqn:E.
      * cbn [map concat escaped_piece app]. rewrite Ht. f_equal.
        rewrite (pieces_skip (escape s) (run is_word s))
          by (rewrite <- Hr; apply run_le).
        rewrite (pieces_skip s (run is_word s)) by lia.
        rewrite Hd. apply IH. rewrite length_drop. lia.
      * cbn [map concat escaped_piece app]. unfold escape_unit.
        change (is_special (ch ":")) with false. cbn [map app]. f_equal.
        apply IH. lia.
    + cbn [andb map concat escaped_piece]. unfold escape_unit.
      destruct (is_special c) eqn:Hs.
      * cbn [app pieces map]. change (ch "\" =? ch ":")%N with false.
        cbn [andb]. apply N.eqb_neq in Hc. rewrite Hc. cbn [andb].
        do 2 f_equal. apply IH. lia.
      * cbn [app pieces map]. apply N.eqb_neq in Hc. rewrite Hc. cbn [andb].
        f_equal. apply IH. lia.
Qed.

Lemma fold_pieces_source ps : forall names,
  (fold_pieces (fun names name => (names ++ [name], group_source)) names
     (concat (map escaped_piece ps))).2
  = concat (map piece_source ps).
Proof.
  induction ps as [|[c|name] ps IH]; intros names; [reflexivity| |].
  - cbn [map concat escaped_piece piece_source]. unfold escape_unit.
    destruct (is_special c); cbn [map app fold_pieces].
    + specialize (IH names). destruct (fold_pieces _ names _). simpl in *.
      rewrite IH. reflexivity.
    + specialize (IH names). destruct (fold_pieces _ names _). simpl in *.
      rewrite IH. reflexivity.
  - cbn [map concat escaped_piece piece_source app fold_pieces].
    specialize (IH (names ++ [name])). destruct (fold_pieces _ _ _). simpl in *.
    rewrite IH. reflexivity.
Qed.

Lemma tokenize_group s :
  tokenize (group_source ++ s)
  = app [TOpen GCap; TAtom true [CiChar (ch "/")]; TQuant 1 None; TClose]
      <$> tokenize s.
Proof.
  change (tokenize (group_source ++ s))
    with (cons (TOpen GCap) <$>
            (cons (TAtom true [CiChar (ch "/")]) <$>
               (cons (TQuant 1 None) <$> (cons TClose <$> tokenize s)))).
  destruct (tokenize s); reflexivity.
Qed.

Lemma tokenize_pieces ps rest toks :
  tokenize rest = Some toks ->
  tokenize (concat (map piece_source ps) ++ rest)
  = Some (concat (map piece_tokens ps) ++ toks).
Proof.
  intros Hrest. induction ps as [|[c|name] ps IH]; [exact Hrest| |].
  - cbn [map concat piece_source piece_tokens]. unfold escape_unit.
    rewrite <- app_assoc.
    destruct (is_special c) eqn:Hc; cbn [app].
    + rewrite tokenize_escaped by exact Hc. rewrite IH. reflexivity.
    + rewrite tokenize_plain by exact Hc. rewrite IH. reflexivity.
  - cbn [map concat piece_source piece_tokens].
    rewrite <- app_assoc, tokenize_group, IH. reflexivity.
Qed.

Lemma parse_tokens_pieces ps : forall rest stack alts cur n,
  parse_tokens (concat (map piece_tokens ps) ++ rest) stack alts cur n
  = parse_tokens rest stack alts (rev (piece_terms ps n) ++ cur)
      (n + length (token_names ps)).
Proof.
  induction ps as [|[c|name] ps IH]; intros rest stack alts cur n.
  - cbn [map concat piece_terms token_names length rev app].
    rewrite Nat.add_0_r. reflexivity.
  - cbn [map concat piece_tokens piece_terms token_names app parse_tokens
         lit_token].
    rewrite IH. cbn [rev]. rewrite <- app_assoc. reflexivity.
  - cbn [map concat piece_tokens piece_terms token_names app parse_tokens
         wrap finish rev alt_of seq_of length].
    rewrite IH. cbn [rev]. rewrite <- app_assoc, Nat.add_succ_r. reflexivity.
Qed.

Lemma new_RegExp_pieces ps suffix icase :
  is_ending suffix ->
  exists matcher,
    new_RegExp (str "^" ++ concat (map piece_source ps) ++ suffix) icase false
    = Some matcher.
Proof.
  intros Hs. unfold new_RegExp.
  change (str "^" ++ ?x) with (ch "^" :: x).
  change (tokenize (ch "^" :: ?x)) with (cons TBol <$> tokenize x).
  destruct Hs as [-> | [-> | [-> | ->]]].
  - erewrite tokenize_pieces by (vm_compute; reflexivity).
    cbn [fmap option_fmap option_map mbind option_bind parse_tokens].
    rewrite parse_tokens_pieces. cbn. eauto.
  - erewrite tokenize_pieces by (vm_compute; reflexivity).
    cbn [fmap option_fmap option_map mbind option_bind parse_tokens].
    rewrite parse_tokens_pieces. cbn. eauto.
  - erewrite tokenize_pieces by (vm_compute; reflexivity).
    cbn [fmap option_fmap option_map mbind option_bind parse_tokens].
    rewrite parse_tokens_pieces. cbn. eauto.
  - erewrite tokenize_pieces by (vm_compute; reflexivity).
    cbn [fmap option_fmap option_map mbind option_bind parse_tokens].
    rewrite parse_tokens_pieces. cbn. eauto.
Qed.

(** [compilePath] never throws. *)
Lemma compilePath_total path cs e :
  exists matcher names, compilePath path cs e = Ok (matcher, names).
Proof.
  unfold compilePath.
  rewrite replace_leading_slashes, replace_special.
  change (replace_with re_param _ [] ?s)
    with (replace_with re_param
            (fun names r => (fun names name => (names ++ [name], group_source))
                              names (group_text r 1)) [] s).
  rewrite replace_param_pieces.
  rewrite (pieces_escape _ _ (Nat.le_refl _)).
  match goal with |- context [fold_pieces ?g [] (concat (map escaped_piece ?ps))] =>
    pose proof (fold_pieces_source ps []) as Hsrc;
    destruct (fold_pieces g [] (concat (map escaped_piece ps))) as [names source];
    set (pcs := ps) in *
  end.
  cbn [snd] in Hsrc. subst source.
  assert (Hre : forall suffix, is_ending suffix ->
    exists matcher,
      new_RegExp ((str "^" ++ concat (map piece_source pcs)) ++ suffix)
        (negb (default false cs)) false = Some matcher).
  { intros suffix Hs. rewrite <- app_assoc. apply new_RegExp_pieces, Hs. }
  destruct (endsWith path (str "*")).
  - destruct (streq path (str "*") || streq path (str "/*")).
    + destruct (Hre (str "(.*)$")) as [matcher ->]; [left; reflexivity|]. eauto.
    + destruct (Hre (str "(?:\/(.+)|\/*)$")) as [matcher ->];
        [right; left; reflexivity|]. eauto.
  - destruct (default true e).
    + destruct (Hre (str "\/*$")) as [matcher ->];
        [right; right; left; reflexivity|]. eauto.
    + destruct (Hre (str "(?:(?=[.~-]|%[0-9A-F]{2})|\b|\/|$)")) as [matcher ->];
        [right; right; right; reflexivity|]. eauto.
Qed.

Lemma matchPath_total pattern pathname :
  exists res, matchPath pattern pathname = Ok res.
Proof.
  unfold matchPath.
  match goal with |- context [compilePath ?p ?c ?e] =>
    destruct (compilePath_total p c e) as (matcher & names & ->)
  end.
  cbn [mbind result_bind].
  destruct (exec matcher pathname); [|eauto].
  destruct (matchPath_reduce _ _ _ _ _ _). eauto.
Qed.

Lemma matchRouteBranch_loop_total metas :
  forall pathname l matchedSoFar ms h,
    exists res h',
      matchRouteBranch_loop metas pathname l matchedSoFar ms h = (Ok res, h').
Proof.
  induction metas as [|meta rest IH]; intros pathname l mp ms h; simpl; [eauto|].
  match goal with |- context [matchPath ?pat ?rem] =>
    destruct (matchPath_total pat rem) as [[pm|] ->]
  end; [apply IH | eauto].
Qed.

Lemma matchRoutes_loop_total bs :
  forall pathname h,
    exists res h', matchRoutes_loop bs pathname h = (Ok res, h').
Proof.
  induction bs as [|b bs IH]; intros pathname h; simpl; [eauto|].
  unfold matchRouteBranch, alloc.
  destruct (matchRouteBranch_loop_total (routesMeta b) pathname (length h)
              (str "/") [] (h ++ [∅])) as ([ms|] & h1 & ->); [eauto | apply IH].
Qed.

(** ** The outcome of [matchRoutes] on a tree *)

(** C8, as the code has it: when the pathname is not under the basename
    the call gives [null] and the tree is not looked at; otherwise a tree
    that is not well formed ends the call with one of the two messages,
    and for a well-formed tree nothing is thrown.  Without a basename the
    pathname always passes. *)
Theorem matchRoutes_invalid_tree :
  forall routes locationArg basename h,
    match requested_pathname locationArg basename with
    | None => matchRoutes routes locationArg basename h = (Ok None, h)
    | Some _ =>
        if forallb (well_formed []) routes
        then exists res h',
               matchRoutes routes locationArg basename h = (Ok res, h')
        else exists msg,
               matchRoutes routes locationArg basename h = (Throw (Error msg), h)
               /\ invalid_tree_message msg
    end
    /\ requested_pathname locationArg None <> None.
Proof.
  intros routes locationArg basename h. split.
  - unfold requested_pathname, matchRoutes.
    destruct (stripBasename _ _) as [pathname|]; [|reflexivity].
    pose proof (flattenRoutes_outcome routes) as Hout.
    destruct (flattenRoutes routes [] [] []) as [branches|e];
      cbn [flatten_outcome] in Hout.
    + rewrite Hout. apply matchRoutes_loop_total.
    + destruct Hout as (-> & msg & -> & Hmsg). eauto.
  - unfold requested_pathname. cbn [default].
    unfold stripBasename. rewrite (proj2 (streq_true _ _) eq_refl). discriminate.
Qed.

(** C8 as stated fails: an index route with a child, a pathname that is
    not under the basename, and the call gives [null]. *)
Lemma matchRoutes_invalid_tree_not_raised :
  forallb (well_formed [])
    [mkRoute false [route_of_path "a"] true None None] = false
  /\ matchRoutes [mkRoute false [route_of_path "a"] true None None]
       (location_of "/x") (Some (str "/app")) [] = (Ok None, []).
Proof. split; vm_compute; reflexivity. Qed.

(** * Further properties *)

(** ** Slashes at the ends of a text *)

Lemma run_drop p s : run p (drop (run p s) s) = O.
Proof.
  induction s as [|c s IH]; simpl; [reflexivity|].
  destruct (p c) eqn:E; simpl; [exact IH | rewrite E; reflexivity].
Qed.

Lemma startsWith_nil s : startsWith s [] = true.
Proof. destruct s; reflexivity. Qed.

Lemma startsWith_cons c s d p :
  startsWith (c :: s) (d :: p) = (c =? d)%N && startsWith s p.
Proof. reflexivity. Qed.

Lemma startsWith_one c s d : startsWith (c :: s) [d] = (c =? d)%N.
Proof. rewrite startsWith_cons, startsWith_nil. apply andb_true_r. Qed.

Lemma startsWith_char s c :
  startsWith s [c] = true <-> exists s', s = c :: s'.
Proof.
  destruct s as [|d s].
  - split; [discriminate | intros [s' H]; discriminate].
  - rewrite startsWith_one, N.eqb_eq. split.
    + intros ->. eauto.
    + intros [s' H]. congruence.
Qed.

Lemma endsWith_last s c : endsWith s [c] = true <-> last s = Some c.
Proof. rewrite endsWith_char, last_Some. reflexivity. Qed.

Lemma run_slash_head s :
  startsWith s (str "/") = false -> run is_slash s = O.
Proof.
  destruct s as [|c s]; [reflexivity|]. cbn [run]. unfold is_slash.
  change (str "/") with [ch "/"]. rewrite startsWith_one.
  intros ->. reflexivity.
Qed.

Lemma strip_leading_slashes_head s :
  startsWith (strip_leading_slashes s) (str "/") = false.
Proof.
  unfold strip_leading_slashes. pose proof (run_drop is_slash s) as H.
  destruct (drop (run is_slash s) s) as [|c t]; [reflexivity|].
  cbn [run] in H. change (str "/") with [ch "/"]. rewrite startsWith_one.
  unfold is_slash in H.
  destruct (c =? ch "/")%N; [discriminate | reflexivity].
Qed.

Lemma strip_leading_slashes_fix s :
  startsWith s (str "/") = false -> strip_leading_slashes s = s.
Proof.
  intros H. unfold strip_leading_slashes. rewrite run_slash_head by exact H.
  reflexivity.
Qed.

Lemma strip_trailing_slashes_last s :
  endsWith (strip_trailing_slashes s) (str "/") = false.
Proof.
  unfold endsWith, strip_trailing_slashes. rewrite rev_involutive.
  apply strip_leading_slashes_head.
Qed.

Lemma strip_trailing_slashes_fix s :
  endsWith s (str "/") = false -> strip_trailing_slashes s = s.
Proof.
  unfold endsWith, strip_trailing_slashes. intros H.
  change (rev (str "/")) with (str "/") in H.
  rewrite strip_leading_slashes_fix by exact H. apply rev_involutive.
Qed.

(** Where [/\/+$/] matches: where one slash at least, and nothing but
    slashes, is left. *)
Lemma trailing_slashes_match_at bef aft :
  match_at re_trailing_slashes bef aft =
  if (1 <=? length aft)%nat && forallb is_slash aft
  then Some (MState (rev aft ++ bef) [] [])
  else None.
Proof.
  unfold match_at, re_trailing_slashes.
  cbn [m re_ast re_ignoreCase re_groups before after caps replicate].
  pose proof (run_ext _ is_slash aft set_mem_slash) as Hr.
  destruct ((1 <=? length aft)%nat && forallb is_slash aft) eqn:E.
  - apply andb_true_iff in E as [Hlen Hall]. apply Nat.leb_le in Hlen.
    apply run_all in Hall.
    erewrite quant_max; [reflexivity | lia |].
    rewrite Hr, Hall, take_ge, drop_ge by lia. reflexivity.
  - apply quant_none. intros j Hj. rewrite Hr in Hj. cbn [after before caps].
    destruct (drop j aft) as [|c rest] eqn:Ed; [|reflexivity]. exfalso.
    apply drop_nil_inv in Ed. pose proof (run_le is_slash aft) as Hle.
    assert (Hall : run is_slash aft = length aft) by lia.
    apply run_all in Hall. rewrite Hall, andb_true_r in E.
    apply Nat.leb_gt in E. lia.
Qed.

Lemma replace_trailing_slashes s :
  replace re_trailing_slashes [] s = strip_trailing_slashes s.
Proof.
  unfold replace. rewrite replace_fn_first by reflexivity.
  destruct (search_from re_trailing_slashes [] s) as [r|] eqn:E.
  - destruct (search_from_spec _ _ _ _ E)
      as (skipped & y & Hs & Hpre & Hm & Hy & _ & Hno).
    rewrite trailing_slashes_match_at in Hm.
    destruct ((1 <=? _)%nat && _) eqn:Hd in Hm; [|discriminate].
    injection Hm as <-. cbn [after] in Hy. rewrite <- Hy, app_nil_r in *.
    simpl in Hpre. subst skipped. cbn [substitution app].
    apply andb_true_iff in Hd as [_ Hall].
    rewrite Hs at 1. rewrite strip_trailing_slashes_app;
      [reflexivity | exact Hall |].
    intros t' Ht'.
    specialize (Hno (length t')). rewrite Ht', length_app in Hno. simpl in Hno.
    rewrite take_app_length in Hno. rewrite Hs, Ht', <- !app_assoc in Hno.
    rewrite drop_app_length in Hno.
    rewrite trailing_slashes_match_at, app_nil_r in Hno.
    cbn [app length forallb Nat.leb] in Hno.
    change (is_slash (ch "/")) with true in Hno. rewrite Hall in Hno.
    discriminate Hno. lia.
  - destruct (endsWith s (str "/")) eqn:Hends.
    + exfalso. apply endsWith_char in Hends as [s' ->].
      pose proof (search_from_none _ _ _ E (length s')) as Hno.
      rewrite take_app_length, drop_app_length, trailing_slashes_match_at in Hno.
      rewrite length_app in Hno. discriminate Hno. simpl. lia.
    + symmetry. apply strip_trailing_slashes_fix, Hends.
Qed.

Lemma normalizePathname_body pathname :
  normalizePathname pathname = pattern_body pathname.
Proof.
  unfold normalizePathname, pattern_body.
  rewrite replace_trailing_slashes, replace_leading_slashes. reflexivity.
Qed.

Lemma last_drop_nonempty {A} k (t : list A) :
  drop k t <> [] -> last (drop k t) = last t.
Proof.
  intros H. rewrite <- (take_drop k t) at 2. rewrite last_app.
  destruct (last (drop k t)) eqn:E; [reflexivity|].
  apply last_None in E. contradiction.
Qed.

(** The text between the slashes: it neither starts nor ends with one. *)
Lemma pattern_body_inner s :
  let q := strip_leading_slashes (strip_trailing_slashes s) in
  startsWith q (str "/") = false /\ endsWith q (str "/") = false.
Proof.
  split; [apply strip_leading_slashes_head|].
  unfold strip_leading_slashes at 1.
  destruct (endsWith (drop _ _) (str "/")) eqn:E; [|reflexivity].
  change (str "/") with [ch "/"] in E. apply endsWith_last in E.
  rewrite last_drop_nonempty in E by (intros H; rewrite H in E; discriminate).
  apply endsWith_last in E.
  change [ch "/"] with (str "/") in E.
  rewrite strip_trailing_slashes_last in E. discriminate.
Qed.

Lemma strip_leading_slashes_cons q :
  startsWith q (str "/") = false ->
  strip_leading_slashes (str "/" ++ q) = q.
Proof.
  intros H. unfold strip_leading_slashes.
  change (str "/" ++ q) with (ch "/" :: q). cbn [run].
  change (is_slash (ch "/")) with true. cbv iota.
  rewrite run_slash_head by exact H. reflexivity.
Qed.

Lemma pattern_body_fix q :
  startsWith q (str "/") = false -> endsWith q (str "/") = false ->
  pattern_body (str "/" ++ q) = str "/" ++ q.
Proof.
  intros Hhead Hlast. unfold pattern_body. destruct q as [|c q].
  - vm_compute. reflexivity.
  - rewrite strip_trailing_slashes_fix.
    + rewrite strip_leading_slashes_cons by exact Hhead. reflexivity.
    + destruct (endsWith (str "/" ++ c :: q) (str "/")) eqn:E; [|reflexivity].
      change (str "/") with [ch "/"] in E. apply endsWith_last in E.
      change ([ch "/"] ++ c :: q) with (ch "/" :: c :: q) in E.
      rewrite last_cons_cons in E. apply endsWith_last in E.
      change [ch "/"] with (str "/") in E. congruence.
Qed.

Lemma pattern_body_normal s :
  startsWith (pattern_body s) (str "/") = true
  /\ startsWith (pattern_body s) (str "//") = false
  /\ (endsWith (pattern_body s) (str "/") = true -> pattern_body s = str "/")
  /\ pattern_body (pattern_body s) = pattern_body s.
Proof.
  destruct (pattern_body_inner s) as [Hhead Hlast].
  cbv zeta in Hhead, Hlast. unfold pattern_body at 1 2 3 4 6.
  set (q := strip_leading_slashes (strip_trailing_slashes s)) in *.
  change (str "/" ++ q) with (ch "/" :: q). change (str "//") with [ch "/"; ch "/"].
  change (str "/") with [ch "/"] at 1 2.
  rewrite startsWith_one, startsWith_cons, N.eqb_refl.
  change [ch "/"] with (str "/"). rewrite Hhead.
  split; [reflexivity|]. split; [reflexivity|]. split.
  - destruct q as [|c q]; [reflexivity|]. intros E. exfalso.
    change (str "/") with [ch "/"] in E. apply endsWith_last in E.
    rewrite last_cons_cons in E. apply endsWith_last in E.
    change [ch "/"] with (str "/") in E. congruence.
  - apply (pattern_body_fix q Hhead Hlast).
Qed.

(** X1: [normalizePathname] gives a pathname in normal form: it starts
    with exactly one slash, it does not end with a slash unless it is
    the root [/], and normalizing it again changes nothing. *)
Theorem normalizePathname_normal_form :
  forall pathname,
    startsWith (normalizePathname pathname) (str "/") = true
    /\ startsWith (normalizePathname pathname) (str "//") = false
    /\ (endsWith (normalizePathname pathname) (str "/") = true ->
        normalizePathname pathname = str "/")
    /\ normalizePathname (normalizePathname pathname)
       = normalizePathname pathname.
Proof.
  intros pathname. rewrite !normalizePathname_body. apply pattern_body_normal.
Qed.

(** The shape that [normalizeSearch] and [normalizeHash] share, for the
    mark [p] that the text is to start with. *)
Lemma normalize_mark_form (p : char) (s : jsstring) :
  let norm := fun s : jsstring =>
    if negb (truthy s) || streq s [p] then []
    else if startsWith s [p] then s else [p] ++ s in
  (norm s = [] \/ exists c rest, norm s = p :: c :: rest)
  /\ norm (norm s) = norm s.
Proof.
  cbv zeta beta.
  assert (Hne : forall c d t, streq (c :: d :: t) [p] = false).
  { intros c d t. apply streq_false. discriminate. }
  destruct s as [|c [|d s]].
  - split; [left|]; reflexivity.
  - cbn [truthy negb orb]. rewrite startsWith_one.
    destruct (N.eqb_spec c p) as [->|Hc].
    + rewrite (proj2 (streq_true _ _) eq_refl). split; [left|]; reflexivity.
    + rewrite (proj2 (streq_false [c] [p])) by congruence.
      cbn [app truthy negb orb]. rewrite Hne, startsWith_one, N.eqb_refl.
      split; [right; eauto | reflexivity].
  - cbn [truthy negb orb]. rewrite Hne, startsWith_one.
    destruct (N.eqb_spec c p) as [->|Hc].
    + cbn [truthy negb orb]. rewrite Hne, startsWith_one, N.eqb_refl.
      split; [right; eauto | reflexivity].
    + cbn [app truthy negb orb]. rewrite Hne, startsWith_one, N.eqb_refl.
      split; [right; eauto | reflexivity].
Qed.

(** X2: [normalizeSearch] gives the empty string or a text that starts
    with [?] and goes on after it, [normalizeHash] the same with [#];
    both leave their own results as they are. *)
Theorem normalizeSearch_normalizeHash_normal_form :
  forall s,
    (normalizeSearch s = []
     \/ exists c rest, normalizeSearch s = ch "?" :: c :: rest)
    /\ normalizeSearch (normalizeSearch s) = normalizeSearch s
    /\ (normalizeHash s = []
        \/ exists c rest, normalizeHash s = ch "#" :: c :: rest)
    /\ normalizeHash (normalizeHash s) = normalizeHash s.
Proof.
  intros s.
  pose proof (normalize_mark_form (ch "?") s) as [H1 H2].
  pose proof (normalize_mark_form (ch "#") s) as [H3 H4].
  repeat split; assumption.
Qed.

(** ** [joinPaths] *)

Lemma startsWith_slash_run s :
  startsWith s (str "/") = (1 <=? run is_slash s)%nat.
Proof.
  destruct s as [|c s]; [reflexivity|].
  change (str "/") with [ch "/"]. rewrite startsWith_one. cbn [run].
  unfold is_slash. destruct (c =? ch "/")%N; reflexivity.
Qed.

(** Where [/\/\/+/] matches: at a run of two slashes or more, over the
    whole run. *)
Lemma slashes_match_at bef aft :
  match_at re_slashes bef aft =
  if (2 <=? run is_slash aft)%nat
  then Some (MState (rev (take (run is_slash aft) aft) ++ bef)
               (drop (run is_slash aft) aft) [])
  else None.
Proof.
  unfold match_at, re_slashes.
  cbn [m re_ast re_ignoreCase re_groups before after caps replicate].
  destruct aft as [|c aft']; [reflexivity|].
  rewrite set_mem_slash. cbn [run].
  destruct (is_slash c); [|reflexivity].
  pose proof (run_ext _ is_slash aft' set_mem_slash) as Hr.
  destruct (run is_slash aft') as [|n] eqn:En.
  - apply quant_none. intros j Hj. rewrite Hr in Hj. lia.
  - erewrite quant_max; [|rewrite Hr; lia|rewrite Hr; reflexivity].
    cbn [Nat.leb take drop rev]. rewrite <- app_assoc. reflexivity.
Qed.

Lemma squeeze_run s :
  (1 <= run is_slash s)%nat ->
  squeeze s = ch "/" :: squeeze (drop (run is_slash s) s).
Proof.
  induction s as [|c s IH]; cbn [run squeeze]; [lia|].
  destruct (is_slash c) eqn:Hc; [|lia]. intros _.
  apply N.eqb_eq in Hc. subst c.
  rewrite startsWith_slash_run. cbn [andb drop].
  destruct (run is_slash s) as [|n] eqn:En; [reflexivity|].
  cbn [Nat.leb]. rewrite IH by lia. reflexivity.
Qed.

(** The global replacement of the runs of slashes by one slash. *)
Lemma replace_slashes_loop n :
  forall aft fuel bef,
    (length aft <= n)%nat -> (length aft < fuel)%nat ->
    replace_loop fuel re_slashes
      (fun (_ : unit) r => (tt, substitution (str "/") r)) tt bef aft
    = (tt, squeeze aft).
Proof.
  induction n as [|n IH]; intros aft fuel bef Hn Hfuel.
  - destruct aft; [|simpl in Hn; lia].
    apply replace_loop_nil. rewrite slashes_match_at. reflexivity.
  - destruct aft as [|c aft'].
    { apply replace_loop_nil. rewrite slashes_match_at. reflexivity. }
    destruct fuel as [|fuel]; [lia|]. simpl in Hn, Hfuel.
    pose proof (slashes_match_at bef (c :: aft')) as Hm.
    pose proof (run_le is_slash (c :: aft')) as Hrun.
    destruct (2 <=? run is_slash (c :: aft'))%nat eqn:E.
    + apply Nat.leb_le in E.
      rewrite squeeze_run by lia.
      revert Hm E Hrun. cbn [run]. destruct (is_slash c); [|lia].
      cbn [take drop length]. intros Hm E Hrun.
      rewrite (replace_loop_here fuel re_slashes _ tt bef (c :: aft') _ c
                 (take (run is_slash aft') aft') eq_refl Hm).
      2: { cbn [after]. simpl. rewrite take_drop. reflexivity. }
      cbn [after caps]. rewrite IH by (rewrite length_drop; lia).
      reflexivity.
    + apply Nat.leb_gt in E.
      rewrite replace_loop_skip by exact Hm.
      rewrite IH by lia. cbn [squeeze].
      rewrite startsWith_slash_run. revert E. cbn [run].
      destruct (is_slash c); [|reflexivity].
      destruct (run is_slash aft'); [reflexivity | lia].
Qed.

Lemma joinPaths_squeeze paths :
  joinPaths paths = squeeze (join (str "/") paths).
Proof.
  unfold joinPaths, replace, replace_fn, replace_with.
  erewrite replace_slashes_loop; [reflexivity | reflexivity | lia].
Qed.

Lemma squeeze_head s :
  startsWith (squeeze s) (str "/") = startsWith s (str "/").
Proof.
  induction s as [|c s IH]; [reflexivity|]. cbn [squeeze].
  change (str "/") with [ch "/"] in *. rewrite (startsWith_one c).
  fold (is_slash c).
  destruct (is_slash c) eqn:Hc; cbn [andb].
  - destruct (startsWith s [ch "/"]) eqn:Hs; [exact IH|].
    rewrite startsWith_one. exact Hc.
  - rewrite startsWith_one. exact Hc.
Qed.

Lemma squeeze_no_double s : double_slash (squeeze s) = false.
Proof.
  induction s as [|c s IH]; [reflexivity|]. cbn [squeeze].
  destruct (is_slash c && startsWith s (str "/")) eqn:E; [exact IH|].
  cbn [double_slash]. rewrite squeeze_head, E, IH. reflexivity.
Qed.

Lemma squeeze_fix s : double_slash s = false -> squeeze s = s.
Proof.
  induction s as [|c s IH]; [reflexivity|]. cbn [double_slash squeeze].
  intros H. apply orb_false_iff in H as [-> H]. rewrite IH by exact H.
  reflexivity.
Qed.

Lemma double_slash_app a b : double_slash (a ++ str "//" ++ b) = true.
Proof.
  induction a as [|c a IH].
  - change (str "//" ++ b) with (ch "/" :: ch "/" :: b).
    cbn [app double_slash]. change (str "/") with [ch "/"].
    rewrite startsWith_one. reflexivity.
  - cbn [app double_slash]. rewrite IH. apply orb_true_r.
Qed.

Lemma squeeze_filter s :
  List.filter (fun c => negb (is_slash c)) (squeeze s)
  = List.filter (fun c => negb (is_slash c)) s.
Proof.
  induction s as [|c s IH]; [reflexivity|]. cbn [squeeze List.filter].
  destruct (is_slash c) eqn:Hc; cbn [andb negb].
  - destruct (startsWith s (str "/")); [exact IH|].
    cbn [List.filter]. rewrite Hc. exact IH.
  - cbn [List.filter]. rewrite Hc, IH. reflexivity.
Qed.

Lemma join_filter paths :
  List.filter (fun c => negb (is_slash c)) (join (str "/") paths)
  = List.filter (fun c => negb (is_slash c)) (concat paths).
Proof.
  induction paths as [|x [|y ys] IH].
  - reflexivity.
  - cbn [join concat]. rewrite app_nil_r. reflexivity.
  - rewrite join_cons. cbn [concat] in *.
    rewrite !List.filter_app, IH, List.filter_app. reflexivity.
Qed.

(** X3: [joinPaths] leaves no two slashes next to each other, changes
    nothing but slashes, and joining its own result again changes
    nothing. *)
Theorem joinPaths_single_slashes :
  forall paths,
    (forall a b, joinPaths paths <> a ++ str "//" ++ b)
    /\ List.filter (fun c => negb (is_slash c)) (joinPaths paths)
       = List.filter (fun c => negb (is_slash c)) (concat paths)
    /\ joinPaths [joinPaths paths] = joinPaths paths.
Proof.
  intros paths. rewrite !joinPaths_squeeze. split; [|split].
  - intros a b H. pose proof (squeeze_no_double (join (str "/") paths)) as Hd.
    rewrite H, double_slash_app in Hd. discriminate.
  - rewrite squeeze_filter. apply join_filter.
  - cbn [join]. apply squeeze_fix, squeeze_no_double.
Qed.

(** ** [stripBasename] *)

Lemma len_nonneg s : 0 <= len s.
Proof. unfold len. lia. Qed.

(** [s.slice(n)] and [s.charAt(n)] at the length of a prefix. *)
Lemma slice_app_length (pre rest : jsstring) :
  slice (pre ++ rest) (len pre) None = rest.
Proof.
  unfold slice, rel_index, len. rewrite length_app.
  destruct (Z.ltb_spec (Z.of_nat (length pre)) 0) as [H|_]; [lia|].
  rewrite Z.min_l by lia. rewrite Nat2Z.id, drop_app_length.
  apply take_ge. lia.
Qed.

Lemma charAt_app_length (pre rest : jsstring) :
  charAt (pre ++ rest) (len pre) = take 1 rest.
Proof.
  unfold charAt, len. rewrite length_app, Nat2Z.id, drop_app_length.
  destruct (Z.leb_spec 0 (Z.of_nat (length pre))) as [_|H]; [|lia].
  destruct (Z.ltb_spec (Z.of_nat (length pre))
              (Z.of_nat (length pre + length rest))) as [_|H]; [reflexivity|].
  destruct rest; [reflexivity | simpl in H; lia].
Qed.

Lemma startsWith_split s : forall p,
  startsWith s p = true -> exists rest, s = p ++ rest.
Proof.
  induction s as [|c s IH]; intros [|d p] H.
  - exists []. reflexivity.
  - discriminate.
  - eexists. reflexivity.
  - rewrite startsWith_cons in H. apply andb_true_iff in H as [Hc H].
    apply N.eqb_eq in Hc. subst d. destruct (IH p H) as [rest ->].
    exists rest. reflexivity.
Qed.

Lemma map_eq_app_split {A B} (f : A -> B) (s : list A) :
  forall (p : list A) (rest' : list B),
    map f s = map f p ++ rest' ->
    exists pre rest, s = pre ++ rest /\ map f pre = map f p.
Proof.
  induction s as [|c s IH]; intros [|d p] rest' H.
  - exists [], []. split; reflexivity.
  - discriminate.
  - exists [], (c :: s). split; reflexivity.
  - cbn [map app] in H. injection H as Hc H.
    destruct (IH p rest' H) as (pre & rest & -> & Hpre).
    exists (c :: pre), rest. cbn [map app]. rewrite Hc, Hpre.
    split; reflexivity.
Qed.

(** [stripBasename] on a pathname that starts with the basename, in
    whatever case. *)
Lemma stripBasename_app pre rest basename :
  streq basename (str "/") = false ->
  toLowerCase pre = toLowerCase basename ->
  stripBasename (pre ++ rest) basename =
  match rest with
  | [] => Some (str "/")
  | c :: _ => if (c =? ch "/")%N then Some rest else None
  end.
Proof.
  intros Hb Hpre. unfold stripBasename. rewrite Hb.
  assert (Hlen : len basename = len pre).
  { unfold len. f_equal. apply (f_equal (@length _)) in Hpre.
    unfold toLowerCase in Hpre. rewrite !length_map in Hpre. congruence. }
  rewrite <- Hpre. unfold toLowerCase at 1. rewrite map_app.
  fold (toLowerCase pre). rewrite startsWith_app. cbn [negb].
  rewrite Hlen, charAt_app_length, slice_app_length.
  destruct rest as [|c rest]; [reflexivity|].
  cbn [take truthy andb or_else]. unfold streq.
  destruct (N.eqb_spec c (ch "/")) as [->|Hc].
  - rewrite bool_decide_eq_true_2 by reflexivity. reflexivity.
  - rewrite bool_decide_eq_false_2; [reflexivity|].
    intros H. apply Hc. change (str "/") with [ch "/"] in H. congruence.
Qed.

Lemma stripBasename_some pathname basename p :
  streq basename (str "/") = false ->
  stripBasename pathname basename = Some p ->
  exists pre rest,
    pathname = pre ++ rest /\ toLowerCase pre = toLowerCase basename.
Proof.
  intros Hb. unfold stripBasename. rewrite Hb.
  destruct (startsWith _ _) eqn:Hs; [|discriminate]. intros _.
  apply startsWith_split in Hs as [rest' Hs].
  apply (map_eq_app_split to_lower pathname basename rest' Hs).
Qed.

(** X4: for a pathname and a basename of ASCII code units, and a
    basename other than [/], [stripBasename] gives a result exactly when
    the pathname is the basename, in whatever case of its letters,
    followed by nothing or by a part that starts with a slash; the
    result is that part, and [/] when there is none. *)
Theorem stripBasename_prefix :
  forall pathname basename p,
    ascii_text pathname = true ->
    ascii_text basename = true ->
    streq basename (str "/") = false ->
    (stripBasename pathname basename = Some p <->
     exists pre rest,
       pathname = pre ++ rest
       /\ toLowerCase pre = toLowerCase basename
       /\ (rest = [] /\ p = str "/"
           \/ startsWith rest (str "/") = true /\ p = rest)).
Proof.
  intros pathname basename p _ _ Hb. split.
  - intros H. destruct (stripBasename_some _ _ _ Hb H) as (pre & rest & -> & Hpre).
    exists pre, rest. split; [reflexivity|]. split; [exact Hpre|].
    rewrite (stripBasename_app _ _ _ Hb Hpre) in H.
    destruct rest as [|c rest]; [left; split; congruence|].
    right. change (str "/") with [ch "/"]. rewrite startsWith_one.
    destruct (c =? ch "/")%N; [split; congruence | discriminate].
  - intros (pre & rest & -> & Hpre & Hrest).
    rewrite (stripBasename_app _ _ _ Hb Hpre).
    destruct Hrest as [[-> ->] | [Hrest ->]]; [reflexivity|].
    destruct rest as [|c rest]; [discriminate|].
    change (str "/") with [ch "/"] in Hrest. rewrite startsWith_one in Hrest.
    rewrite Hrest. reflexivity.
Qed.

Lemma stripBasename_prefix_witness :
  ascii_text (str "/app/home") = true
  /\ ascii_text (str "/App") = true
  /\ streq (str "/App") (str "/") = false
  /\ (stripBasename (str "/app/home") (str "/App") = Some (str "/home") <->
      exists pre rest,
        str "/app/home" = pre ++ rest
        /\ toLowerCase pre = toLowerCase (str "/App")
        /\ (rest = [] /\ str "/home" = str "/"
            \/ startsWith rest (str "/") = true /\ str "/home" = rest)).
Proof.
  split; [reflexivity|]. split; [reflexivity|]. split; [reflexivity|].
  apply (stripBasename_prefix (str "/app/home") (str "/App") (str "/home"));
    reflexivity.
Defined.

Lemma startsWith_slash_cons rest :
  startsWith (ch "/" :: rest) (str "/") = true.
Proof. change (str "/") with [ch "/"]. rewrite startsWith_one. reflexivity. Qed.

(** What [stripBasename] gives starts with a slash, when the pathname
    does. *)
Lemma stripBasename_absolute pathname basename p :
  startsWith pathname (str "/") = true ->
  stripBasename pathname basename = Some p ->
  startsWith p (str "/") = true.
Proof.
  intros Hp H. destruct (streq basename (str "/")) eqn:Hb.
  - unfold stripBasename in H. rewrite Hb in H. congruence.
  - destruct (stripBasename_some _ _ _ Hb H) as (pre & rest & -> & Hpre).
    rewrite (stripBasename_app _ _ _ Hb Hpre) in H.
    destruct rest as [|c rest]; [injection H as <-; reflexivity|].
    destruct (N.eqb_spec c (ch "/")) as [->|]; [|discriminate].
    injection H as <-. apply startsWith_slash_cons.
Qed.

(** The pathname that [matchRoutes] matches starts with a slash, when
    that of the location does. *)
Lemma or_else_absolute s :
  (s = [] \/ startsWith s (str "/") = true) ->
  startsWith (or_else s (str "/")) (str "/") = true.
Proof. intros [->|H]; [reflexivity|]. destruct s; [reflexivity | exact H]. Qed.

Lemma or_else_nonempty s d : d <> [] -> or_else s d <> [].
Proof. intros Hd. destruct s; [exact Hd | discriminate]. Qed.

Lemma or_else_fix s d : s <> [] -> or_else s d = s.
Proof. destruct s; [contradiction | reflexivity]. Qed.

Lemma root_nonempty : str "/" <> [].
Proof. change (str "/") with [ch "/"]. discriminate. Qed.

Lemma stripBasename_nonempty pathname basename p :
  pathname <> [] -> stripBasename pathname basename = Some p -> p <> [].
Proof.
  intros Hp. unfold stripBasename.
  destruct (streq basename (str "/")); [congruence|].
  destruct (negb _); [discriminate|].
  destruct (_ && _); [discriminate|].
  intros H. injection H as <-. apply or_else_nonempty, root_nonempty.
Qed.

(** X5: matching under a basename is matching the pathname that
    [stripBasename] leaves, with no basename: the two calls give the
    same matches (and the same error for an invalid tree). *)
Theorem matchRoutes_under_basename :
  forall routes locationArg basename h pathname,
    requested_pathname locationArg basename = Some pathname ->
    matchRoutes routes locationArg basename h
    = matchRoutes routes (ToPath (mkPartialPath (Some pathname) None None))
        None h.
Proof.
  intros routes locationArg basename h pathname H.
  assert (Hne : pathname <> []).
  { unfold requested_pathname in H.
    apply (stripBasename_nonempty _ _ _ (or_else_nonempty _ _ root_nonempty) H). }
  unfold requested_pathname in H. unfold matchRoutes.
  rewrite H. cbn [default p_pathname].
  rewrite (or_else_fix pathname _ Hne).
  unfold stripBasename at 1. rewrite (proj2 (streq_true _ _) eq_refl).
  reflexivity.
Qed.

Lemma matchRoutes_under_basename_witness :
  requested_pathname (location_of "/app/home") (Some (str "/app"))
  = Some (str "/home")
  /\ matchRoutes [route_of_path "/home"] (location_of "/app/home")
       (Some (str "/app")) []
     = matchRoutes [route_of_path "/home"]
         (ToPath (mkPartialPath (Some (str "/home")) None None)) None [].
Proof.
  split; [reflexivity|].
  apply (matchRoutes_under_basename [route_of_path "/home"]
           (location_of "/app/home") (Some (str "/app")) [] (str "/home")).
  reflexivity.
Defined.

(** ** Resolved pathnames are absolute *)

Lemma startsWith_app_l s t p :
  startsWith s p = true -> startsWith (s ++ t) p = true.
Proof.
  intros H. apply startsWith_split in H as [rest ->].
  rewrite <- app_assoc. apply startsWith_app.
Qed.

Lemma strip_trailing_slashes_absolute s :
  startsWith s (str "/") = true ->
  strip_trailing_slashes s = []
  \/ exists t, strip_trailing_slashes s = ch "/" :: t.
Proof.
  intros H. destruct (strip_trailing_slashes_split s) as (sl & _ & Hs).
  destruct (strip_trailing_slashes s) as [|c t]; [left; reflexivity|].
  right. exists t. rewrite Hs in H. change (str "/") with [ch "/"] in H.
  cbn [app] in H. rewrite startsWith_one in H. apply N.eqb_eq in H.
  rewrite H. reflexivity.
Qed.

Lemma pop_keeps_root (tl : list jsstring) :
  (if 1 <? len_list ([] :: tl) then removelast ([] :: tl) else [] :: tl)
  = [] :: removelast tl.
Proof.
  destruct tl as [|x tl]; [reflexivity|].
  unfold len_list. cbn [length].
  match goal with |- context [1 <? ?n] => destruct (Z.ltb_spec 1 n) end;
    [reflexivity | lia].
Qed.

(** The step of the [forEach] of [resolvePathname] keeps the root
    segment at the head of [segments]. *)
Lemma resolvePathname_fold_root relativeSegments : forall segments,
  (exists tl, segments = [] :: tl) ->
  exists tl',
    fold_left
      (fun segments segment =>
         if streq segment (str "..") then
           if 1 <? len_list segments then removelast segments else segments
         else if negb (streq segment (str ".")) then segments ++ [segment]
         else segments)
      relativeSegments segments
    = [] :: tl'.
Proof.
  induction relativeSegments as [|seg rest IH]; intros segments [tl ->];
    [eauto|].
  cbn [fold_left]. apply IH. destruct (streq seg (str "..")).
  - exists (removelast tl). apply pop_keeps_root.
  - destruct (negb (streq seg (str "."))); eexists; reflexivity.
Qed.

Lemma resolvePathname_absolute relativePath fromPathname :
  startsWith fromPathname (str "/") = true ->
  startsWith (resolvePathname relativePath fromPathname) (str "/") = true.
Proof.
  intros H. unfold resolvePathname. rewrite replace_trailing_slashes.
  assert (Hseg : exists tl,
    split (ch "/") (strip_trailing_slashes fromPathname) = [] :: tl).
  { destruct (strip_trailing_slashes_absolute _ H) as [-> | [t ->]].
    - exists []. reflexivity.
    - exists (split (ch "/") t). cbn [split]. rewrite N.eqb_refl. reflexivity. }
  destruct (resolvePathname_fold_root (split (ch "/") relativePath) _ Hseg)
    as [tl' ->].
  destruct tl' as [|x tl']; [reflexivity|].
  match goal with |- context [if ?c then _ else _] => destruct c end;
    [|reflexivity].
  rewrite join_cons. apply startsWith_slash_cons.
Qed.

Lemma resolvePath_absolute to fromPathname :
  startsWith fromPathname (str "/") = true ->
  startsWith (path_pathname (resolvePath to (Some fromPathname))) (str "/")
  = true.
Proof.
  intros H. unfold resolvePath. cbn [default path_pathname].
  destruct (p_pathname _) as [tp|]; [|exact H].
  destruct (truthy tp); [|exact H].
  destruct (startsWith tp (str "/")) eqn:Htp; [exact Htp|].
  apply resolvePathname_absolute, H.
Qed.

Lemma route_base_absolute routePathnames k :
  forallb (fun r => startsWith r (str "/")) routePathnames = true ->
  startsWith (route_base routePathnames k) (str "/") = true.
Proof.
  intros H. unfold route_base.
  destruct (Nat.ltb_spec k (length routePathnames)) as [Hk|_]; [|reflexivity].
  match goal with |- context [default [] ?o] =>
    destruct o as [r|] eqn:Hr
  end.
  - cbn [default]. rewrite forallb_forall in H. apply H.
    apply list_elem_of_In. eapply list_elem_of_lookup_2, Hr.
  - destruct (lookup_lt_is_Some_2 routePathnames
                (length routePathnames - 1 - k)%nat) as [r Hr']; [lia|].
    pose proof (eq_trans (eq_sym Hr) Hr') as Hno. discriminate Hno.
Qed.

(** X6: [resolveTo] gives an absolute pathname: when the route
    pathnames and the pathname of the location start with a slash, so
    does the resolved pathname, whatever the target; no run of [..]
    climbs above the root. *)
Theorem resolveTo_absolute :
  forall toArg routePathnames locationPathname,
    forallb (fun r => startsWith r (str "/")) routePathnames = true ->
    startsWith locationPathname (str "/") = true ->
    startsWith
      (path_pathname (resolveTo toArg routePathnames locationPathname))
      (str "/") = true.
Proof.
  intros toArg rps loc Hrps Hloc. unfold resolveTo.
  set (to := match toArg with ToString s => parsePath s | ToPath p => p end).
  assert (Hfinal : forall (c : bool) (path : Path),
    startsWith (path_pathname path) (str "/") = true ->
    startsWith
      (path_pathname
         (if c
          then mkPath (path_pathname path ++ str "/") (path_search path)
                 (path_hash path)
          else path)) (str "/") = true).
  { intros [|] path Hp; [|exact Hp]. cbn [path_pathname].
    apply startsWith_app_l, Hp. }
  pose proof (route_base_absolute rps 0 Hrps) as H0.
  rewrite <- route_base_index in H0. change (Z.of_nat 0) with 0 in H0.
  rewrite Z.sub_0_r in H0.
  destruct (is_empty_string toArg || bool_decide (p_pathname to = Some [])).
  - change (startsWith (str "/") (str "..")) with false. cbv iota.
    apply Hfinal, resolvePath_absolute, H0.
  - destruct (p_pathname to) as [tp|].
    + destruct (startsWith tp (str "..")).
      * rewrite shift_parents_spec, route_base_index.
        apply Hfinal, resolvePath_absolute, route_base_absolute, Hrps.
      * apply Hfinal, resolvePath_absolute, H0.
    + apply resolvePath_absolute, Hloc.
Qed.

Lemma resolveTo_absolute_witness :
  forallb (fun r => startsWith r (str "/")) [str "/users"; str "/users/5"]
  = true
  /\ startsWith (str "/users/5") (str "/") = true
  /\ startsWith
       (path_pathname
          (resolveTo (ToPath (mkPartialPath (Some (str "../../../x")) None None))
             [str "/users"; str "/users/5"] (str "/users/5")))
       (str "/") = true.
Proof.
  split; [reflexivity|]. split; [reflexivity|].
  apply (resolveTo_absolute
           (ToPath (mkPartialPath (Some (str "../../../x")) None None))
           [str "/users"; str "/users/5"] (str "/users/5")); reflexivity.
Defined.

(** X7: the path that [resolvePath] gives is well formed: against a base
    that starts with a slash, which the omitted base does, the pathname
    starts with a slash; the search is empty or a [?] and more, the
    hash is empty or a [#] and more. *)
Theorem resolvePath_well_formed :
  forall to fromPathname,
    startsWith (default (str "/") fromPathname) (str "/") = true ->
    startsWith (path_pathname (resolvePath to fromPathname)) (str "/") = true
    /\ (path_search (resolvePath to fromPathname) = []
        \/ exists c rest,
             path_search (resolvePath to fromPathname) = ch "?" :: c :: rest)
    /\ (path_hash (resolvePath to fromPathname) = []
        \/ exists c rest,
             path_hash (resolvePath to fromPathname) = ch "#" :: c :: rest).
Proof.
  intros to fromPathname H. split; [|split].
  - destruct fromPathname as [from|]; [exact (resolvePath_absolute to from H)|].
    exact (resolvePath_absolute to (str "/") H).
  - unfold resolvePath. cbn [path_search].
    exact (proj1 (normalize_mark_form (ch "?") _)).
  - unfold resolvePath. cbn [path_hash].
    exact (proj1 (normalize_mark_form (ch "#") _)).
Qed.

Lemma resolvePath_well_formed_witness :
  startsWith (default (str "/") None) (str "/") = true
  /\ startsWith
       (path_pathname
          (resolvePath (ToPath (mkPartialPath (Some (str "../a")) (Some (str "q=1")) None))
             None)) (str "/") = true.
Proof.
  split; [reflexivity|].
  apply (resolvePath_well_formed
           (ToPath (mkPartialPath (Some (str "../a")) (Some (str "q=1")) None))
           None).
  reflexivity.
Defined.

(** X8: a target pathname that ends with a slash, the root apart,
    resolves to a pathname that ends with a slash: [resolveTo] puts
    back the slash that the resolution dropped. *)
Theorem resolveTo_keeps_trailing_slash :
  forall p search hash routePathnames locationPathname,
    streq p (str "/") = false ->
    endsWith p (str "/") = true ->
    endsWith
      (path_pathname
         (resolveTo (ToPath (mkPartialPath (Some p) search hash))
            routePathnames locationPathname))
      (str "/") = true.
Proof.
  intros p search hash rps loc Hroot Hends. unfold resolveTo.
  cbn [is_empty_string p_pathname p_search p_hash orb].
  destruct p as [|c p']; [discriminate|].
  rewrite bool_decide_eq_false_2 by discriminate.
  set (p := c :: p') in *. rewrite Hroot, Hends.
  change (truthy p) with true. cbn [andb negb].
  match goal with |- context [let '(to, from) := ?X in _] =>
    destruct X as [to from]
  end.
  destruct (endsWith (path_pathname (resolvePath (ToPath to) (Some from)))
              (str "/")) eqn:E; cbn [negb]; [exact E|].
  cbn [path_pathname]. change (str "/") with [ch "/"].
  apply endsWith_char. eauto.
Qed.

Lemma resolveTo_keeps_trailing_slash_witness :
  streq (str "../a/") (str "/") = false
  /\ endsWith (str "../a/") (str "/") = true
  /\ endsWith
       (path_pathname
          (resolveTo (ToPath (mkPartialPath (Some (str "../a/")) None None))
             [str "/users"; str "/users/5"] (str "/users/5")))
       (str "/") = true.
Proof.
  split; [reflexivity|]. split; [reflexivity|].
  apply (resolveTo_keeps_trailing_slash (str "../a/") None None
           [str "/users"; str "/users/5"] (str "/users/5")); reflexivity.
Defined.

(** X9: a target pathname that starts with a slash is the resolved
    pathname as it stands, whatever the route pathnames and the
    location are. *)
Theorem resolveTo_absolute_target :
  forall p search hash routePathnames locationPathname,
    startsWith p (str "/") = true ->
    path_pathname
      (resolveTo (ToPath (mkPartialPath (Some p) search hash))
         routePathnames locationPathname) = p.
Proof.
  intros p search hash rps loc Hp. unfold resolveTo.
  cbn [is_empty_string p_pathname p_search p_hash orb].
  destruct p as [|c p']; [discriminate|].
  rewrite bool_decide_eq_false_2 by discriminate.
  change (str "/") with [ch "/"] in Hp. rewrite startsWith_one in Hp.
  apply N.eqb_eq in Hp. subst c.
  pose proof (startsWith_slash_cons p') as Hs.
  set (p := ch "/" :: p') in *.
  change (startsWith p (str "..")) with false. cbv iota.
  unfold resolvePath. cbn [p_pathname default path_pathname].
  change (truthy p) with true. cbv iota. rewrite Hs.
  destruct (endsWith p (str "/")), (streq p (str "/")); reflexivity.
Qed.

Lemma resolveTo_absolute_target_witness :
  startsWith (str "/about") (str "/") = true
  /\ path_pathname
       (resolveTo (ToPath (mkPartialPath (Some (str "/about")) None None))
          [str "/users"; str "/users/5"] (str "/users/5")) = str "/about".
Proof.
  split; [reflexivity|].
  apply (resolveTo_absolute_target (str "/about") None None
           [str "/users"; str "/users/5"] (str "/users/5")); reflexivity.
Defined.

(** X10: a target for which [getToPathname] has no pathname, string or
    object, resolves against the location: the pathname that
    [resolveTo] gives is that of the location. *)
Theorem resolveTo_without_pathname :
  forall toArg routePathnames locationPathname,
    getToPathname toArg = None ->
    path_pathname (resolveTo toArg routePathnames locationPathname)
    = locationPathname.
Proof.
  intros toArg rps loc H. unfold resolveTo.
  set (to := match toArg with ToString s => parsePath s | ToPath p => p end).
  assert (Hto : is_empty_string toArg = false /\ p_pathname to = None).
  { unfold to. destruct toArg as [s|p]; unfold getToPathname in H.
    - destruct (is_empty_string (ToString s)); [discriminate|]. auto.
    - cbn [is_empty_string]. case_bool_decide; [discriminate|]. auto. }
  destruct Hto as [He Hp]. rewrite He, Hp.
  rewrite bool_decide_eq_false_2 by discriminate. cbn [orb].
  unfold resolvePath. cbn [default path_pathname]. rewrite Hp. reflexivity.
Qed.

Lemma resolveTo_without_pathname_witness :
  getToPathname (ToPath (mkPartialPath None (Some (str "?q=1")) None)) = None
  /\ path_pathname
       (resolveTo (ToPath (mkPartialPath None (Some (str "?q=1")) None))
          [str "/users"] (str "/users/5")) = str "/users/5".
Proof.
  split; [reflexivity|].
  apply (resolveTo_without_pathname
           (ToPath (mkPartialPath None (Some (str "?q=1")) None))
           [str "/users"] (str "/users/5")); reflexivity.
Defined.

(** ** The score, segment by segment *)

Lemma split_app_sep sep p q :
  split sep (p ++ sep :: q) = split sep p ++ split sep q.
Proof.
  induction p as [|c p IH]; cbn [app split].
  - rewrite N.eqb_refl. reflexivity.
  - rewrite IH. destruct (c =? sep)%N; [reflexivity|].
    pose proof (split_nonempty sep p) as Hne.
    destruct (split sep p); [contradiction | reflexivity].
Qed.

Lemma split_no_sep sep s :
  forallb (fun c => negb (c =? sep)%N) s = true -> split sep s = [s].
Proof.
  induction s as [|c s IH]; cbn [forallb split]; [reflexivity|].
  intros H. apply andb_true_iff in H as [Hc H]. apply negb_true_iff in Hc.
  rewrite Hc, IH by exact H. reflexivity.
Qed.

(** The score of a list of segments, as [computeScore] adds it up. *)
Lemma computeScore_sum path index :
  computeScore path index =
  len_list (split (ch "/") path)
  + (if existsb isSplat (split (ch "/") path) then -2 else 0)
  + (if index then 2 else 0)
  + foldr Z.add 0
      (map segment_value
         (List.filter (fun s => negb (isSplat s)) (split (ch "/") path))).
Proof.
  unfold computeScore. set (segments := split (ch "/") path).
  rewrite fold_left_add.
  assert (Hf : forall l : list jsstring,
    map (fun x => if test paramRe x then dynamicSegmentValue
                  else if streq x [] then emptySegmentValue
                  else staticSegmentValue)
      (filter (fun s => negb (isSplat s)) l)
    = map segment_value (List.filter (fun s => negb (isSplat s)) l)).
  { induction l as [|s l IH]; [reflexivity|].
    cbn [filter list_filter List.filter].
    destruct (isSplat s) eqn:Es; cbn [negb].
    - destruct (decide _) as [Hd|_]; [destruct Hd|]. exact IH.
    - destruct (decide _) as [_|Hd]; [|destruct Hd; exact I].
      cbn [map]. f_equal; [|exact IH]. rewrite test_paramRe.
      unfold segment_value, streq. destruct (is_param_form s); [reflexivity|].
      destruct s; reflexivity. }
  rewrite Hf. unfold splatPenalty, indexRouteValue.
  destruct (existsb isSplat segments), index; lia.
Qed.

Lemma foldr_add_snoc l x : foldr Z.add 0 (l ++ [x]) = foldr Z.add 0 l + x.
Proof. induction l as [|y l IH]; cbn [app foldr]; lia. Qed.

(** X11: the score is added up segment by segment.  A further segment
    that is not a splat adds 1 and its own value: 11 for a static
    segment, 4 for a [:name], 2 for an empty one; a further splat adds
    1 and, when it is the first splat of the path, the penalty of 2. *)
Theorem computeScore_by_segment :
  (forall path seg index,
      forallb (fun c => negb (c =? ch "/")%N) seg = true ->
      isSplat seg = false ->
      computeScore (path ++ str "/" ++ seg) index
      = computeScore path index + 1 + segment_value seg)
  /\ (forall path index,
        computeScore (path ++ str "/*") index
        = computeScore path index
          + (if existsb isSplat (split (ch "/") path) then 1 else -1)).
Proof.
  split.
  - intros path seg index Hseg Hsplat. rewrite !computeScore_sum.
    change (str "/" ++ seg) with (ch "/" :: seg).
    rewrite split_app_sep, (split_no_sep _ _ Hseg).
    rewrite existsb_app, List.filter_app. cbn [existsb List.filter].
    rewrite Hsplat, orb_false_r. cbn [negb].
    rewrite map_app. cbn [map]. rewrite foldr_add_snoc.
    unfold len_list. rewrite length_app. cbn [length]. lia.
  - intros path index. rewrite !computeScore_sum.
    change (str "/*") with (ch "/" :: str "*").
    rewrite split_app_sep. change (split (ch "/") (str "*")) with [str "*"].
    rewrite existsb_app, List.filter_app. cbn [existsb List.filter].
    change (isSplat (str "*")) with true. cbn [negb orb].
    rewrite orb_true_r, app_nil_r. unfold len_list. rewrite length_app.
    cbn [length]. destruct (existsb isSplat (split (ch "/") path)); lia.
Qed.

Lemma computeScore_by_segment_witness :
  forallb (fun c => negb (c =? ch "/")%N) (str ":id") = true
  /\ isSplat (str ":id") = false
  /\ computeScore (str "/users" ++ str "/" ++ str ":id") false
     = computeScore (str "/users") false + 1 + segment_value (str ":id").
Proof.
  split; [reflexivity|]. split; [reflexivity|].
  apply (proj1 computeScore_by_segment (str "/users") (str ":id") false);
    reflexivity.
Defined.

(** ** The branches of a tree *)

Lemma not_below_sibling pm pa pb a b i j ra rb :
  grown ra i pm pa a -> grown rb j pm pb b -> i <> j -> ~ below b a.
Proof.
  intros (ma & resta & Ha & Hia & _) (mb & restb & Hb & Hib & _) Hij
    (tail & _ & Ht).
  rewrite Ha, Hb, <- app_assoc in Ht. apply app_inv_head in Ht.
  cbn [app] in Ht. injection Ht as Hm _. subst mb. congruence.
Qed.

Lemma forEach_grows l pm path :
  Forall (fun r => forall index branches parentsMeta parentPath,
            flatten_grows (flattenRoute r index branches parentsMeta parentPath)
              branches (grown r index parentsMeta parentPath)
              (count_branches r)) l ->
  forall i0 branches,
    flatten_grows
      (forEach (fun child i bs => flattenRoute child i bs pm path)
         l i0 branches)
      branches
      (fun b => exists j child,
                  l !! j = Some child /\ grown child (i0 + j) pm path b)
      (list_sum (map count_branches l)).
Proof.
  induction 1 as [|r l Hr Hl IH]; intros i0 branches bs' Hrun; simpl in Hrun.
  - injection Hrun as <-. exists []. rewrite app_nil_r.
    repeat split; constructor.
  - specialize (Hr i0 branches pm path).
    destruct (flattenRoute r i0 branches pm path) as [bs1|e];
      [|discriminate].
    destruct (Hr bs1 eq_refl) as (new1 & -> & Hnew1 & Hsort1 & Hlen1).
    cbn [mbind result_bind] in Hrun.
    destruct (IH _ _ _ Hrun) as (new2 & -> & Hnew2 & Hsort2 & Hlen2).
    exists (new1 ++ new2). rewrite app_assoc.
    split; [reflexivity|]. split; [|split].
    + apply Forall_app. split.
      * eapply Forall_impl; [exact Hnew1|].
        intros b Hb. exists 0%nat, r. split; [reflexivity|].
        replace (i0 + 0)%nat with i0 by lia. exact Hb.
      * eapply Forall_impl; [exact Hnew2|].
        intros b (j & child & Hj & Hb). exists (S j), child.
        split; [exact Hj|].
        replace (i0 + S j)%nat with (S i0 + j)%nat by lia. exact Hb.
    + apply StronglySorted_app. split; [|split; assumption].
      intros a b Ha Hb.
      rewrite Forall_forall in Hnew1, Hnew2.
      destruct (Hnew2 b Hb) as (j & child & _ & Hgb).
      eapply not_below_sibling; [exact (Hnew1 a Ha) | exact Hgb | lia].
    + rewrite length_app, Hlen1, Hlen2. reflexivity.
Qed.

Lemma flattenRoute_rest_grows cs children idx path id index branches
    parentsMeta parentPath rel :
  Forall (fun r => forall index branches parentsMeta parentPath,
            flatten_grows (flattenRoute r index branches parentsMeta parentPath)
              branches (grown r index parentsMeta parentPath)
              (count_branches r))
    children ->
  flatten_grows
    (branches1 ←
       (match children with
        | [] => Ok branches
        | _ :: _ =>
            _ ← invariant (negb idx)
                  (index_children_message (joinPaths [parentPath; rel]));
            forEach
              (fun child i bs =>
                 flattenRoute child i bs
                   (parentsMeta ++
                      [mkRouteMeta rel cs index
                         (mkRoute cs children idx path id)])
                   (joinPaths [parentPath; rel]))
              children 0%nat branches
        end);
     if bool_decide (path = None) && negb idx
     then Ok branches1
     else Ok (branches1 ++
                [mkRouteBranch (joinPaths [parentPath; rel])
                   (computeScore (joinPaths [parentPath; rel]) idx)
                   (parentsMeta ++
                      [mkRouteMeta rel cs index
                         (mkRoute cs children idx path id)])]))
    branches
    (grown (mkRoute cs children idx path id) index parentsMeta parentPath)
    (count_branches (mkRoute cs children idx path id)).
Proof.
  intros IH bs' Hrun.
  set (r := mkRoute cs children idx path id) in *.
  set (meta := mkRouteMeta rel cs index r) in *.
  set (full := joinPaths [parentPath; rel]) in *.
  assert (Hkids : forall mid,
    (match children with
     | [] => Ok branches
     | _ :: _ =>
         _ ← invariant (negb idx) (index_children_message full);
         forEach (fun child i bs => flattenRoute child i bs (parentsMeta ++ [meta]) full)
           children 0%nat branches
     end) = Ok mid ->
    exists new, mid = branches ++ new
      /\ Forall (fun b => exists j child,
                   children !! j = Some child
                   /\ grown child j (parentsMeta ++ [meta]) full b) new
      /\ StronglySorted (fun a b => ~ below b a) new
      /\ length new = list_sum (map count_branches children)).
  { intros mid Hmid. destruct children as [|c l] eqn:Ec.
    - injection Hmid as <-. exists []. rewrite app_nil_r.
      repeat split; constructor.
    - destruct idx; [discriminate|]. cbn [negb invariant mbind result_bind] in Hmid.
      exact (forEach_grows (c :: l) (parentsMeta ++ [meta]) full IH
               0%nat branches mid Hmid). }
  match type of Hrun with
  | context [match children with [] => _ | _ :: _ => ?k end] =>
      destruct (match children with [] => Ok branches | _ :: _ => k end)
        as [mid|e] eqn:Hmid; [|discriminate]
  end.
  destruct (Hkids mid eq_refl) as (new & -> & Hnew & Hsort & Hlen).
  cbn [mbind result_bind] in Hrun.
  assert (Hnew' : Forall (grown r index parentsMeta parentPath) new).
  { eapply Forall_impl; [exact Hnew|].
    intros b (j & child & Hj & mc & rc & Hb & Hic & Hrc & Hchain & Hend & Hpath).
    exists meta, (mc :: rc). rewrite Hb, <- app_assoc.
    split; [reflexivity|]. split; [reflexivity|]. split; [reflexivity|].
    split; [|split; [exact Hend | exact Hpath]]. cbn [meta_chain].
    rewrite Hic, Hrc. split; [exact Hj | exact Hchain]. }
  assert (Hcount : count_branches r
    = (list_sum (map count_branches children)
       + (if bool_decide (path = None) && negb idx then 0 else 1))%nat).
  { unfold r. cbn [count_branches route_children]. unfold can_end.
    cbn [route_path route_index]. destruct (_ && _); reflexivity. }
  rewrite Hcount.
  destruct (bool_decide (path = None) && negb idx) eqn:Hend.
  - injection Hrun as <-. exists new. rewrite Nat.add_0_r. auto.
  - injection Hrun as <-. rewrite <- app_assoc. eexists. split; [reflexivity|].
    split; [|split].
    + apply Forall_app. split; [exact Hnew'|].
      constructor; [|constructor]. exists meta, [].
      cbn [routesMeta]. split; [reflexivity|]. split; [reflexivity|].
      split; [reflexivity|]. split; [exact I|]. split; [|reflexivity].
      exists meta. cbn [routesMeta score branch_path]. rewrite last_snoc.
      split; [reflexivity|]. unfold can_end.
      cbn [route meta route_path route_index r]. rewrite Hend.
      split; reflexivity.
    + apply StronglySorted_app. split; [|split; [exact Hsort | repeat constructor]].
      intros a b Ha Hb. apply list_elem_of_singleton in Hb. subst b.
      rewrite Forall_forall in Hnew.
      destruct (Hnew a Ha) as (j & child & _ & mc & rc & Hia & _).
      intros (tail & _ & Ht). cbn [routesMeta] in Ht. rewrite Hia in Ht.
      apply (f_equal (@length _)) in Ht. rewrite !length_app in Ht.
      cbn [length] in Ht. lia.
    + rewrite length_app, Hlen. reflexivity.
Qed.

Lemma flattenRoute_grows r :
  forall index branches parentsMeta parentPath,
    flatten_grows (flattenRoute r index branches parentsMeta parentPath)
      branches (grown r index parentsMeta parentPath) (count_branches r).
Proof.
  induction r as [cs children idx path id IH] using RouteObject_nested_ind.
  intros index branches parentsMeta parentPath bs' Hrun.
  cbn [flattenRoute route_path route_children route_index
       route_caseSensitive] in Hrun.
  destruct (startsWith (default [] path) (str "/")).
  - destruct (startsWith (default [] path) parentPath); [|discriminate].
    cbn [invariant mbind result_bind] in Hrun.
    exact (flattenRoute_rest_grows _ _ _ _ _ _ _ _ _ _ IH bs' Hrun).
  - cbn [mbind result_bind] in Hrun.
    exact (flattenRoute_rest_grows _ _ _ _ _ _ _ _ _ _ IH bs' Hrun).
Qed.

Lemma flattenRoutes_grows routes branches :
  flattenRoutes routes [] [] [] = Ok branches ->
  Forall (fun b => exists j child,
                     routes !! j = Some child /\ grown child j [] [] b)
    branches
  /\ StronglySorted (fun a b => ~ below b a) branches
  /\ length branches = list_sum (map count_branches routes).
Proof.
  intros Hrun. unfold flattenRoutes in Hrun.
  apply forEach_grows in Hrun as (new & -> & Hnew & Hsort & Hlen).
  - auto.
  - apply Forall_forall. intros r _. apply flattenRoute_grows.
Qed.

Lemma grown_chain routes j child parentPath b :
  routes !! j = Some child -> grown child j [] parentPath b ->
  routesMeta b <> [] /\ meta_chain routes (routesMeta b) /\ ends_well b.
Proof.
  intros Hj (meta & rest & Hb & Hi & Hr & Hchain & Hend & _).
  cbn [app] in Hb. rewrite Hb. split; [discriminate|]. split; [|exact Hend].
  cbn [meta_chain]. rewrite Hi, Hr. split; [exact Hj | exact Hchain].
Qed.

(** X12: every branch that [flattenRoutes] gives is a chain down the
    tree, of one segment at least: the first segment is the route at
    its index among [routes], every other one the route at its index
    among the children of the segment before.  The last segment is a
    route with a path or an index route, and the score of the branch is
    computed from the path of the branch and the index flag of that
    route. *)
Theorem flattenRoutes_branch_chains :
  forall routes branches,
    flattenRoutes routes [] [] [] = Ok branches ->
    Forall (fun b => routesMeta b <> []
                     /\ meta_chain routes (routesMeta b)
                     /\ ends_well b) branches.
Proof.
  intros routes branches Hrun.
  destruct (flattenRoutes_grows _ _ Hrun) as (Hnew & _ & _).
  eapply Forall_impl; [exact Hnew|].
  intros b (j & child & Hj & Hb). exact (grown_chain _ _ _ _ _ Hj Hb).
Qed.

Lemma flattenRoutes_branch_chains_witness :
  flattenRoutes [users_route] [] [] [] = Ok users_branches
  /\ Forall (fun b => routesMeta b <> []
                      /\ meta_chain [users_route] (routesMeta b)
                      /\ ends_well b) users_branches.
Proof.
  split; [vm_compute; reflexivity|].
  apply (flattenRoutes_branch_chains [users_route] users_branches).
  vm_compute. reflexivity.
Defined.

(** X13: in the list that [flattenRoutes] gives, the routes below a
    route come before it: no branch stands before a branch that lies
    below it. *)
Theorem flattenRoutes_children_first :
  forall routes branches,
    flattenRoutes routes [] [] [] = Ok branches ->
    StronglySorted (fun a b => ~ below b a) branches.
Proof.
  intros routes branches Hrun.
  exact (proj1 (proj2 (flattenRoutes_grows _ _ Hrun))).
Qed.

Lemma flattenRoutes_children_first_witness :
  flattenRoutes [users_route] [] [] [] = Ok users_branches
  /\ StronglySorted (fun a b => ~ below b a) users_branches.
Proof.
  split; [vm_compute; reflexivity|].
  apply (flattenRoutes_children_first [users_route] users_branches).
  vm_compute. reflexivity.
Defined.

(** ** The places of the branches *)

Lemma forEach_adds_places (l : list RouteObject) (pm : list RouteMeta)
    (path : jsstring) :
  Forall (fun r => forall index branches parentsMeta parentPath,
            adds_places (flattenRoute r index branches parentsMeta parentPath)
              branches (map childrenIndex parentsMeta ++ [index])
              (fun rest => exists r', route_from r rest = Some r'
                                      /\ can_end r' = true)) l ->
  forall (i0 : nat) (branches : list RouteBranch),
    adds_places
      (forEach (fun child i bs => flattenRoute child i bs pm path)
         l i0 branches)
      branches (map childrenIndex pm)
      (fun rest => exists j rest' child r',
                     rest = (i0 + j)%nat :: rest'
                     /\ l !! j = Some child
                     /\ route_from child rest' = Some r'
                     /\ can_end r' = true).
Proof.
  induction 1 as [|r l Hr Hl IH]; intros i0 branches bs' Hrun; simpl in Hrun.
  - injection Hrun as <-. exists []. rewrite app_nil_r.
    split; [reflexivity|]. split; [constructor|].
    intros place. cbn [map]. rewrite elem_of_nil. split; [contradiction|].
    intros (rest & _ & j & rest' & child & r' & _ & Hj & _).
    rewrite lookup_nil in Hj. discriminate.
  - specialize (Hr i0 branches pm path).
    destruct (flattenRoute r i0 branches pm path) as [bs1|e];
      [|discriminate].
    destruct (Hr bs1 eq_refl) as (new1 & -> & Hdup1 & Hin1).
    cbn [mbind result_bind] in Hrun.
    destruct (IH _ _ _ Hrun) as (new2 & -> & Hdup2 & Hin2).
    exists (new1 ++ new2). rewrite app_assoc.
    split; [reflexivity|]. rewrite map_app. split.
    + apply NoDup_app. split; [exact Hdup1|]. split; [|exact Hdup2].
      intros place H1 H2.
      apply Hin1 in H1 as (rest1 & -> & _).
      apply Hin2 in H2 as (rest2 & Heq & j & rest' & _ & _ & -> & _).
      rewrite <- app_assoc in Heq. apply app_inv_head in Heq.
      cbn [app] in Heq. injection Heq as Heq _. lia.
    + intros place. rewrite elem_of_app, Hin1, Hin2. split.
      * intros [(rest & -> & r' & Hfrom & Hend)
               |(rest & -> & j & rest' & child & r' & -> & Hj & Hfrom & Hend)].
        -- exists (i0 :: rest). rewrite <- app_assoc. split; [reflexivity|].
           exists O, rest, r, r'. rewrite Nat.add_0_r. auto.
        -- eexists. split; [reflexivity|].
           exists (S j), rest', child, r'.
           replace (i0 + S j)%nat with (S i0 + j)%nat by lia. auto.
      * intros (rest & -> & j & rest' & child & r' & -> & Hj & Hfrom & Hend).
        destruct j as [|j]; cbn [lookup list_lookup] in Hj.
        -- injection Hj as <-. left. exists rest'.
           rewrite Nat.add_0_r, <- app_assoc. split; [reflexivity|]. eauto.
        -- right. eexists. split; [reflexivity|].
           exists j, rest', child, r'.
           replace (S i0 + j)%nat with (i0 + S j)%nat by lia. auto.
Qed.

Lemma flattenRoute_rest_adds_places (cs : bool) (children : list RouteObject)
    (idx : bool) (path id : option jsstring) (index : nat)
    (branches : list RouteBranch) (parentsMeta : list RouteMeta)
    (parentPath rel : jsstring) :
  Forall (fun r => forall index branches parentsMeta parentPath,
            adds_places (flattenRoute r index branches parentsMeta parentPath)
              branches (map childrenIndex parentsMeta ++ [index])
              (fun rest => exists r', route_from r rest = Some r'
                                      /\ can_end r' = true))
    children ->
  adds_places
    (branches1 ←
       (match children with
        | [] => Ok branches
        | _ :: _ =>
            _ ← invariant (negb idx)
                  (index_children_message (joinPaths [parentPath; rel]));
            forEach
              (fun child i bs =>
                 flattenRoute child i bs
                   (parentsMeta ++
                      [mkRouteMeta rel cs index
                         (mkRoute cs children idx path id)])
                   (joinPaths [parentPath; rel]))
              children 0%nat branches
        end);
     if bool_decide (path = None) && negb idx
     then Ok branches1
     else Ok (branches1 ++
                [mkRouteBranch (joinPaths [parentPath; rel])
                   (computeScore (joinPaths [parentPath; rel]) idx)
                   (parentsMeta ++
                      [mkRouteMeta rel cs index
                         (mkRoute cs children idx path id)])]))
    branches (map childrenIndex parentsMeta ++ [index])
    (fun rest => exists r',
                   route_from (mkRoute cs children idx path id) rest = Some r'
                   /\ can_end r' = true).
Proof.
  intros IH bs' Hrun.
  set (r := mkRoute cs children idx path id) in *.
  set (meta := mkRouteMeta rel cs index r) in *.
  set (full := joinPaths [parentPath; rel]) in *.
  set (prefix := map childrenIndex parentsMeta ++ [index]).
  assert (Hprefix : map childrenIndex (parentsMeta ++ [meta]) = prefix).
  { rewrite map_app. reflexivity. }
  assert (Hkids : forall mid,
    (match children with
     | [] => Ok branches
     | _ :: _ =>
         _ ← invariant (negb idx) (index_children_message full);
         forEach (fun child i bs => flattenRoute child i bs (parentsMeta ++ [meta]) full)
           children 0%nat branches
     end) = Ok mid ->
    exists new, mid = branches ++ new
      /\ NoDup (map place_of new)
      /\ forall place,
           place ∈ map place_of new
           <-> exists j rest' child r',
                 place = prefix ++ j :: rest'
                 /\ children !! j = Some child
                 /\ route_from child rest' = Some r'
                 /\ can_end r' = true).
  { intros mid Hmid. destruct children as [|c l] eqn:Ec.
    - injection Hmid as <-. exists []. rewrite app_nil_r.
      split; [reflexivity|]. split; [constructor|].
      intros place. cbn [map]. rewrite elem_of_nil. split; [contradiction|].
      intros (j & rest' & child & r' & _ & Hj & _).
      rewrite lookup_nil in Hj. discriminate.
    - destruct idx; [discriminate|]. cbn [negb invariant mbind result_bind] in Hmid.
      destruct (forEach_adds_places (c :: l) (parentsMeta ++ [meta]) full IH
                  0%nat branches mid Hmid) as (new & -> & Hdup & Hin).
      exists new. split; [reflexivity|]. split; [exact Hdup|].
      intros place. rewrite Hin, Hprefix. split.
      + intros (rest & -> & j & rest' & child & r' & -> & H). eauto 10.
      + intros (j & rest' & child & r' & -> & H).
        exists (j :: rest'). split; [reflexivity|]. eauto 10. }
  match type of Hrun with
  | context [match children with [] => _ | _ :: _ => ?k end] =>
      destruct (match children with [] => Ok branches | _ :: _ => k end)
        as [mid|e] eqn:Hmid; [|discriminate]
  end.
  destruct (Hkids mid eq_refl) as (new & -> & Hdup & Hin).
  cbn [mbind result_bind] in Hrun.
  assert (Hbelow : forall place,
    place ∈ map place_of new
    <-> exists rest, place = prefix ++ rest /\ rest <> []
                     /\ exists r', route_from r rest = Some r'
                                   /\ can_end r' = true).
  { intros place. rewrite Hin. split.
    - intros (j & rest' & child & r' & -> & Hj & Hfrom & Hend).
      exists (j :: rest'). split; [reflexivity|]. split; [discriminate|].
      exists r'. cbn [route_from r route_children]. rewrite Hj. auto.
    - intros (rest & -> & Hne & r' & Hfrom & Hend).
      destruct rest as [|j rest']; [contradiction|].
      cbn [route_from r route_children] in Hfrom.
      destruct (children !! j) as [child|] eqn:Hj; [|discriminate].
      exists j, rest', child, r'. auto. }
  destruct (bool_decide (path = None) && negb idx) eqn:Hend.
  - injection Hrun as <-. exists new. split; [reflexivity|].
    split; [exact Hdup|]. intros place. rewrite Hbelow. split.
    + intros (rest & -> & _ & H). eauto.
    + intros (rest & -> & r' & Hfrom & Hr').
      exists rest. split; [reflexivity|]. split; [|eauto].
      intros ->. cbn [route_from] in Hfrom. injection Hfrom as <-.
      unfold can_end in Hr'. cbn [r route_path route_index] in Hr'.
      rewrite Hend in Hr'. discriminate.
  - injection Hrun as <-. rewrite <- app_assoc. eexists. split; [reflexivity|].
    rewrite map_app. cbn [map place_of routesMeta]. rewrite Hprefix.
    split.
    + apply NoDup_app. split; [exact Hdup|]. split; [|apply NoDup_singleton].
      intros place H1 H2. apply list_elem_of_singleton in H2. subst place.
      apply Hbelow in H1 as (rest & Heq & Hne & _).
      rewrite <- (app_nil_r prefix) in Heq at 1. apply app_inv_head in Heq.
      congruence.
    + intros place. rewrite elem_of_app, Hbelow, list_elem_of_singleton. split.
      * intros [(rest & -> & _ & H)| ->]; [eauto|].
        exists []. rewrite app_nil_r. split; [reflexivity|].
        exists r. split; [reflexivity|]. unfold can_end.
        cbn [r route_path route_index]. rewrite Hend. reflexivity.
      * intros (rest & -> & r' & Hfrom & Hr').
        destruct rest as [|j rest']; [right; apply app_nil_r|].
        left. exists (j :: rest'). split; [reflexivity|].
        split; [discriminate|]. eauto.
Qed.

Lemma flattenRoute_adds_places r :
  forall index branches parentsMeta parentPath,
    adds_places (flattenRoute r index branches parentsMeta parentPath)
      branches (map childrenIndex parentsMeta ++ [index])
      (fun rest => exists r', route_from r rest = Some r'
                              /\ can_end r' = true).
Proof.
  induction r as [cs children idx path id IH] using RouteObject_nested_ind.
  intros index branches parentsMeta parentPath bs' Hrun.
  cbn [flattenRoute route_path route_children route_index
       route_caseSensitive] in Hrun.
  destruct (startsWith (default [] path) (str "/")).
  - destruct (startsWith (default [] path) parentPath); [|discriminate].
    cbn [invariant mbind result_bind] in Hrun.
    exact (flattenRoute_rest_adds_places _ _ _ _ _ _ _ _ _ _ IH bs' Hrun).
  - cbn [mbind result_bind] in Hrun.
    exact (flattenRoute_rest_adds_places _ _ _ _ _ _ _ _ _ _ IH bs' Hrun).
Qed.

(** The route at the place of a chain is the last route of the chain. *)
Lemma meta_chain_route_from (metas : list RouteMeta) :
  forall (r : RouteObject),
    meta_chain (route_children r) metas ->
    route_from r (map childrenIndex metas)
    = Some (default r (route <$> last metas)).
Proof.
  induction metas as [|meta metas IH]; intros r Hchain; [reflexivity|].
  cbn [meta_chain] in Hchain. destruct Hchain as [Hmeta Hchain].
  cbn [map route_from]. rewrite Hmeta, (IH _ Hchain).
  destruct metas as [|meta' metas]; [reflexivity|].
  rewrite last_cons_cons.
  destruct (last (meta' :: metas)) eqn:E; [reflexivity|].
  apply last_None in E. discriminate.
Qed.

(** X14: [flattenRoutes] gives one branch for every route of the tree
    that has a path or is an index route, and none for the others: no
    two branches end at the same place of the tree, the places where
    the branches end are the places of the routes that have a path or
    are index routes, every branch ends with the route at its place,
    and so the branches are as many as those routes. *)
Theorem flattenRoutes_one_branch_per_route :
  forall routes branches,
    flattenRoutes routes [] [] [] = Ok branches ->
    NoDup (map place_of branches)
    /\ (forall place,
          place ∈ map place_of branches
          <-> exists r, route_at routes place = Some r /\ can_end r = true)
    /\ (forall b,
          b ∈ branches ->
          route_at routes (place_of b) = route <$> last (routesMeta b))
    /\ length branches = list_sum (map count_branches routes).
Proof.
  intros routes branches Hrun.
  destruct (flattenRoutes_grows _ _ Hrun) as (Hgrown & _ & Hlen).
  unfold flattenRoutes in Hrun.
  apply forEach_adds_places in Hrun as (new & Hnew & Hdup & Hin);
    [|apply Forall_forall; intros r _; apply flattenRoute_adds_places].
  cbn [app] in Hnew. subst new.
  split; [exact Hdup|]. split; [|split; [|exact Hlen]].
  - intros place. rewrite Hin. cbn [map app]. split.
    + intros (rest & -> & j & rest' & child & r' & -> & Hj & Hfrom & Hend).
      exists r'. cbn [route_at Nat.add]. rewrite Hj. auto.
    + intros (r' & Hat & Hend). destruct place as [|j rest']; [discriminate|].
      cbn [route_at] in Hat.
      destruct (routes !! j) as [child|] eqn:Hj; [|discriminate].
      exists (j :: rest'). split; [reflexivity|].
      exists j, rest', child, r'. auto.
  - intros b Hb. rewrite Forall_forall in Hgrown.
    destruct (Hgrown b Hb)
      as (j & child & Hj & meta & rest & Hmetas & Hi & Hr & Hchain & _).
    cbn [app] in Hmetas. unfold place_of. rewrite Hmetas.
    cbn [map route_at]. rewrite Hi, Hj. subst child.
    rewrite (meta_chain_route_from _ _ Hchain).
    destruct rest as [|meta' rest]; [reflexivity|].
    rewrite last_cons_cons. destruct (last (meta' :: rest)) eqn:E; [reflexivity|].
    apply last_None in E. discriminate.
Qed.

Lemma flattenRoutes_one_branch_per_route_witness :
  flattenRoutes [users_route] [] [] [] = Ok users_branches
  /\ NoDup (map place_of users_branches)
  /\ (forall place,
        place ∈ map place_of users_branches
        <-> exists r, route_at [users_route] place = Some r
                      /\ can_end r = true)
  /\ (forall b,
        b ∈ users_branches ->
        route_at [users_route] (place_of b) = route <$> last (routesMeta b))
  /\ length users_branches = list_sum (map count_branches [users_route]).
Proof.
  split; [vm_compute; reflexivity|].
  apply (flattenRoutes_one_branch_per_route [users_route] users_branches).
  vm_compute. reflexivity.
Defined.

(** ** The routes of a match *)

Lemma meta_chain_routes metas : forall roots,
  meta_chain roots metas -> route_chain roots (map route metas).
Proof.
  induction metas as [|meta rest IH]; intros roots; cbn [meta_chain map route_chain];
    [trivial|].
  intros [Hroot Hrest]. split; [|apply IH, Hrest].
  eapply list_elem_of_lookup_2, Hroot.
Qed.

Lemma Forall2_match_route ms metas :
  Forall2 (fun m meta => match_route m = route meta) ms metas ->
  map match_route ms = map route metas.
Proof. induction 1 as [|m meta ms metas H _ IH]; cbn [map]; congruence. Qed.

Lemma rankRouteBranches_elem b branches :
  b ∈ rankRouteBranches branches -> b ∈ branches.
Proof. unfold rankRouteBranches. rewrite sort_perm. trivial. Qed.

(** X15: the matches that [matchRoutes] gives follow one chain down the
    tree: there is one at least, the route of the first is one of
    [routes], the route of every other one is a child of the route of
    the match before, and the route of the last has a path or is an
    index route. *)
Theorem matchRoutes_route_chain :
  forall routes locationArg basename h ms h',
    matchRoutes routes locationArg basename h = (Ok (Some ms), h') ->
    route_chain routes (map match_route ms)
    /\ exists m, last ms = Some m /\ can_end (match_route m) = true.
Proof.
  intros routes locationArg basename h ms h' Hrun.
  destruct (matchRoutes_some _ _ _ _ _ _ Hrun)
    as (pathname & branches & _ & Hflat & Hloop).
  apply matchRoutes_loop_result in Hloop as (l1 & b & l2 & h1 & Hb & _ & Hm);
    [|discriminate].
  assert (Hin : b ∈ branches).
  { apply rankRouteBranches_elem. rewrite Hb. set_solver. }
  destruct (flattenRoutes_grows _ _ Hflat) as (Hnew & _ & _).
  rewrite Forall_forall in Hnew. destruct (Hnew b Hin) as (j & child & Hj & Hg).
  destruct (grown_chain _ _ _ _ _ Hj Hg) as (_ & Hchain & meta & Hlast & Hend & _).
  destruct (matchRouteBranch_spec _ _ _ _ _ Hm) as (pms & _ & Hroutes & _).
  rewrite (Forall2_match_route _ _ Hroutes). split.
  - apply meta_chain_routes, Hchain.
  - pose proof (Forall2_last _ _ _ Hroutes) as Hl. rewrite Hlast in Hl.
    inversion Hl as [m meta' Hmm Hm1 Hm2|]. subst meta'.
    exists m. split; [reflexivity|]. rewrite Hmm. exact Hend.
Qed.

Lemma matchRoutes_route_chain_witness :
  matchRoutes [users_route] (location_of "/users/5") None []
  = (Ok (Some
           [mkRouteMatch 1 (str "/users") (str "/users") users_route;
            mkRouteMatch 1 (str "/users/5") (str "/users/5")
              (route_of_path ":id")]),
     [∅; {[ str "id" := str "5" ]}])
  /\ route_chain [users_route] [users_route; route_of_path ":id"].
Proof.
  split; [vm_compute; reflexivity|].
  apply (matchRoutes_route_chain [users_route] (location_of "/users/5") None []
           [mkRouteMatch 1 (str "/users") (str "/users") users_route;
            mkRouteMatch 1 (str "/users/5") (str "/users/5")
              (route_of_path ":id")]
           [∅; {[ str "id" := str "5" ]}]).
  vm_compute. reflexivity.
Defined.

(** ** The pathnames of a match *)

Lemma joinPaths_two_absolute a b :
  startsWith a (str "/") = true ->
  startsWith (joinPaths [a; b]) (str "/") = true
  /\ forall x y, joinPaths [a; b] <> x ++ str "//" ++ y.
Proof.
  intros Ha. rewrite joinPaths_squeeze. cbn [join]. split.
  - rewrite squeeze_head. apply startsWith_app_l, Ha.
  - intros x y H. pose proof (squeeze_no_double (a ++ str "/" ++ b)) as Hd.
    rewrite H, double_slash_app in Hd. discriminate.
Qed.

Lemma matchRouteBranch_loop_pathnames metas :
  forall pathname l matchedSoFar ms0 h ms h',
    startsWith matchedSoFar (str "/") = true ->
    Forall well_formed_match ms0 ->
    matchRouteBranch_loop metas pathname l matchedSoFar ms0 h
      = (Ok (Some ms), h') ->
    Forall well_formed_match ms.
Proof.
  induction metas as [|meta rest IH];
    intros pathname l mp ms0 h ms h' Hmp Hms0 Hrun; cbn [matchRouteBranch_loop] in Hrun.
  - injection Hrun as <- _. exact Hms0.
  - destruct (matchPath _ _) as [[pm|]|e]; [|discriminate|discriminate].
    refine (IH _ _ _ _ _ _ _ _ _ Hrun).
    + destruct (negb _); [|exact Hmp].
      apply (joinPaths_two_absolute _ _ Hmp).
    + apply Forall_app. split; [exact Hms0|]. constructor; [|constructor].
      destruct (joinPaths_two_absolute mp (pm_pathname pm) Hmp) as [H1 H2].
      unfold well_formed_match. cbn [match_pathname match_pathnameBase].
      rewrite normalizePathname_body.
      destruct (pattern_body_normal (joinPaths [mp; pm_pathnameBase pm]))
        as (H3 & H4 & H5 & _).
      auto.
Qed.

(** X16: the pathnames of the matches that [matchRoutes] gives are well
    formed: every [pathname] starts with a slash and has no two slashes
    in a row; every [pathnameBase] starts with exactly one slash and
    does not end with a slash unless it is the root. *)
Theorem matchRoutes_pathnames :
  forall routes locationArg basename h ms h',
    matchRoutes routes locationArg basename h = (Ok (Some ms), h') ->
    Forall well_formed_match ms.
Proof.
  intros routes locationArg basename h ms h' Hrun.
  destruct (matchRoutes_some _ _ _ _ _ _ Hrun)
    as (pathname & branches & _ & _ & Hloop).
  apply matchRoutes_loop_result in Hloop as (l1 & b & l2 & h1 & _ & _ & Hm);
    [|discriminate].
  unfold matchRouteBranch, alloc in Hm.
  eapply matchRouteBranch_loop_pathnames; [| |exact Hm]; [reflexivity|constructor].
Qed.

Lemma matchRoutes_pathnames_witness :
  matchRoutes [users_route] (location_of "/users/5/") None []
  = (Ok (Some
           [mkRouteMatch 1 (str "/users") (str "/users") users_route;
            mkRouteMatch 1 (str "/users/5/") (str "/users/5")
              (route_of_path ":id")]),
     [∅; {[ str "id" := str "5" ]}])
  /\ Forall well_formed_match
       [mkRouteMatch 1 (str "/users") (str "/users") users_route;
        mkRouteMatch 1 (str "/users/5/") (str "/users/5")
          (route_of_path ":id")].
Proof.
  split; [vm_compute; reflexivity|].
  apply (matchRoutes_pathnames [users_route] (location_of "/users/5/") None []
           [mkRouteMatch 1 (str "/users") (str "/users") users_route;
            mkRouteMatch 1 (str "/users/5/") (str "/users/5")
              (route_of_path ":id")]
           [∅; {[ str "id" := str "5" ]}]).
  vm_compute. reflexivity.
Defined.

(** ** The objects of earlier calls *)

Lemma assign_others (l : loc) (source : Params) (h : heap) :
  length (assign l source h) = length h
  /\ forall i, i <> l -> assign l source h !! i = h !! i.
Proof.
  unfold assign. destruct (h !! l) as [obj|]; [|auto]. split.
  - apply length_insert.
  - intros i Hi. apply list_lookup_insert_ne. congruence.
Qed.

Lemma matchRouteBranch_loop_others metas :
  forall (pathname : jsstring) (l : loc) (matchedSoFar : jsstring)
         (ms0 : list RouteMatch) (h : heap)
         (res : result (option (list RouteMatch))) (h' : heap),
    matchRouteBranch_loop metas pathname l matchedSoFar ms0 h = (res, h') ->
    length h' = length h /\ forall i, i <> l -> h' !! i = h !! i.
Proof.
  induction metas as [|meta rest IH];
    intros pathname l mp ms0 h res h' Hrun; cbn [matchRouteBranch_loop] in Hrun.
  - injection Hrun as _ <-. auto.
  - destruct (matchPath _ _) as [[pm|]|e].
    + destruct (IH _ _ _ _ _ _ _ Hrun) as [Hlen Hothers].
      destruct (assign_others l (pm_params pm) h) as [Hlen' Hothers'].
      split; [congruence|]. intros i Hi.
      rewrite Hothers by exact Hi. apply Hothers', Hi.
    + injection Hrun as _ <-. auto.
    + injection Hrun as _ <-. auto.
Qed.

Lemma matchRouteBranch_others (b : RouteBranch) (pathname : jsstring)
    (h : heap) (res : result (option (list RouteMatch))) (h' : heap) :
  matchRouteBranch b pathname h = (res, h') ->
  (length h <= length h')%nat
  /\ forall i, (i < length h)%nat -> h' !! i = h !! i.
Proof.
  unfold matchRouteBranch, alloc. intros Hrun.
  apply matchRouteBranch_loop_others in Hrun as [Hlen Hothers].
  rewrite length_app in Hlen. split; [lia|]. intros i Hi.
  rewrite Hothers by lia. apply lookup_app_l, Hi.
Qed.

Lemma matchRoutes_loop_others bs :
  forall (pathname : jsstring) (h : heap)
         (res : result (option (list RouteMatch))) (h' : heap),
    matchRoutes_loop bs pathname h = (res, h') ->
    (length h <= length h')%nat
    /\ forall i, (i < length h)%nat -> h' !! i = h !! i.
Proof.
  induction bs as [|b bs IH]; intros pathname h res h' Hrun;
    cbn [matchRoutes_loop] in Hrun.
  - injection Hrun as _ <-. auto.
  - destruct (matchRouteBranch b pathname h) as [r1 h1] eqn:Hb.
    destruct (matchRouteBranch_others _ _ _ _ _ Hb) as [Hlen1 Hothers1].
    assert (Hdone : (r1, h1) = (res, h') ->
      (length h <= length h')%nat
      /\ forall i, (i < length h)%nat -> h' !! i = h !! i).
    { intros H. injection H as _ <-. auto. }
    destruct r1 as [[ms|]|e]; [exact (Hdone Hrun)| |exact (Hdone Hrun)].
    destruct (IH _ _ _ _ Hrun) as [Hlen2 Hothers2].
    split; [lia|]. intros i Hi. rewrite Hothers2 by lia. apply Hothers1, Hi.
Qed.

(** X17: a call of [matchRoutes] writes to no object that was there
    before it: the params objects of the matches of earlier calls are
    as they were, whatever the call gives. *)
Theorem matchRoutes_keeps_objects :
  forall (routes : list RouteObject) (locationArg : To)
         (basename : option jsstring) (h : heap)
         (res : result (option (list RouteMatch))) (h' : heap),
    matchRoutes routes locationArg basename h = (res, h') ->
    (length h <= length h')%nat
    /\ forall l, (l < length h)%nat -> h' !! l = h !! l.
Proof.
  intros routes locationArg basename h res h' Hrun.
  unfold matchRoutes in Hrun.
  destruct (stripBasename _ _) as [pathname|].
  - destruct (flattenRoutes routes [] [] []) as [branches|e].
    + exact (matchRoutes_loop_others _ _ _ _ _ Hrun).
    + injection Hrun as _ <-. auto.
  - injection Hrun as _ <-. auto.
Qed.

Lemma matchRoutes_keeps_objects_witness :
  matchRoutes [users_route] (location_of "/users/7") None
    [∅; {[ str "id" := str "5" ]}]
  = (Ok (Some
           [mkRouteMatch 3 (str "/users") (str "/users") users_route;
            mkRouteMatch 3 (str "/users/7") (str "/users/7")
              (route_of_path ":id")]),
     [∅; {[ str "id" := str "5" ]}; ∅; {[ str "id" := str "7" ]}])
  /\ forall l, (l < 2)%nat ->
       ([∅; {[ str "id" := str "5" ]}; ∅; {[ str "id" := str "7" ]}]
          : heap) !! l
       = ([∅; {[ str "id" := str "5" ]}] : heap) !! l.
Proof.
  split; [vm_compute; reflexivity|].
  apply (matchRoutes_keeps_objects [users_route] (location_of "/users/7") None
           [∅; {[ str "id" := str "5" ]}]
           (Ok (Some
                  [mkRouteMatch 3 (str "/users") (str "/users") users_route;
                   mkRouteMatch 3 (str "/users/7") (str "/users/7")
                     (route_of_path ":id")]))
           [∅; {[ str "id" := str "5" ]}; ∅; {[ str "id" := str "7" ]}]).
  vm_compute. reflexivity.
Defined.

(** ** The matcher that [compilePath] builds *)

Lemma new_RegExp_matcher ps e icase :
  new_RegExp (str "^" ++ concat (map piece_source ps) ++ ending_source e)
    icase false
  = Some (matcher_of ps e icase).
Proof.
  unfold new_RegExp, matcher_of.
  change (str "^" ++ ?x) with (ch "^" :: x).
  change (tokenize (ch "^" :: ?x)) with (cons TBol <$> tokenize x).
  destruct e.
  - erewrite tokenize_pieces by (vm_compute; reflexivity).
    cbn [fmap option_fmap option_map mbind option_bind parse_tokens].
    rewrite parse_tokens_pieces. cbn.
    rewrite rev_app_distr, rev_involutive, Nat.add_1_r, <- app_assoc.
    reflexivity.
  - erewrite tokenize_pieces by (vm_compute; reflexivity).
    cbn [fmap option_fmap option_map mbind option_bind parse_tokens].
    rewrite parse_tokens_pieces. cbn.
    rewrite rev_app_distr, rev_involutive, Nat.add_1_r, <- app_assoc.
    reflexivity.
  - erewrite tokenize_pieces by (vm_compute; reflexivity).
    cbn [fmap option_fmap option_map mbind option_bind parse_tokens].
    rewrite parse_tokens_pieces. cbn.
    rewrite rev_app_distr, rev_involutive, Nat.add_0_r, <- app_assoc.
    reflexivity.
  - erewrite tokenize_pieces by (vm_compute; reflexivity).
    cbn [fmap option_fmap option_map mbind option_bind parse_tokens].
    rewrite parse_tokens_pieces. cbn.
    rewrite rev_app_distr, rev_involutive, Nat.add_0_r.
    reflexivity.
Qed.

Lemma token_names_escaped ps :
  token_names (concat (map escaped_piece ps)) = token_names ps.
Proof.
  induction ps as [|[c|name] ps IH]; cbn [map concat escaped_piece]; [reflexivity| |].
  - unfold escape_unit. destruct (is_special c); cbn [map app token_names]; exact IH.
  - cbn [app token_names]. rewrite IH. reflexivity.
Qed.

(** What [compilePath] gives, whatever the path: the matcher of the
    pieces of the path, and the names of its tokens. *)
Lemma compilePath_matcher path cs e :
  compilePath path cs e
  = Ok (matcher_of (pieces (pattern_text path) O)
          (ending_of path (default true e)) (negb (default false cs)),
        token_names (pieces (pattern_text path) O)
        ++ (if endsWith path (str "*") then [str "*"] else [])).
Proof.
  unfold compilePath.
  rewrite replace_leading_slashes, replace_special.
  change (replace_with re_param _ [] ?s)
    with (replace_with re_param
            (fun names r => (fun names name => (names ++ [name], group_source))
                              names (group_text r 1)) [] s).
  rewrite replace_param_pieces.
  rewrite (pieces_escape _ _ (Nat.le_refl _)).
  fold (pattern_text path).
  match goal with |- context [fold_pieces ?g [] (concat (map escaped_piece ?ps))] =>
    pose proof (fold_pieces_source ps []) as Hsrc;
    pose proof (fold_pieces_names group_source (concat (map escaped_piece ps)) [])
      as Hnames;
    destruct (fold_pieces g [] (concat (map escaped_piece ps))) as [names source];
    set (pcs := ps) in *
  end.
  cbn [fst snd app] in Hsrc, Hnames. subst source names.
  rewrite token_names_escaped.
  assert (Hre : forall en,
    new_RegExp ((str "^" ++ concat (map piece_source pcs)) ++ ending_source en)
      (negb (default false cs)) false
    = Some (matcher_of pcs en (negb (default false cs)))).
  { intros en. rewrite <- app_assoc. apply new_RegExp_matcher. }
  unfold ending_of. destruct (endsWith path (str "*")).
  - destruct (streq path (str "*") || streq path (str "/*")).
    + change (str "(.*)$") with (ending_source EndRootSplat).
      rewrite (Hre EndRootSplat). reflexivity.
    + change (str "(?:\/(.+)|\/*)$") with (ending_source EndSplat).
      rewrite (Hre EndSplat). reflexivity.
  - rewrite app_nil_r. destruct (default true e).
    + change (str "\/*$") with (ending_source EndWhole).
      rewrite (Hre EndWhole). reflexivity.
    + change (str "(?:(?=[.~-]|%[0-9A-F]{2})|\b|\/|$)")
        with (ending_source EndPrefix).
      rewrite (Hre EndPrefix). reflexivity.
Qed.

(** The tokens of a path are those of the text of its matcher. *)
Lemma run_app_stop p s t :
  forallb (fun c => negb (p c)) t = true -> run p (s ++ t) = run p s.
Proof.
  intros Ht. induction s as [|c s IH]; cbn [app run].
  - destruct t as [|d t]; [reflexivity|]. cbn [forallb] in Ht.
    apply andb_true_iff in Ht as [Hd _]. apply negb_true_iff in Hd.
    cbn [run]. rewrite Hd. reflexivity.
  - rewrite IH. reflexivity.
Qed.

Lemma token_names_no_colon t : forall k,
  forallb (fun c => negb (c =? ch ":")%N) t = true ->
  token_names (pieces t k) = [].
Proof.
  induction t as [|c t IH]; intros k Ht; [reflexivity|].
  cbn [forallb] in Ht. apply andb_true_iff in Ht as [Hc Ht].
  apply negb_true_iff in Hc. cbn [pieces].
  destruct k as [|k]; [|apply IH, Ht].
  rewrite Hc. cbn [andb token_names]. apply IH, Ht.
Qed.

Lemma token_names_app_tail t :
  forallb (fun c => negb (is_word c)) t = true ->
  forallb (fun c => negb (c =? ch ":")%N) t = true ->
  forall s k,
    token_names (pieces (s ++ t) k) = token_names (pieces s k).
Proof.
  intros Hw Hc. induction s as [|c s IH]; intros k.
  - cbn [app]. rewrite (token_names_no_colon t k Hc).
    destruct k; reflexivity.
  - cbn [app pieces]. destruct k as [|k]; [|apply IH].
    rewrite (run_app_stop is_word s t Hw).
    destruct ((c =? ch ":")%N && (1 <=? run is_word s)%nat).
    + cbn [token_names]. rewrite IH.
      rewrite take_app_le by apply run_le. reflexivity.
    + cbn [token_names]. apply IH.
Qed.

Lemma token_names_strip_leading s :
  token_names (pieces (strip_leading_slashes s) O) = token_names (pieces s O).
Proof.
  unfold strip_leading_slashes. induction s as [|c s IH]; [reflexivity|].
  cbn [run]. unfold is_slash at 1.
  destruct (N.eqb_spec c (ch "/")) as [->|Hc]; [|reflexivity].
  cbn [drop pieces]. change (ch "/" =? ch ":")%N with false.
  cbn [andb token_names]. exact IH.
Qed.

(** What [/\/*\*?$/] takes off the end of a text: slashes and
    asterisks. *)
Lemma replace_trailing_splat_tail path :
  exists t,
    path = replace re_trailing_splat [] path ++ t
    /\ forallb (fun c => (c =? ch "/")%N || (c =? ch "*")%N) t = true.
Proof.
  unfold replace. rewrite replace_fn_first by reflexivity.
  destruct (search_from re_trailing_splat [] path) as [r|] eqn:E.
  - destruct (search_from_spec _ _ _ _ E)
      as (skipped & y & Hs & Hpre & Hm & Hy & _ & _).
    rewrite trailing_splat_match_at in Hm. case_bool_decide as Hd; [|discriminate].
    injection Hm as <-. cbn [after] in Hy. rewrite <- Hy, app_nil_r in *.
    simpl in Hpre. subst skipped. cbn [substitution app].
    exists (m_0 r). split; [exact Hs|].
    rewrite <- (take_drop (run is_slash (m_0 r)) (m_0 r)), forallb_app.
    apply andb_true_iff. split.
    + pose proof (run_take is_slash (m_0 r)) as Ht.
      rewrite forallb_forall in *. intros c Hc.
      pose proof (Ht c Hc) as H1. unfold is_slash in H1. rewrite H1.
      reflexivity.
    + destruct Hd as [-> | ->]; reflexivity.
  - exists []. rewrite app_nil_r. split; reflexivity.
Qed.

Lemma pattern_text_tokens path :
  token_names (pieces (pattern_text path) O) = tokens_of path.
Proof.
  unfold pattern_text, tokens_of.
  change (str "/" ++ ?s) with (ch "/" :: s). cbn [pieces].
  change (ch "/" =? ch ":")%N with false. cbn [andb token_names].
  rewrite token_names_strip_leading.
  destruct (replace_trailing_splat_tail path) as (t & Hp & Ht).
  rewrite Hp at 2. symmetry. apply token_names_app_tail.
  - rewrite forallb_forall in *. intros c Hc. specialize (Ht c Hc).
    apply orb_true_iff in Ht as [Ht|Ht]; apply N.eqb_eq in Ht; subst c;
      reflexivity.
  - rewrite forallb_forall in *. intros c Hc. specialize (Ht c Hc).
    apply orb_true_iff in Ht as [Ht|Ht]; apply N.eqb_eq in Ht; subst c;
      reflexivity.
Qed.


(** X18: [compilePath] throws for no path: the source it builds is
    always one that the constructor of regular expressions takes.  It
    gives the names of the tokens of the path, in order, with [*] last for a
    path that ends in [*]; the matcher has one group for each name, and
    ignores case unless [caseSensitive] is true.  So [matchPath] throws
    for no pattern and no pathname. *)
Theorem compilePath_names_and_groups :
  (forall path cs e,
      exists matcher,
        compilePath path cs e
        = Ok (matcher,
              tokens_of path
              ++ (if endsWith path (str "*") then [str "*"] else []))
        /\ re_groups matcher
           = length (tokens_of path
                     ++ (if endsWith path (str "*") then [str "*"] else []))
        /\ re_ignoreCase matcher = negb (default false cs)
        /\ re_global matcher = false)
  /\ (forall pattern pathname, exists res, matchPath pattern pathname = Ok res).
Proof.
  split.
  - intros path cs e. rewrite compilePath_matcher, pattern_text_tokens.
    eexists. split; [reflexivity|]. cbn [matcher_of re_groups re_ignoreCase re_global].
    rewrite pattern_text_tokens, length_app. unfold ending_of.
    split; [|split; reflexivity]. f_equal.
    destruct (endsWith path (str "*")).
    + destruct (_ || _); reflexivity.
    + destruct (default true e); reflexivity.
  - intros pattern pathname. unfold matchPath. rewrite compilePath_matcher.
    cbn [mbind result_bind].
    destruct (exec _ pathname); [|eauto].
    destruct (matchPath_reduce _ _ _ _ _ _). eauto.
Qed.

Lemma set_property_is_Some {V} (name key : jsstring) (v : V)
    (o : gmap jsstring V) :
  is_Some (set_property name v o !! key)
  <-> is_Some (o !! key) \/ (name = key /\ key <> str "__proto__").
Proof.
  destruct (decide (name = key)) as [->|Hne].
  - unfold set_property. destruct (o !! key) as [w|] eqn:Ho.
    + rewrite lookup_insert_eq. split; [intros _; left|]; eauto.
    + destruct (streq key (str "__proto__")) eqn:Hk.
      * apply streq_true in Hk. rewrite Ho. split.
        -- intros [? H]. discriminate.
        -- intros [[? H]|[_ H]]; [discriminate | contradiction].
      * apply streq_false in Hk. rewrite lookup_insert_eq.
        split; [intros _; right|]; eauto.
  - rewrite lookup_set_property_ne by exact Hne. split; [tauto|].
    intros [H|[H _]]; [exact H | contradiction].
Qed.

Lemma matchPath_reduce_keys m0 groups names :
  forall index memo base key,
    is_Some ((matchPath_reduce m0 groups names index memo base).1 !! key)
    <-> is_Some (memo !! key) \/ (key ∈ names /\ key <> str "__proto__").
Proof.
  induction names as [|name names IH]; intros index memo base key;
    cbn [matchPath_reduce].
  - cbn [fst]. rewrite elem_of_nil. tauto.
  - rewrite IH, set_property_is_Some, elem_of_cons.
    split.
    + intros [[H|[H1 H2]]|[H1 H2]]; auto.
    + intros [H|[[H1|H1] H2]]; auto.
Qed.

(** X19: the params of a match have a value for every token of the
    path of the pattern but [__proto__], which the assignment of the
    reduce does not make a property of, and one for [*] when the path
    ends in [*], and for nothing else. *)
Theorem matchPath_params_keys :
  forall pattern pathname pm,
    matchPath pattern pathname = Ok (Some pm) ->
    forall key,
      is_Some (pm_params pm !! key)
      <-> key <> str "__proto__"
          /\ (key ∈ tokens_of (pattern_path (pattern_of pattern))
              \/ (key = str "*"
                  /\ endsWith (pattern_path (pattern_of pattern)) (str "*")
                     = true)).
Proof.
  intros pattern pathname pm Hrun key. unfold matchPath in Hrun.
  fold (pattern_of pattern) in Hrun. rewrite compilePath_matcher in Hrun.
  cbn [mbind result_bind] in Hrun.
  destruct (exec _ pathname) as [r|]; [|discriminate].
  match type of Hrun with
  | context [matchPath_reduce ?a ?b ?c ?d ?e ?f] =>
      pose proof (matchPath_reduce_keys a b c d e f key) as Hkeys;
      destruct (matchPath_reduce a b c d e f) as [params base]
  end.
  injection Hrun as <-. cbn [pm_params fst] in *.
  rewrite Hkeys, pattern_text_tokens, lookup_empty, elem_of_app.
  assert (Hstar : str "*" <> str "__proto__") by discriminate.
  destruct (endsWith _ (str "*")).
  - rewrite list_elem_of_singleton. split.
    + intros [H|[[H|H] Hp]]; [destruct H as [? H]; discriminate|tauto|tauto].
    + intros [Hp [H|[H _]]]; tauto.
  - rewrite elem_of_nil. split.
    + intros [H|[[H|H] Hp]]; [destruct H as [? H]; discriminate|tauto|tauto].
    + intros [Hp [H|[_ H]]]; [tauto|discriminate].
Qed.

Lemma matchPath_params_keys_witness :
  matchPath (PatternString (str "/users/:id/*")) (str "/users/5/a/b")
  = Ok (Some
          (mkPathMatch {[ str "id" := str "5"; str "*" := str "a/b" ]}
             (str "/users/5/a/b") (str "/users/5")
             (mkPathPattern (str "/users/:id/*") (Some false) (Some true))))
  /\ forall key,
       is_Some
         (pm_params
            (mkPathMatch {[ str "id" := str "5"; str "*" := str "a/b" ]}
               (str "/users/5/a/b") (str "/users/5")
               (mkPathPattern (str "/users/:id/*") (Some false) (Some true)))
          !! key)
       <-> key <> str "__proto__"
           /\ (key ∈ tokens_of
                     (pattern_path
                        (pattern_of (PatternString (str "/users/:id/*"))))
               \/ (key = str "*"
                   /\ endsWith
                        (pattern_path
                           (pattern_of (PatternString (str "/users/:id/*"))))
                        (str "*") = true)).
Proof.
  split; [vm_compute; reflexivity|].
  apply (matchPath_params_keys (PatternString (str "/users/:id/*"))
           (str "/users/5/a/b")).
  vm_compute. reflexivity.
Defined.

(** ** The span of a match *)

Lemma m_to_end icase ts : forall x z,
  m icase (seq_of (ts ++ [REol])) x Some = Some z -> after z = [].
Proof.
  induction ts as [|t ts IH]; intros x z H.
  - cbn [app seq_of m] in H. destruct (after x) eqn:E; [|discriminate].
    injection H as <-. exact E.
  - change ((t :: ts) ++ [REol]) with (t :: (ts ++ [REol])) in H.
    rewrite m_seq_of_cons in H.
    apply m_extends in H as (y & _ & Hy). exact (IH _ _ Hy).
Qed.

Lemma ending_terms_end e n :
  e <> EndPrefix -> exists front, ending_terms e n = front ++ [REol].
Proof.
  destruct e; intros He; [| | |contradiction]; cbn [ending_terms];
    eexists [_]; reflexivity.
Qed.

(** Where the matcher of a pattern matches: at the start of the input
    and nowhere else; and to the end of the input, unless the ending is
    that of a prefix. *)
Lemma exec_matcher_span ps e icase s r :
  exec (matcher_of ps e icase) s = Some r ->
  m_pre r = [] /\ s = m_0 r ++ m_post r /\ (e <> EndPrefix -> m_post r = []).
Proof.
  intros H. unfold exec in H.
  destruct (search_from_spec _ _ _ _ H)
    as (skipped & y & Hs & Hpre & Hm & Hy & _ & _).
  unfold match_at, matcher_of in Hm. cbn [re_ast re_ignoreCase re_groups] in Hm.
  assert (Hsk : skipped = []).
  { rewrite m_seq_of_cons in Hm. cbn [m before] in Hm.
    destruct skipped as [|c sk] using rev_ind; [reflexivity|].
    rewrite rev_app_distr in Hm. discriminate Hm. }
  subst skipped. cbn [rev app] in *. split; [exact Hpre|].
  split; [exact Hs|]. intros He.
  destruct (ending_terms_end e (length (token_names ps)) He) as [front Hfront].
  rewrite Hfront in Hm.
  change (RBol :: piece_terms ps 0 ++ front ++ [REol])
    with ((RBol :: piece_terms ps 0) ++ front ++ [REol]) in Hm.
  rewrite app_assoc in Hm.
  rewrite <- Hy. exact (m_to_end _ _ _ _ Hm).
Qed.

(** X20: a match starts where the pathname starts: the pathname is the
    matched [pathname] and a rest after it.  There is no rest when the
    pattern is matched to the end ([end] true or left out) or its path
    ends in [*]: then the whole pathname is matched. *)
Theorem matchPath_span :
  forall pattern pathname pm,
    matchPath pattern pathname = Ok (Some pm) ->
    exists rest,
      pathname = pm_pathname pm ++ rest
      /\ (default true (pattern_end (pattern_of pattern)) = true
          \/ endsWith (pattern_path (pattern_of pattern)) (str "*") = true ->
          rest = []).
Proof.
  intros pattern pathname pm Hrun. unfold matchPath in Hrun.
  fold (pattern_of pattern) in Hrun. rewrite compilePath_matcher in Hrun.
  cbn [mbind result_bind] in Hrun.
  destruct (exec _ pathname) as [r|] eqn:Hexec; [|discriminate].
  destruct (exec_matcher_span _ _ _ _ _ Hexec) as (_ & Hs & Hend).
  destruct (matchPath_reduce _ _ _ _ _ _) as [params base].
  injection Hrun as <-. cbn [pm_pathname].
  exists (m_post r). split; [exact Hs|]. intros Hcase. apply Hend.
  unfold ending_of. destruct (endsWith _ (str "*")).
  - destruct (_ || _); discriminate.
  - destruct Hcase as [-> | Hc]; discriminate.
Qed.

Lemma matchPath_span_witness :
  matchPath
    (PatternObject (mkPathPattern (str "/users") (Some false) (Some false)))
    (str "/users/5")
  = Ok (Some
          (mkPathMatch ∅ (str "/users") (str "/users")
             (mkPathPattern (str "/users") (Some false) (Some false))))
  /\ exists rest,
       str "/users/5"
       = pm_pathname
           (mkPathMatch ∅ (str "/users") (str "/users")
              (mkPathPattern (str "/users") (Some false) (Some false)))
         ++ rest
       /\ (default true
             (pattern_end
                (pattern_of
                   (PatternObject
                      (mkPathPattern (str "/users") (Some false) (Some false)))))
           = true
           \/ endsWith
                (pattern_path
                   (pattern_of
                      (PatternObject
                         (mkPathPattern (str "/users") (Some false) (Some false)))))
                (str "*") = true ->
           rest = []).
Proof.
  split; [vm_compute; reflexivity|].
  apply (matchPath_span
           (PatternObject (mkPathPattern (str "/users") (Some false) (Some false)))
           (str "/users/5")).
  vm_compute. reflexivity.
Defined.

(** ** What a token captures *)

Lemma quant_spec p mn mx bef aft cs k z :
  quant p mn mx bef aft cs k = Some z ->
  exists j,
    (mn <= j <= length aft)%nat /\ forallb p (take j aft) = true
    /\ k (MState (rev (take j aft) ++ bef) (drop j aft) cs) = Some z.
Proof.
  revert mn mx bef. induction aft as [|c aft IH]; intros mn mx bef H.
  - assert (Hs : match mn with O => k (MState bef [] cs) | S _ => None end = Some z).
    { simpl in H. destruct mx as [[|?]|]; exact H. }
    destruct mn; [|discriminate]. exists O. cbn. auto.
  - assert (Hstop : match mn with O => k (MState bef (c :: aft) cs) | S _ => None end = Some z ->
                    exists j,
                      (mn <= j <= length (c :: aft))%nat
                      /\ forallb p (take j (c :: aft)) = true
                      /\ k (MState (rev (take j (c :: aft)) ++ bef)
                              (drop j (c :: aft)) cs) = Some z).
    { intros Hs. destruct mn; [|discriminate].
      exists O. cbn. split; [lia|]. auto. }
    simpl in H.
    assert (Hgo : match (if p c then
                     match quant p (Nat.pred mn) (Nat.pred <$> mx) (c :: bef) aft cs k with
                     | Some z => Some z
                     | None => match mn with O => k (MState bef (c :: aft) cs) | S _ => None end
                     end
                   else match mn with O => k (MState bef (c :: aft) cs) | S _ => None end)
                 with Some z' => z' = z | None => False end \/
                 match mn with O => k (MState bef (c :: aft) cs) | S _ => None end = Some z).
    { destruct mx as [[|?]|]; [right; exact H | left; rewrite H; reflexivity
                              | left; rewrite H; reflexivity]. }
    destruct Hgo as [Hgo|Hs]; [|exact (Hstop Hs)].
    destruct (p c) eqn:Hp.
    + destruct (quant p (Nat.pred mn) (Nat.pred <$> mx) (c :: bef) aft cs k) as [z'|] eqn:E.
      * subst z'. apply IH in E as (j & Hj & Hall & Hk).
        exists (S j). cbn [take drop forallb rev length].
        rewrite Hp, Hall, <- app_assoc. split; [lia|]. split; [reflexivity|].
        exact Hk.
      * apply Hstop. destruct mn; [|contradiction].
        destruct (k _); [congruence | contradiction].
    + apply Hstop. destruct mn; [|contradiction].
      destruct (k _); [congruence | contradiction].
Qed.

Lemma set_mem_not_slash icase c :
  set_mem icase true [CiChar (ch "/")] c = negb (is_slash c).
Proof.
  assert (E : (canon icase (ch "/") =? canon icase c)%N = is_slash c).
  { unfold is_slash, canon. destruct icase; [|apply N.eqb_sym].
    unfold to_upper. change (is_lower (ch "/")) with false. cbv iota.
    unfold is_lower. change (ch "/") with 47%N.
    destruct (N.leb_spec 97 c); destruct (N.leb_spec c 122); cbn [andb];
      destruct (N.eqb_spec 47 (c - 32)); destruct (N.eqb_spec c 47);
      destruct (N.eqb_spec 47 c); try reflexivity; lia. }
  unfold set_mem. cbn [existsb item_mem]. rewrite orb_false_r, E.
  destruct (is_slash c); reflexivity.
Qed.

(** A term changes no capture below the indexes of its groups. *)
Lemma m_caps_below icase n r :
  groups_from n r ->
  forall x k z,
    m icase r x k = Some z ->
    exists y,
      length (caps y) = length (caps x)
      /\ (forall i, (i < n)%nat -> caps y !! i = caps x !! i)
      /\ k y = Some z.
Proof.
  induction r as [|neg items|mn mx neg items|r1 IH1 r2 IH2|r1 IH1 r2 IH2
                  |i r IH| | | |r IH]; intros Hg x k z H; simpl in H.
  - exists x. auto.
  - destruct x as [bef [|c aft] cs]; simpl in H; [discriminate|].
    destruct (set_mem icase neg items c); [|discriminate].
    eexists. split; [|split; [|exact H]]; auto.
  - destruct x as [bef aft cs]. simpl in H.
    apply quant_extends in H as (y & _ & Hc & Hk).
    exists y. cbn [caps]. rewrite Hc. auto.
  - destruct Hg as [Hg1 Hg2].
    apply (IH1 Hg1) in H as (y1 & Hl1 & Hc1 & H).
    apply (IH2 Hg2) in H as (y2 & Hl2 & Hc2 & H).
    exists y2. split; [congruence|]. split; [|exact H].
    intros j Hj. rewrite Hc2, Hc1 by exact Hj. reflexivity.
  - destruct Hg as [Hg1 Hg2]. destruct (m icase r1 x k) as [z'|] eqn:E.
    + injection H as ->. apply (IH1 Hg1), E.
    + apply (IH2 Hg2), H.
  - destruct Hg as [Hi Hg]. apply (IH Hg) in H as (y & Hl & Hc & H).
    eexists. split; [|split; [|exact H]]; cbn [caps].
    + rewrite length_insert. exact Hl.
    + intros j Hj. rewrite list_lookup_insert_ne by lia. apply Hc, Hj.
  - destruct (before x) eqn:E; [|discriminate]. exists x. auto.
  - destruct (after x) eqn:E; [|discriminate]. exists x. auto.
  - destruct (xorb _ _); [|discriminate]. exists x. auto.
  - destruct (m icase r x Some) as [y|] eqn:E; [|discriminate].
    apply (IH Hg) in E as (y' & Hl & Hc & [= ->]).
    eexists. split; [|split; [|exact H]]; cbn [caps]; assumption.
Qed.

Lemma groups_from_seq_of n ts :
  Forall (groups_from n) ts -> groups_from n (seq_of ts).
Proof.
  induction 1 as [|t ts Ht Hts IH]; [exact I|].
  destruct ts as [|t' ts]; [exact Ht|]. split; [exact Ht | exact IH].
Qed.

Lemma ending_terms_groups e n : groups_from n (seq_of (ending_terms e n)).
Proof.
  apply groups_from_seq_of.
  destruct e; cbn [ending_terms]; repeat constructor.
Qed.

(** The terms of the pieces of a path: every token captures a text of
    one code unit at least without a slash, which lies in the input,
    and the captures of other indexes stay as they are. *)
Lemma m_piece_terms icase s ps : forall n ts x k z,
  rev (before x) ++ after x = s ->
  (n + length (token_names ps) <= length (caps x))%nat ->
  m icase (seq_of (piece_terms ps n ++ ts)) x k = Some z ->
  exists y,
    length (caps y) = length (caps x)
    /\ (forall i, (i < n)%nat -> caps y !! i = caps x !! i)
    /\ (forall i, (n <= i < n + length (token_names ps))%nat ->
          exists raw,
            caps y !! i = Some (Some raw) /\ segment_text raw
            /\ part_of raw s)
    /\ m icase (seq_of ts) y k = Some z.
Proof.
  induction ps as [|[c|name] ps IH]; intros n ts x k z Hs Hlen H;
    cbn [piece_terms token_names length app] in *.
  - exists x. split; [reflexivity|]. split; [auto|]. split; [|exact H].
    intros i Hi. lia.
  - rewrite m_seq_of_cons in H. unfold lit at 1 in H. cbn [m] in H.
    destruct (after x) as [|d aft] eqn:Haft; [discriminate|].
    destruct (set_mem icase false [CiChar c] d); [|discriminate].
    apply IH in H as (y & Hl & Hc & Hg & Hk); [| |exact Hlen].
    + exists y. auto.
    + cbn [before after rev]. rewrite <- app_assoc. exact Hs.
  - rewrite m_seq_of_cons in H. cbn [m] in H.
    apply quant_spec in H as (j & Hj & Hall & H). cbn [before after caps] in H.
    apply IH in H as (y & Hl & Hc & Hg & Hk);
      [| |cbn [caps]; rewrite length_insert; lia].
    + cbn [caps] in Hl, Hc. rewrite length_insert in Hl.
      exists y. split; [exact Hl|]. split; [|split; [|exact Hk]].
      * intros i Hi. rewrite Hc by lia. apply list_lookup_insert_ne. lia.
      * intros i Hi. destruct (decide (i = n)) as [->|Hne]; [|apply Hg; lia].
        rewrite Hc by lia. rewrite list_lookup_insert_eq by lia.
        eexists. split; [reflexivity|]. unfold captured. cbn [after].
        rewrite length_drop.
        replace (length (after x) - (length (after x) - j))%nat with j by lia.
        split; [split|].
        -- intros Hnil. apply (f_equal (@length _)) in Hnil.
           rewrite length_take in Hnil. cbn [length] in Hnil. lia.
        -- rewrite forallb_forall in *. intros d Hd.
           rewrite <- set_mem_not_slash with (icase := icase). apply Hall, Hd.
        -- exists (rev (before x)), (drop j (after x)).
           rewrite take_drop. symmetry. exact Hs.
    + cbn [before after]. rewrite rev_app_distr, rev_involutive, <- app_assoc.
      rewrite take_drop. exact Hs.
Qed.

(** The captures of a match of the matcher of a pattern. *)
Lemma exec_matcher_groups ps e icase s r :
  exec (matcher_of ps e icase) s = Some r ->
  forall i, (i < length (token_names ps))%nat ->
    exists raw,
      m_groups r !! i = Some (Some raw) /\ segment_text raw /\ part_of raw s.
Proof.
  intros H i Hi. unfold exec in H.
  destruct (search_from_spec _ _ _ _ H)
    as (skipped & y & Hs & _ & Hm & _ & Hcaps & _).
  unfold match_at, matcher_of in Hm. cbn [re_ast re_ignoreCase re_groups] in Hm.
  rewrite m_seq_of_cons in Hm. cbn [m] in Hm.
  destruct (before _) eqn:Hbef; [|discriminate].
  apply (m_piece_terms _ s) in Hm as (y1 & Hl & _ & Hg & Hm);
    [| |cbn [caps]; rewrite length_replicate; lia].
  - apply (m_caps_below _ _ _ (ending_terms_groups e _)) in Hm
      as (y2 & _ & Hc & [= ->]).
    rewrite <- Hcaps, Hc by exact Hi. apply Hg. lia.
  - cbn [before after]. rewrite app_nil_r, rev_involutive. symmetry. exact Hs.
Qed.

(** ** Decoding *)

Lemma more_octets_nonempty b more : forall acc s t,
  more_octets b more acc s = Some t -> t <> [].
Proof.
  induction more as [|more IH]; intros acc s t H;
    destruct s as [|p [|h [|l s3]]]; cbn [more_octets] in H; try discriminate;
    destruct (negb (p =? ch "%")%N); try discriminate;
    destruct (hex_octet h l) as [o|]; cbn [mbind option_bind] in H;
    try discriminate.
  - destruct (utf8_code_point b (acc ++ [o])) as [v|]; cbn [option_bind] in H;
      [|discriminate].
    destruct (decodeURIComponent s3) as [t'|]; [|discriminate].
    injection H as <-. unfold utf16. destruct (v <? 65536)%N; discriminate.
  - exact (IH _ _ _ H).
Qed.

Lemma decodeURIComponent_nonempty s t :
  s <> [] -> decodeURIComponent s = Some t -> t <> [].
Proof.
  destruct s as [|c s1]; [contradiction|]. intros _ H.
  cbn [decodeURIComponent] in H.
  destruct (negb (c =? ch "%")%N).
  - destruct (decodeURIComponent s1); [|discriminate].
    injection H as <-. discriminate.
  - destruct s1 as [|h [|l s3]]; try discriminate.
    destruct (hex_octet h l) as [b|]; cbn [mbind option_bind] in H;
      [|discriminate].
    destruct (b <? 128)%N.
    + destruct (decodeURIComponent s3); [|discriminate].
      injection H as <-. discriminate.
    + destruct (utf8_length b) as [n|]; cbn [option_bind] in H; [|discriminate].
      exact (more_octets_nonempty _ _ _ _ _ H).
Qed.

Lemma safelyDecodeURIComponent_nonempty value paramName :
  value <> [] -> safelyDecodeURIComponent value paramName <> [].
Proof.
  intros Hv. unfold safelyDecodeURIComponent.
  destruct (decodeURIComponent value) as [t|] eqn:E; cbn [default];
    [exact (decodeURIComponent_nonempty _ _ Hv E) | exact Hv].
Qed.

Lemma decodeURIComponent_plain s :
  forallb (fun c => negb (c =? ch "%")%N) s = true ->
  decodeURIComponent s = Some s.
Proof.
  induction s as [|c s IH]; [reflexivity|].
  cbn [forallb decodeURIComponent]. intros H.
  apply andb_true_iff in H as [Hc H]. rewrite Hc, (IH H). reflexivity.
Qed.


(** ** The values of the tokens *)

Lemma matchPath_reduce_other m0 groups names :
  forall index memo base name,
    name ∉ names ->
    (matchPath_reduce m0 groups names index memo base).1 !! name
    = memo !! name.
Proof.
  induction names as [|n0 names IH]; intros index memo base name Hnot;
    cbn [matchPath_reduce]; [reflexivity|].
  rewrite IH by (intros H; apply Hnot; right; exact H).
  apply lookup_set_property_ne. intros ->. apply Hnot. left.
Qed.

(** The value of a name is that of the last place the name has. *)
Lemma matchPath_reduce_last m0 groups names :
  forall index memo base i name,
    names !! i = Some name ->
    (forall j, (i < j)%nat -> names !! j <> Some name) ->
    name <> str "__proto__" ->
    (matchPath_reduce m0 groups names index memo base).1 !! name
    = Some (safelyDecodeURIComponent (group_or_empty groups (index + i)) name).
Proof.
  induction names as [|n0 names IH]; intros index memo base i name Hi Hlast Hp;
    [discriminate|].
  cbn [matchPath_reduce]. destruct i as [|i]; cbn [lookup list_lookup] in Hi.
  - injection Hi as ->. rewrite matchPath_reduce_other.
    + rewrite Nat.add_0_r. apply lookup_set_property_eq, Hp.
    + intros Hin. apply list_elem_of_lookup_1 in Hin as [j Hj].
      apply (Hlast (S j)); [lia | exact Hj].
  - replace (index + S i)%nat with (S index + i)%nat by lia.
    apply IH; [exact Hi | | exact Hp].
    intros j Hj. apply (Hlast (S j)). lia.
Qed.

(** X21: in a match, every token of the path has a capture group of its
    own, in the order of the tokens; the text of the group is a part of
    the pathname, of one code unit at least and without a slash, so a
    token never takes an empty segment and never crosses a slash.  The
    value of a name other than [__proto__] is the decoded text of the
    group of its last token, and is not the empty string. *)
Theorem matchPath_token_values :
  forall pattern pathname pm,
    matchPath pattern pathname = Ok (Some pm) ->
    exists matcher names r,
      compilePath (pattern_path (pattern_of pattern))
        (pattern_caseSensitive (pattern_of pattern))
        (pattern_end (pattern_of pattern)) = Ok (matcher, names)
      /\ exec matcher pathname = Some r
      /\ forall i name,
           tokens_of (pattern_path (pattern_of pattern)) !! i = Some name ->
           exists raw,
             m_groups r !! i = Some (Some raw)
             /\ part_of raw pathname
             /\ segment_text raw
             /\ ((forall j, (i < j)%nat ->
                    tokens_of (pattern_path (pattern_of pattern)) !! j
                    <> Some name) ->
                 name <> str "__proto__" ->
                 pm_params pm !! name
                 = Some (safelyDecodeURIComponent raw name)
                 /\ safelyDecodeURIComponent raw name <> []).
Proof.
  intros pattern pathname pm Hrun. unfold matchPath in Hrun.
  fold (pattern_of pattern) in Hrun.
  pose proof (compilePath_matcher (pattern_path (pattern_of pattern))
                (pattern_caseSensitive (pattern_of pattern))
                (pattern_end (pattern_of pattern))) as Hc.
  rewrite Hc in Hrun. cbn [mbind result_bind] in Hrun.
  destruct (exec _ pathname) as [r|] eqn:Hexec; [|discriminate].
  pose proof (exec_matcher_groups _ _ _ _ _ Hexec) as Hgroups.
  rewrite pattern_text_tokens in Hgroups, Hrun.
  eexists _, _, r. split; [exact Hc|]. split; [exact Hexec|].
  intros i name Hi.
  destruct (Hgroups i (lookup_lt_Some _ _ _ Hi)) as (raw & Hraw & Hseg & Hpart).
  exists raw. split; [exact Hraw|]. split; [exact Hpart|].
  split; [exact Hseg|]. intros Hlast Hp.
  split; [|apply safelyDecodeURIComponent_nonempty, Hseg].
  assert (Hstar : name <> str "*").
  { apply (token_names_not_splat (pattern_path (pattern_of pattern))).
    apply list_elem_of_lookup_2 with i. exact Hi. }
  match type of Hrun with
  | context [matchPath_reduce ?a ?b ?c ?d ?e ?f] =>
      pose proof (matchPath_reduce_last a b c d e f i name) as Hvalue;
      destruct (matchPath_reduce a b c d e f) as [params base]
  end.
  injection Hrun as <-. cbn [pm_params fst] in *.
  rewrite Hvalue; [|apply lookup_app_l_Some; exact Hi| |exact Hp].
  - cbn [Nat.add]. unfold group_or_empty.
    match goal with |- context [mjoin ?o] =>
      replace o with (Some (Some raw)) by (symmetry; exact Hraw)
    end.
    reflexivity.
  - intros j Hj Hjn. apply lookup_app_Some in Hjn as [Hjn|[_ Hjn]].
    + exact (Hlast j Hj Hjn).
    + destruct (endsWith _ (str "*")).
      * apply list_lookup_singleton_Some in Hjn as [_ Hjn]. congruence.
      * rewrite lookup_nil in Hjn. discriminate.
Qed.

Lemma matchPath_token_values_witness :
  matchPath (PatternString (str "/users/:id")) (str "/users/a%20b")
  = Ok (Some
          (mkPathMatch {[ str "id" := str "a b" ]}
             (str "/users/a%20b") (str "/users/a%20b")
             (mkPathPattern (str "/users/:id") (Some false) (Some true))))
  /\ exists matcher names r,
       compilePath (str "/users/:id") (Some false) (Some true)
       = Ok (matcher, names)
       /\ exec matcher (str "/users/a%20b") = Some r
       /\ forall i name,
            tokens_of (str "/users/:id") !! i = Some name ->
            exists raw,
              m_groups r !! i = Some (Some raw)
              /\ part_of raw (str "/users/a%20b")
              /\ segment_text raw
              /\ ((forall j, (i < j)%nat ->
                     tokens_of (str "/users/:id") !! j <> Some name) ->
                  name <> str "__proto__" ->
                  pm_params
                    (mkPathMatch {[ str "id" := str "a b" ]}
                       (str "/users/a%20b") (str "/users/a%20b")
                       (mkPathPattern (str "/users/:id") (Some false)
                          (Some true)))
                  !! name = Some (safelyDecodeURIComponent raw name)
                  /\ safelyDecodeURIComponent raw name <> []).
Proof.
  split; [vm_compute; reflexivity|].
  apply (matchPath_token_values (PatternString (str "/users/:id"))
           (str "/users/a%20b")).
  vm_compute. reflexivity.
Defined.

(** X22: [safelyDecodeURIComponent] leaves a value without a percent
    sign as it is, and gives a text that is not empty for a value that
    is not empty, decoded or not. *)
Theorem safelyDecodeURIComponent_plain :
  (forall value paramName,
      forallb (fun c => negb (c =? ch "%")%N) value = true ->
      safelyDecodeURIComponent value paramName = value)
  /\ (forall value paramName,
        value <> [] -> safelyDecodeURIComponent value paramName <> []).
Proof.
  split.
  - intros value paramName H. unfold safelyDecodeURIComponent.
    rewrite (decodeURIComponent_plain _ H). reflexivity.
  - exact safelyDecodeURIComponent_nonempty.
Qed.

Lemma safelyDecodeURIComponent_plain_witness :
  forallb (fun c => negb (c =? ch "%")%N) (str "a-b_c") = true
  /\ safelyDecodeURIComponent (str "a-b_c") (str "id") = str "a-b_c".
Proof.
  split; [reflexivity|].
  apply (proj1 safelyDecodeURIComponent_plain (str "a-b_c") (str "id")).
  reflexivity.
Defined.

(** ** Warnings *)

Lemma warningOnce_keeps_warned (key' : jsstring) (cond : bool)
    (message : jsstring) (st : WarningState) (key : jsstring) :
  warned st key = true ->
  warned (warningOnce key' cond message st) key = true.
Proof.
  intros H. unfold warningOnce.
  destruct (negb cond && negb _) eqn:E; [|exact H].
  apply andb_true_iff in E as [_ E]. apply negb_true_iff in E.
  destruct (decide (key' = key)) as [->|Hne].
  - unfold warned in H. congruence.
  - unfold warned, get_property in *. cbn [alreadyWarned].
    rewrite lookup_set_property_ne by exact Hne. exact H.
Qed.

Lemma run_warnings_keeps_warned calls : forall st key,
  warned st key = true -> warned (run_warnings calls st) key = true.
Proof.
  induction calls as [|c calls IH]; intros st key H; [exact H|].
  apply IH, warningOnce_keeps_warned, H.
Qed.

Lemma warningOnce_warned (key message : jsstring) (st : WarningState) :
  warned (warningOnce key false message st) key = true.
Proof.
  unfold warningOnce. cbn [negb andb]. fold (warned st key).
  destruct (warned st key) eqn:E; cbn [negb]; [exact E|].
  unfold warned, get_property in *. cbn [alreadyWarned].
  unfold set_property.
  destruct (alreadyWarned st !! key) as [b|] eqn:Hown.
  - rewrite lookup_insert_eq. reflexivity.
  - destruct (streq key (str "__proto__")) eqn:Hp.
    + unfold inherited in E. rewrite Hp in E. discriminate E.
    + rewrite lookup_insert_eq. reflexivity.
Qed.

(** X23: [warningOnce] warns once for a key at most: after a call whose
    condition fails, whatever calls come in between, a further call with
    the same key writes nothing and changes nothing.  The first failing
    call for a key that has not warned writes its message at the end of
    the console, unless the key is a name that [alreadyWarned] inherits
    from [Object.prototype], such as [constructor]: from the empty
    [alreadyWarned] that the module starts with, whatever calls come
    before, a call with such a key writes nothing and changes
    nothing. *)
Theorem warningOnce_once :
  (forall key message st calls cond' message',
      warningOnce key cond' message'
        (run_warnings calls (warningOnce key false message st))
      = run_warnings calls (warningOnce key false message st))
  /\ (forall key message st,
        alreadyWarned st !! key = None ->
        inherited key = false ->
        console_messages (warningOnce key false message st)
        = console_messages st ++ [message])
  /\ (forall key cond message calls console,
        inherited key = true ->
        warningOnce key cond message
          (run_warnings calls (mkWarningState ∅ console))
        = run_warnings calls (mkWarningState ∅ console)).
Proof.
  split; [|split].
  - intros key message st calls cond' message'.
    pose proof (run_warnings_keeps_warned calls _ _
                  (warningOnce_warned key message st)) as H.
    unfold warningOnce at 1. unfold warned in H. rewrite H.
    cbn [negb]. rewrite andb_false_r. reflexivity.
  - intros key message st Hown Hin. unfold warningOnce, get_property.
    rewrite Hown, Hin. reflexivity.
  - intros key cond message calls console Hin.
    assert (H0 : warned (mkWarningState ∅ console) key = true).
    { unfold warned, get_property. cbn [alreadyWarned].
      rewrite lookup_empty, Hin. reflexivity. }
    pose proof (run_warnings_keeps_warned calls _ _ H0) as H.
    unfold warningOnce at 1. unfold warned in H. rewrite H.
    cbn [negb]. rewrite andb_false_r. reflexivity.
Qed.

Lemma warningOnce_once_witness :
  (alreadyWarned (mkWarningState ∅ []) !! str "k" = None
   /\ inherited (str "k") = false
   /\ console_messages
        (warningOnce (str "k") false (str "m") (mkWarningState ∅ []))
      = console_messages (mkWarningState ∅ []) ++ [str "m"])
  /\ (inherited (str "constructor") = true
      /\ warningOnce (str "constructor") false (str "m")
           (run_warnings [mkWarningCall (str "k") false (str "m")]
              (mkWarningState ∅ []))
         = run_warnings [mkWarningCall (str "k") false (str "m")]
             (mkWarningState ∅ [])).
Proof.
  destruct warningOnce_once as (_ & Hfirst & Hnever).
  split.
  - split; [reflexivity|]. split; [reflexivity|].
    apply (Hfirst (str "k") (str "m") (mkWarningState ∅ [])); reflexivity.
  - split; [reflexivity|].
    apply (Hnever (str "constructor") false (str "m")
             [mkWarningCall (str "k") false (str "m")] []).
    reflexivity.
Defined.

(** ** The paths that [generatePath] gives *)

Lemma get_property_is_Some {V} (o : gmap jsstring V) (key : jsstring) :
  is_Some (get_property o key)
  <-> is_Some (o !! key) \/ inherited key = true.
Proof.
  unfold get_property. destruct (o !! key) as [v|].
  - split; [intros _; left|]; eauto.
  - destruct (inherited key).
    + split; [intros _; right|]; eauto.
    + split; [intros [? H]; discriminate|].
      intros [[? H]|H]; discriminate.
Qed.

Lemma substitute_defined params ps :
  (exists s, substitute params ps = Ok s)
  <-> forall name, name ∈ token_names ps -> is_Some (get_property params name).
Proof.
  induction ps as [|[c|name] ps IH]; cbn [substitute token_names].
  - split; [intros _ name H; inversion H | eauto].
  - rewrite <- IH. split.
    + intros [s H]. destruct (substitute params ps) as [s'|]; [eauto|discriminate].
    + intros [s ->]. cbn [mbind result_bind]. eauto.
  - split.
    + intros [s H] n Hn.
      destruct (get_property params name) as [v|] eqn:Hv; [|discriminate].
      apply elem_of_cons in Hn as [->|Hn]; [exists v; exact Hv|].
      apply (proj1 IH); [|exact Hn].
      destruct (substitute params ps) as [s'|]; [eauto|discriminate].
    + intros H. destruct (H name) as [v Hv]; [left|]. rewrite Hv.
      destruct (proj2 IH) as [s ->]; [|cbn [mbind result_bind]; eauto].
      intros n Hn. apply H. right. exact Hn.
Qed.

(** The first token whose name reads as [undefined] is the one that the
    error names. *)
Lemma substitute_first_missing params ps : forall i name,
  token_names ps !! i = Some name ->
  get_property params name = None ->
  (forall j n, (j < i)%nat -> token_names ps !! j = Some n ->
     is_Some (get_property params n)) ->
  substitute params ps = Throw (Error (missing_param_message name)).
Proof.
  induction ps as [|[c|n0] ps IH]; intros i name Hi Hnone Hbefore;
    cbn [substitute token_names] in *.
  - discriminate.
  - rewrite (IH i name Hi Hnone Hbefore). reflexivity.
  - destruct i as [|i]; cbn [lookup list_lookup] in Hi.
    + injection Hi as ->. rewrite Hnone. reflexivity.
    + destruct (Hbefore O n0) as [v Hv]; [lia | reflexivity|]. rewrite Hv.
      rewrite (IH i name Hi Hnone); [reflexivity|].
      intros j n Hj Hn. apply (Hbefore (S j) n); [lia | exact Hn].
Qed.

Lemma substitute_lits params s : substitute params (map Lit s) = Ok s.
Proof.
  induction s as [|c s IH]; [reflexivity|]. cbn [map substitute].
  rewrite IH. reflexivity.
Qed.

(** X24: [generatePath] gives a path exactly when the name of every
    token of the pattern reads as something in [params]: a value of its
    own, or what a name of [Object.prototype], such as [constructor],
    stands for in every object.  Otherwise it throws, and the error
    names the first token whose name reads as [undefined]. *)
Theorem generatePath_defined :
  forall path params,
    ((exists s, generatePath path params = Ok s)
     <-> forall name,
           name ∈ tokens_of path ->
           is_Some (params !! name) \/ inherited name = true)
    /\ forall i name,
         tokens_of path !! i = Some name ->
         params !! name = None ->
         inherited name = false ->
         (forall j n, (j < i)%nat -> tokens_of path !! j = Some n ->
            is_Some (params !! n) \/ inherited n = true) ->
         generatePath path params
         = Throw (Error (missing_param_message name)).
Proof.
  intros path params. rewrite generatePath_by_pieces.
  unfold tokens_of. split.
  - split.
    + intros [s H] name Hname. apply get_property_is_Some.
      apply (proj1 (substitute_defined params (pieces path O))); [|exact Hname].
      destruct (substitute params _) as [s'|]; [eauto|discriminate].
    + intros H.
      destruct (proj2 (substitute_defined params (pieces path O))) as [s ->].
      * intros name Hname. apply get_property_is_Some, H, Hname.
      * cbn [mbind result_bind]. eauto.
  - intros i name Hi Hown Hin Hbefore.
    rewrite (substitute_first_missing params _ i name Hi); [reflexivity| |].
    + unfold get_property. rewrite Hown, Hin. reflexivity.
    + intros j n Hj Hn. apply get_property_is_Some. exact (Hbefore j n Hj Hn).
Qed.

Lemma generatePath_defined_witness :
  tokens_of (str "/:a/:b") !! 1%nat = Some (str "b")
  /\ ({[ str "a" := str "1" ]} : Params) !! str "b" = None
  /\ inherited (str "b") = false
  /\ generatePath (str "/:a/:b") {[ str "a" := str "1" ]}
     = Throw (Error (missing_param_message (str "b"))).
Proof.
  split; [reflexivity|]. split; [reflexivity|]. split; [reflexivity|].
  apply (proj2 (generatePath_defined (str "/:a/:b") {[ str "a" := str "1" ]})
           1%nat (str "b")); try reflexivity.
  intros j n Hj Hn. destruct j as [|j]; [|lia].
  vm_compute in Hn. injection Hn as <-. left. vm_compute. eauto.
Defined.

(** X25: a path without a token and without a final [*] is generated as
    it stands, whatever the params. *)
Theorem generatePath_static :
  forall path params,
    has_token path = false ->
    endsWith path (str "*") = false ->
    generatePath path params = Ok path.
Proof.
  intros path params Htok Hsplat. rewrite generatePath_by_pieces.
  rewrite (pieces_no_token _ Htok), substitute_lits.
  cbn [mbind result_bind]. unfold fill_splat. rewrite Hsplat. reflexivity.
Qed.

Lemma generatePath_static_witness :
  has_token (str "/about/us") = false
  /\ endsWith (str "/about/us") (str "*") = false
  /\ generatePath (str "/about/us") {[ str "id" := str "5" ]}
     = Ok (str "/about/us").
Proof.
  split; [reflexivity|]. split; [reflexivity|].
  apply (generatePath_static (str "/about/us") {[ str "id" := str "5" ]});
    reflexivity.
Defined.

(** ** The base of a match *)

(** Where [\/+$] matches inside a pattern, whatever the captures. *)
Lemma m_trailing_slashes bef aft cs :
  m false (RSeq (RQuant 1 None false [CiChar 47%N]) REol) (MState bef aft cs)
    Some
  = if (1 <=? length aft)%nat && forallb is_slash aft
    then Some (MState (rev aft ++ bef) [] cs)
    else None.
Proof.
  cbn [m before after caps].
  pose proof (run_ext _ is_slash aft set_mem_slash) as Hr.
  destruct ((1 <=? length aft)%nat && forallb is_slash aft) eqn:E.
  - apply andb_true_iff in E as [Hlen Hall]. apply Nat.leb_le in Hlen.
    apply run_all in Hall.
    erewrite quant_max; [reflexivity | lia |].
    rewrite Hr, Hall, take_ge, drop_ge by lia. reflexivity.
  - apply quant_none. intros j Hj. rewrite Hr in Hj. cbn [after before caps].
    destruct (drop j aft) as [|c rest] eqn:Ed; [|reflexivity]. exfalso.
    apply drop_nil_inv in Ed. pose proof (run_le is_slash aft) as Hle.
    assert (Hall : run is_slash aft = length aft) by lia.
    apply run_all in Hall. rewrite Hall, andb_true_r in E.
    apply Nat.leb_gt in E. lia.
Qed.

(** Where [/(.)\/+$/] matches: at a code unit that ends no line, with
    one slash at least, and nothing but slashes, after it. *)
Lemma base_match_at bef aft :
  match_at re_base bef aft =
  match aft with
  | c :: rest =>
      if set_mem false true [CiLineTerminator] c
         && ((1 <=? length rest)%nat && forallb is_slash rest)
      then Some (MState (rev rest ++ c :: bef) [] [Some [c]])
      else None
  | [] => None
  end.
Proof.
  unfold match_at, re_base.
  cbn [re_ast re_ignoreCase re_groups replicate].
  destruct aft as [|c rest]; [reflexivity|].
  cbn [m before after caps].
  destruct (set_mem false true [CiLineTerminator] c); [|reflexivity].
  cbn [andb insert list_insert].
  assert (Hcap : captured (MState bef (c :: rest) [None])
                   (MState (c :: bef) rest [None]) = [c]).
  { unfold captured. cbn [after length].
    replace (S (length rest) - length rest)%nat with 1%nat by lia.
    reflexivity. }
  rewrite Hcap.
  exact (m_trailing_slashes (c :: bef) rest [Some [c]]).
Qed.

(** What the collapse takes off the end of a text: slashes. *)
Lemma collapse_slashes_prefix s :
  exists rest,
    s = collapse_slashes s ++ rest /\ forallb is_slash rest = true.
Proof.
  unfold collapse_slashes, replace. rewrite replace_fn_first by reflexivity.
  destruct (search_from re_base [] s) as [r|] eqn:E.
  - destruct (search_from_spec _ _ _ _ E)
      as (skipped & y & Hs & Hpre & Hm & Hy & Hcaps & _).
    rewrite base_match_at in Hm.
    destruct (m_0 r ++ m_post r) as [|c rest] eqn:E0; [discriminate|].
    destruct (_ && _) eqn:Hc in Hm; [|discriminate].
    injection Hm as <-. cbn [after caps] in Hy, Hcaps.
    apply andb_true_iff in Hc as [_ Hc]. apply andb_true_iff in Hc as [_ Hall].
    exists rest. split; [|exact Hall].
    rewrite <- Hy, app_nil_r. rewrite Hs.
    cbn [rev app] in Hpre. rewrite Hpre.
    assert (Hsub : substitution (str "$1") r = [c]).
    { change (str "$1") with [ch "$"; ch "1"]. cbn [substitution].
      unfold group_text. rewrite <- !Hcaps. reflexivity. }
    rewrite Hsub. rewrite <- app_assoc. reflexivity.
  - exists []. rewrite app_nil_r. split; reflexivity.
Qed.

Lemma slice_from_start {A} (xs : list A) e :
  exists rest, xs = slice xs 0 (Some e) ++ rest.
Proof.
  assert (H0 : rel_index (Z.of_nat (length xs)) 0 = 0).
  { unfold rel_index. change (0 <? 0) with false. cbv iota. lia. }
  unfold slice. cbv zeta. rewrite !H0. change (Z.to_nat 0) with O.
  cbn [drop]. eexists. symmetry. apply take_drop.
Qed.

(** The base that the [reduce] of [matchPath] leaves is a prefix of the
    matched text, when the base it starts with is one. *)
Lemma matchPath_reduce_base m0 groups names :
  forall index memo base,
    (exists rest, m0 = base ++ rest) ->
    exists rest,
      m0 = (matchPath_reduce m0 groups names index memo base).2 ++ rest.
Proof.
  induction names as [|name names IH]; intros index memo base Hbase;
    cbn [matchPath_reduce]; [exact Hbase|].
  apply IH. destruct (streq name (str "*")); [|exact Hbase].
  match goal with |- context [slice m0 0 (Some ?e)] =>
    destruct (slice_from_start m0 e) as [rest1 H1];
    destruct (collapse_slashes_prefix (slice m0 0 (Some e))) as (rest2 & H2 & _)
  end.
  unfold collapse_slashes in H2.
  eexists. rewrite H1 at 1. rewrite H2 at 1. rewrite <- app_assoc. reflexivity.
Qed.

(** X26: in every match of [matchPath] the base is a prefix of the
    matched pathname; for a pattern whose path does not end in [*],
    what follows the base in the matched pathname is slashes and
    nothing else. *)
Theorem matchPath_base_prefix :
  forall pattern pathname pm,
    matchPath pattern pathname = Ok (Some pm) ->
    exists rest,
      pm_pathname pm = pm_pathnameBase pm ++ rest
      /\ (endsWith (pattern_path (pattern_of pattern)) (str "*") = false ->
          forallb is_slash rest = true).
Proof.
  intros pattern pathname pm Hrun. unfold matchPath in Hrun.
  fold (pattern_of pattern) in Hrun. rewrite compilePath_matcher in Hrun.
  cbn [mbind result_bind] in Hrun.
  destruct (exec _ pathname) as [r|]; [|discriminate].
  destruct (endsWith (pattern_path (pattern_of pattern)) (str "*")) eqn:Hsplat.
  - match type of Hrun with
    | context [matchPath_reduce ?a ?b ?c ?d ?e ?f] =>
        destruct (matchPath_reduce_base a b c d e f) as [rest Hrest];
        [destruct (collapse_slashes_prefix a) as (rest0 & H0 & _); eauto|];
        destruct (matchPath_reduce a b c d e f) as [params base]
    end.
    injection Hrun as <-. cbn [pm_pathname pm_pathnameBase snd] in *.
    exists rest. split; [exact Hrest | discriminate].
  - rewrite app_nil_r in Hrun.
    match type of Hrun with
    | context [matchPath_reduce ?a ?b ?c ?d ?e ?f] =>
        destruct (matchPath_reduce_tokens a b c
                    (token_names_not_splat _) d e f) as (memo' & Hred & _);
        rewrite Hred in Hrun
    end.
    injection Hrun as <-. cbn [pm_pathname pm_pathnameBase].
    destruct (collapse_slashes_prefix (m_0 r)) as (rest & H0 & Hall).
    exists rest. split; [exact H0 | intros _; exact Hall].
Qed.

Lemma matchPath_base_prefix_witness :
  matchPath (PatternString (str "/users/*")) (str "/users/5/a")
  = Ok (Some
          (mkPathMatch {[ str "*" := str "5/a" ]}
             (str "/users/5/a") (str "/users")
             (mkPathPattern (str "/users/*") (Some false) (Some true))))
  /\ exists rest,
       pm_pathname
         (mkPathMatch {[ str "*" := str "5/a" ]}
            (str "/users/5/a") (str "/users")
            (mkPathPattern (str "/users/*") (Some false) (Some true)))
       = pm_pathnameBase
           (mkPathMatch {[ str "*" := str "5/a" ]}
              (str "/users/5/a") (str "/users")
              (mkPathPattern (str "/users/*") (Some false) (Some true)))
         ++ rest
       /\ (endsWith (pattern_path (pattern_of (PatternString (str "/users/*"))))
             (str "*") = false ->
           forallb is_slash rest = true).
Proof.
  split; [vm_compute; reflexivity|].
  apply (matchPath_base_prefix (PatternString (str "/users/*"))
           (str "/users/5/a")).
  vm_compute. reflexivity.
Defined.

(** ** From [generatePath] back through [matchPath] *)

Lemma plain_value_spec v :
  plain_value v = true ->
  v <> []
  /\ forallb (fun c => negb (is_slash c)) v = true
  /\ forallb (fun c => negb (c =? ch "%")%N) v = true
  /\ forallb (fun c => negb (c =? ch "*")%N) v = true.
Proof.
  unfold plain_value. intros H. apply andb_true_iff in H as [Ht H].
  split; [destruct v; [discriminate Ht | discriminate]|].
  rewrite !forallb_forall in *.
  repeat split; intros c Hc; specialize (H c Hc);
    apply negb_true_iff in H; apply orb_false_iff in H as [H H3];
    apply orb_false_iff in H as [H1 H2]; apply negb_true_iff; assumption.
Qed.

Lemma has_plain_values_lookup params names name :
  has_plain_values params names = true -> name ∈ names ->
  exists v, params !! name = Some v /\ plain_value v = true.
Proof.
  unfold has_plain_values. rewrite forallb_forall. intros H Hin.
  specialize (H name (proj1 (list_elem_of_In _ _) Hin)).
  destruct (params !! name) as [v|]; [eauto | discriminate].
Qed.

(** The terms of the pieces of a pattern match the text that
    [generatePath] makes of them, every token capturing its value. *)
Lemma m_pieces_forward icase params ps :
  forall n ts bef rest cs k s1 z,
    whole_tokens ps = true ->
    has_plain_values params (token_names ps) = true ->
    substitute params ps = Ok s1 ->
    (rest = [] \/ startsWith rest (str "/") = true) ->
    m icase (seq_of ts)
      (MState (rev s1 ++ bef) rest (captures_of params ps n cs)) k = Some z ->
    m icase (seq_of (piece_terms ps n ++ ts)) (MState bef (s1 ++ rest) cs) k
    = Some z.
Proof.
  induction ps as [|[c|name] ps IH];
    intros n ts bef rest cs k s1 z Hwhole Hvalues Hsub Hrest Hk;
    cbn [piece_terms token_names substitute captures_of whole_tokens app] in *.
  - injection Hsub as <-. exact Hk.
  - destruct (substitute params ps) as [s1'|] eqn:Hs; [|discriminate].
    cbn [mbind result_bind] in Hsub. injection Hsub as <-.
    rewrite m_seq_of_cons. unfold lit at 1. cbn [m after before caps app].
    rewrite set_mem_char, N.eqb_refl.
    apply (IH n ts (c :: bef) rest cs k s1' z Hwhole Hvalues eq_refl Hrest).
    cbn [rev] in Hk. rewrite <- app_assoc in Hk. exact Hk.
  - apply andb_true_iff in Hwhole as [Hnext Hwhole].
    cbn [has_plain_values forallb] in Hvalues.
    apply andb_true_iff in Hvalues as [Hv Hvalues].
    destruct (params !! name) as [v|] eqn:Hname; [|discriminate].
    rewrite (get_property_own _ _ _ Hname) in Hsub. cbn [property_text] in Hsub.
    destruct (substitute params ps) as [s1'|] eqn:Hs; [|discriminate].
    cbn [mbind result_bind] in Hsub. injection Hsub as <-.
    destruct (plain_value_spec v Hv) as (Hne & Hslash & _ & _).
    rewrite m_seq_of_cons. cbn [m after before caps].
    assert (Hrun : run (set_mem icase true [CiChar (ch "/")])
                     ((v ++ s1') ++ rest) = length v).
    { rewrite (run_ext _ (fun c => negb (is_slash c)) _ (set_mem_not_slash icase)).
      rewrite <- app_assoc, run_app_all by exact Hslash.
      assert (H0 : run (fun c => negb (is_slash c)) (s1' ++ rest) = O);
        [|rewrite H0; lia].
      destruct ps as [|[c|name'] ps]; [| |discriminate Hnext].
      - cbn [substitute] in Hs. injection Hs as <-. cbn [app].
        destruct Hrest as [->|Hrest]; [reflexivity|].
        destruct rest as [|d rest]; [reflexivity|].
        change (str "/") with [ch "/"] in Hrest. rewrite startsWith_one in Hrest.
        cbn [run]. unfold is_slash. rewrite Hrest. reflexivity.
      - cbn [substitute] in Hs.
        destruct (substitute params ps); [|discriminate].
        cbn [mbind result_bind] in Hs. injection Hs as <-.
        cbn [app run]. rewrite Hnext. reflexivity. }
    apply quant_max; rewrite Hrun.
    + destruct v; [contradiction | cbn [length]; lia].
    + rewrite <- app_assoc, take_app_length, drop_app_length.
      cbn [before after caps].
      assert (Hcap : captured (MState bef (v ++ s1' ++ rest) cs)
                       (MState (rev v ++ bef) (s1' ++ rest) cs) = v).
      { unfold captured. cbn [after]. rewrite !length_app.
        replace (length v + (length s1' + length rest)
                 - (length s1' + length rest))%nat with (length v) by lia.
        apply take_app_length. }
      rewrite Hcap.
      apply (IH (S n) ts (rev v ++ bef) rest _ k s1' z Hwhole Hvalues eq_refl Hrest).
      cbn [default] in Hk. rewrite rev_app_distr, <- app_assoc in Hk. exact Hk.
Qed.

Lemma captures_of_length params ps : forall n cs,
  length (captures_of params ps n cs) = length cs.
Proof.
  induction ps as [|[c|name] ps IH]; intros n cs; cbn [captures_of];
    [reflexivity | apply IH |].
  rewrite IH. apply length_insert.
Qed.

Lemma captures_of_below params ps : forall n cs j,
  (j < n)%nat -> captures_of params ps n cs !! j = cs !! j.
Proof.
  induction ps as [|[c|name] ps IH]; intros n cs j Hj; cbn [captures_of];
    [reflexivity | apply IH, Hj |].
  rewrite IH by lia. apply list_lookup_insert_ne. lia.
Qed.

Lemma captures_of_lookup params ps : forall n cs i name,
  (n + length (token_names ps) <= length cs)%nat ->
  token_names ps !! i = Some name ->
  captures_of params ps n cs !! (n + i)%nat
  = Some (Some (default [] (params !! name))).
Proof.
  induction ps as [|[c|name'] ps IH]; intros n cs i name Hlen Hi;
    cbn [captures_of token_names length] in *.
  - discriminate.
  - apply IH; assumption.
  - destruct i as [|i].
    + injection Hi as <-. rewrite Nat.add_0_r.
      rewrite captures_of_below by lia. apply list_lookup_insert_eq.
      apply (Nat.lt_le_trans _ (n + S (length (token_names ps))));
        [lia | exact Hlen].
    + replace (n + S i)%nat with (S n + i)%nat by lia.
      apply IH; [|exact Hi]. rewrite length_insert.
      apply (Nat.le_trans _ (n + S (length (token_names ps))));
        [lia | exact Hlen].
Qed.

Lemma matchPath_reduce_lookup m0 groups (f : jsstring -> jsstring) names :
  forall index memo base,
    (forall i name, names !! i = Some name ->
       safelyDecodeURIComponent (group_or_empty groups (index + i)) name
       = f name) ->
    forall name, name ∈ names -> name <> str "__proto__" ->
      (matchPath_reduce m0 groups names index memo base).1 !! name
      = Some (f name).
Proof.
  induction names as [|n0 names IH]; intros index memo base Hf name Hin Hp;
    cbn [matchPath_reduce].
  - inversion Hin.
  - destruct (decide (name ∈ names)) as [Hrest|Hnot].
    + apply IH; [|exact Hrest|exact Hp]. intros i n Hi.
      replace (S index + i)%nat with (index + S i)%nat by lia.
      exact (Hf (S i) n Hi).
    + rewrite matchPath_reduce_other by exact Hnot.
      apply elem_of_cons in Hin as [->|Hin]; [|contradiction].
      rewrite lookup_set_property_eq by exact Hp. f_equal.
      specialize (Hf O n0 eq_refl). rewrite Nat.add_0_r in Hf. exact Hf.
Qed.

Lemma pieces_no_star s : forall k,
  forallb (fun c => negb (c =? ch "*")%N) s = true ->
  forallb (fun p => match p with
                    | Lit c => negb (c =? ch "*")%N
                    | Tok _ => true
                    end) (pieces s k) = true.
Proof.
  induction s as [|c s IH]; intros k H; [reflexivity|].
  cbn [forallb] in H. apply andb_true_iff in H as [Hc H]. cbn [pieces].
  destruct k as [|k]; [|apply IH, H].
  destruct (_ && _); cbn [forallb]; [apply IH, H|].
  rewrite Hc. apply IH, H.
Qed.

Lemma substitute_no_star params ps : forall s,
  forallb (fun p => match p with
                    | Lit c => negb (c =? ch "*")%N
                    | Tok _ => true
                    end) ps = true ->
  has_plain_values params (token_names ps) = true ->
  substitute params ps = Ok s ->
  forallb (fun c => negb (c =? ch "*")%N) s = true.
Proof.
  induction ps as [|[c|name] ps IH]; intros s Hlits Hvalues Hsub;
    cbn [substitute token_names forallb] in *.
  - injection Hsub as <-. reflexivity.
  - apply andb_true_iff in Hlits as [Hc Hlits].
    destruct (substitute params ps) as [s'|]; [|discriminate].
    cbn [mbind result_bind] in Hsub. injection Hsub as <-.
    cbn [forallb]. rewrite Hc. exact (IH _ Hlits Hvalues eq_refl).
  - cbn [has_plain_values forallb] in Hvalues.
    apply andb_true_iff in Hvalues as [Hv Hvalues].
    destruct (params !! name) as [v|] eqn:Hname; [|discriminate].
    rewrite (get_property_own _ _ _ Hname) in Hsub. cbn [property_text] in Hsub.
    destruct (substitute params ps) as [s'|]; [|discriminate].
    cbn [mbind result_bind] in Hsub. injection Hsub as <-.
    destruct (plain_value_spec v Hv) as (_ & _ & _ & Hstar).
    rewrite forallb_app. apply andb_true_iff.
    split; [exact Hstar | exact (IH _ Hlits Hvalues eq_refl)].
Qed.

Lemma no_star_end s :
  forallb (fun c => negb (c =? ch "*")%N) s = true ->
  endsWith s (str "*") = false.
Proof.
  intros H. destruct (endsWith s (str "*")) eqn:E; [|reflexivity].
  change (str "*") with [ch "*"] in E. apply endsWith_char in E as [s' ->].
  rewrite forallb_app in H. apply andb_true_iff in H as [_ H].
  discriminate H.
Qed.

Lemma pattern_text_normal path :
  normalizePathname path = path ->
  endsWith path (str "*") = false ->
  pattern_text path = path.
Proof.
  intros Hnorm Hstar. unfold pattern_text.
  rewrite (replace_trailing_splat _ Hstar).
  rewrite normalizePathname_body in Hnorm. exact Hnorm.
Qed.

(** X27: [matchPath] undoes [generatePath].  For a path in the normal
    form of [normalizePathname], without a [*], whose tokens each run to
    the end of their segment and none of which has the name [__proto__],
    and for params that have for every token a value of their own, of
    one code unit at least without [/], [%] and [*], the path that
    [generatePath] gives is matched by the pattern of the path: the
    whole of it is the matched pathname and every token has its value
    back. *)
Theorem generatePath_matchPath_round_trip :
  forall path params,
    streq (normalizePathname path) path = true ->
    forallb (fun c => negb (c =? ch "*")%N) path = true ->
    whole_tokens (pieces path O) = true ->
    forallb (fun name => negb (streq name (str "__proto__"))) (tokens_of path)
    = true ->
    has_plain_values params (tokens_of path) = true ->
    exists s pm,
      generatePath path params = Ok s
      /\ matchPath (PatternString path) s = Ok (Some pm)
      /\ pm_pathname pm = s
      /\ forall name,
           name ∈ tokens_of path -> pm_params pm !! name = params !! name.
Proof.
  intros path params Hnorm Hnostar Hwhole Hproto Hvalues.
  apply streq_true in Hnorm. pose proof (no_star_end _ Hnostar) as Hstar.
  unfold tokens_of in *. set (ps := pieces path O) in *.
  destruct (proj2 (substitute_defined params ps)) as [s Hsub].
  { intros name Hname.
    destruct (has_plain_values_lookup _ _ _ Hvalues Hname) as (v & Hv & _).
    rewrite (get_property_own _ _ _ Hv). eauto. }
  pose proof (substitute_no_star _ _ _ (pieces_no_star _ _ Hnostar) Hvalues Hsub)
    as Hs.
  assert (Hgen : generatePath path params = Ok s).
  { rewrite generatePath_by_pieces. fold ps. rewrite Hsub.
    cbn [mbind result_bind]. unfold fill_splat.
    rewrite (no_star_end _ Hs). reflexivity. }
  (* the matcher, and its match of [s] *)
  set (N := length (token_names ps)).
  set (groups := captures_of params ps 0 (replicate (N + 0) None)).
  assert (Hexec : exec (matcher_of ps EndWhole true) s
                  = Some (mkMatch [] s [] groups)).
  { unfold exec.
    assert (Hm : match_at (matcher_of ps EndWhole true) [] s
                 = Some (MState (rev s) [] groups)).
    { unfold match_at, matcher_of. cbn [re_ast re_ignoreCase re_groups].
      rewrite m_seq_of_cons. cbn [m before].
      rewrite <- (app_nil_r s) at 1.
      apply (m_pieces_forward true params ps 0 _ [] [] _ Some s _
               Hwhole Hvalues Hsub (or_introl eq_refl)).
      rewrite app_nil_r. reflexivity. }
    rewrite (search_from_here _ _ _ _ Hm). cbn [after caps rev].
    rewrite Nat.sub_0_r, take_ge by lia. reflexivity. }
  assert (Hmp : matchPath (PatternString path) s
    = let '(memo, base) :=
        matchPath_reduce s groups (token_names ps) 0 ∅
          (replace re_base (str "$1") s) in
      Ok (Some (mkPathMatch memo s base
                  (mkPathPattern path (Some false) (Some true))))).
  { unfold matchPath. rewrite compilePath_matcher.
    cbn [pattern_path pattern_caseSensitive pattern_end default negb].
    rewrite (pattern_text_normal _ Hnorm Hstar). fold ps.
    unfold ending_of. rewrite Hstar, app_nil_r.
    cbn [mbind result_bind]. change (id true) with true.
    change (negb (id false)) with true. cbv iota.
    rewrite Hexec. reflexivity. }
  pose proof (matchPath_reduce_lookup s groups
                (fun name => default [] (params !! name)) (token_names ps)
                0 ∅ (replace re_base (str "$1") s)) as Hlookup.
  destruct (matchPath_reduce s groups (token_names ps) 0 ∅
              (replace re_base (str "$1") s)) as [memo base].
  exists s. eexists. split; [exact Hgen|]. split; [exact Hmp|].
  split; [reflexivity|]. cbn [pm_params fst] in *.
  intros name Hname. rewrite Hlookup; [| |exact Hname|].
  3:{ rewrite forallb_forall in Hproto.
      specialize (Hproto name (proj1 (list_elem_of_In _ _) Hname)).
      apply negb_true_iff, streq_false in Hproto. exact Hproto. }
  - destruct (has_plain_values_lookup _ _ _ Hvalues Hname) as (v & Hv & _).
    transitivity (Some v); [|symmetry; exact Hv].
    f_equal. exact (f_equal (default []) Hv).
  - intros i n Hi.
    assert (Hn : n ∈ token_names ps) by (eapply list_elem_of_lookup_2, Hi).
    destruct (has_plain_values_lookup _ _ _ Hvalues Hn) as (v & Hv & Hplain).
    unfold group_or_empty, groups.
    rewrite captures_of_lookup with (name := n);
      [|rewrite length_replicate; unfold N; lia|exact Hi].
    destruct (plain_value_spec v Hplain) as (_ & _ & Hpercent & _).
    assert (Hgoal : forall x : jsstring, x = v ->
      safelyDecodeURIComponent (default [] (mjoin (Some (Some x)))) n = x).
    { intros x ->. change (default [] (mjoin (Some (Some v)))) with v.
      unfold safelyDecodeURIComponent.
      rewrite (decodeURIComponent_plain _ Hpercent). reflexivity. }
    exact (Hgoal _ (f_equal (default []) Hv)).
Qed.

Lemma generatePath_matchPath_round_trip_witness :
  streq (normalizePathname (str "/users/:id/posts/:post"))
    (str "/users/:id/posts/:post") = true
  /\ forallb (fun c => negb (c =? ch "*")%N) (str "/users/:id/posts/:post")
     = true
  /\ whole_tokens (pieces (str "/users/:id/posts/:post") O) = true
  /\ forallb (fun name => negb (streq name (str "__proto__")))
       (tokens_of (str "/users/:id/posts/:post")) = true
  /\ has_plain_values {[ str "id" := str "5"; str "post" := str "a-b" ]}
       (tokens_of (str "/users/:id/posts/:post")) = true
  /\ exists s pm,
       generatePath (str "/users/:id/posts/:post")
         {[ str "id" := str "5"; str "post" := str "a-b" ]} = Ok s
       /\ matchPath (PatternString (str "/users/:id/posts/:post")) s
          = Ok (Some pm)
       /\ pm_pathname pm = s
       /\ forall name,
            name ∈ tokens_of (str "/users/:id/posts/:post") ->
            pm_params pm !! name
            = ({[ str "id" := str "5"; str "post" := str "a-b" ]} : Params)
                !! name.
Proof.
  split; [vm_compute; reflexivity|]. split; [vm_compute; reflexivity|].
  split; [vm_compute; reflexivity|]. split; [vm_compute; reflexivity|].
  split; [vm_compute; reflexivity|].
  apply (generatePath_matchPath_round_trip (str "/users/:id/posts/:post")
           {[ str "id" := str "5"; str "post" := str "a-b" ]});
    vm_compute; reflexivity.
Defined.

(** ** The paths of the branches *)

Lemma squeeze_nonempty s : s <> [] -> squeeze s <> [].
Proof.
  induction s as [|c s IH]; [contradiction|]. intros _. cbn [squeeze].
  destruct (is_slash c && startsWith s (str "/")) eqn:E; [|discriminate].
  apply IH. intros ->. apply andb_true_iff in E as [_ E]. discriminate E.
Qed.

Lemma startsWith_app_nonempty s t p :
  s <> [] -> startsWith (s ++ t) [p] = startsWith s [p].
Proof.
  destruct s as [|c s]; [contradiction|]. intros _.
  cbn [app]. rewrite !startsWith_one. reflexivity.
Qed.

Lemma squeeze_app_l x y : squeeze (squeeze x ++ y) = squeeze (x ++ y).
Proof.
  induction x as [|c x IH]; [reflexivity|].
  assert (Hhead : startsWith (squeeze x ++ y) (str "/")
                  = startsWith (x ++ y) (str "/")).
  { change (str "/") with [ch "/"]. destruct x as [|d x]; [reflexivity|].
    rewrite !startsWith_app_nonempty
      by (try apply squeeze_nonempty; discriminate).
    change [ch "/"] with (str "/"). apply squeeze_head. }
  cbn [app squeeze].
  destruct (is_slash c) eqn:Hc; cbn [andb].
  - destruct (startsWith x (str "/")) eqn:Hx.
    + rewrite IH. change (str "/") with [ch "/"] in *.
      rewrite startsWith_app_nonempty by (intros ->; discriminate Hx).
      rewrite Hx. reflexivity.
    + cbn [app squeeze]. rewrite Hc, Hhead, IH. reflexivity.
  - cbn [app squeeze]. rewrite Hc, IH. reflexivity.
Qed.

Lemma joined_path_join path metas :
  metas <> [] ->
  joined_path path metas = joinPaths (path :: map relativePath metas).
Proof.
  revert path. induction metas as [|meta metas IH]; intros path Hne;
    [contradiction|].
  unfold joined_path. cbn [foldl map]. fold (joined_path (joinPaths [path; relativePath meta]) metas).
  destruct metas as [|meta' metas]; [reflexivity|].
  rewrite IH by discriminate. rewrite !joinPaths_squeeze.
  cbn [map]. rewrite !join_cons. cbn [join].
  rewrite squeeze_app_l, <- !app_assoc. reflexivity.
Qed.

(** X28: the path of every branch that [flattenRoutes] gives is the
    join, by [joinPaths], of the empty path and the relative paths of
    the segments of its chain, root to leaf. *)
Theorem flattenRoutes_branch_paths :
  forall routes branches,
    flattenRoutes routes [] [] [] = Ok branches ->
    Forall (fun b => branch_path b
                     = joinPaths ([] :: map relativePath (routesMeta b)))
      branches.
Proof.
  intros routes branches Hrun.
  destruct (flattenRoutes_grows _ _ Hrun) as (Hnew & _ & _).
  eapply Forall_impl; [exact Hnew|].
  intros b (j & child & _ & meta & rest & Hb & _ & _ & _ & _ & Hpath).
  cbn [app] in Hb. rewrite Hpath, Hb. apply joined_path_join. discriminate.
Qed.

Lemma flattenRoutes_branch_paths_witness :
  flattenRoutes [users_route] [] [] [] = Ok users_branches
  /\ Forall (fun b => branch_path b
                      = joinPaths ([] :: map relativePath (routesMeta b)))
       users_branches.
Proof.
  split; [vm_compute; reflexivity|].
  apply (flattenRoutes_branch_paths [users_route] users_branches).
  vm_compute. reflexivity.
Defined.

(** ** The pattern that catches everything *)

Lemma set_mem_not_line_terminator icase c :
  set_mem icase true [CiLineTerminator] c = negb (line_terminator c).
Proof.
  unfold set_mem, line_terminator. cbn [existsb item_mem].
  rewrite orb_false_r. reflexivity.
Qed.

Lemma exec_catch_all icase rest :
  forallb (fun c => negb (line_terminator c)) rest = true ->
  exec (matcher_of [Lit (ch "/")] EndRootSplat icase) (str "/" ++ rest)
  = Some (mkMatch [] (str "/" ++ rest) [] [Some rest]).
Proof.
  intros Hrest. unfold exec.
  assert (Hm : match_at (matcher_of [Lit (ch "/")] EndRootSplat icase) []
                 (str "/" ++ rest)
               = Some (MState (rev rest ++ [ch "/"]) [] [Some rest])).
  { unfold match_at, matcher_of.
    cbn [re_ast re_ignoreCase re_groups piece_terms token_names length
         ending_terms ending_groups app seq_of replicate Nat.add].
    change (str "/" ++ rest) with (ch "/" :: rest).
    unfold lit. cbn [m before after caps].
    rewrite set_mem_char, N.eqb_refl.
    assert (Hrun : run (set_mem icase true [CiLineTerminator]) rest
                   = length rest).
    { apply run_all. rewrite forallb_forall in *. intros c Hc.
      rewrite set_mem_not_line_terminator. apply Hrest, Hc. }
    apply quant_max; rewrite Hrun; [lia|].
    rewrite take_ge, drop_ge by lia. cbn [before after caps m].
    unfold captured. cbn [after length]. rewrite Nat.sub_0_r, take_ge by lia.
    reflexivity. }
  rewrite (search_from_here _ _ _ _ Hm). cbn [after caps rev app length].
  rewrite Nat.sub_0_r, take_ge by (cbn [length]; lia). reflexivity.
Qed.

Lemma slice_first (c : char) (rest : jsstring) :
  slice (c :: rest) 0 (Some (len (c :: rest) - len rest)) = [c].
Proof.
  unfold slice, rel_index, len. cbn [length].
  replace (Z.of_nat (S (length rest)) - Z.of_nat (length rest)) with 1 by lia.
  change (0 <? 0) with false. change (1 <? 0) with false. cbv iota.
  rewrite !Z.min_l by lia. reflexivity.
Qed.

Lemma compilePath_root_splat path cs e :
  streq path (str "*") || streq path (str "/*") = true ->
  compilePath path cs e
  = Ok (matcher_of [Lit (ch "/")] EndRootSplat (negb (default false cs)),
        [str "*"]).
Proof.
  intros Hpath. rewrite compilePath_matcher.
  apply orb_true_iff in Hpath as [Hp|Hp]; apply streq_true in Hp; subst path.
  - replace (pieces (pattern_text (str "*")) O) with [Lit (ch "/")]
      by (vm_compute; reflexivity).
    reflexivity.
  - replace (pieces (pattern_text (str "/*")) O) with [Lit (ch "/")]
      by (vm_compute; reflexivity).
    reflexivity.
Qed.

Lemma root_splat_base rest :
  replace re_base (str "$1")
    (slice (str "/" ++ rest) 0
       (Some (len (str "/" ++ rest) - len (group_or_empty [Some rest] 0))))
  = str "/".
Proof.
  change (group_or_empty [Some rest] 0) with rest.
  change (str "/" ++ rest) with (ch "/" :: rest).
  rewrite slice_first. vm_compute. reflexivity.
Qed.

(** X29: the patterns [*] and [/*] catch every pathname: a pathname
    that starts with a slash, and holds no code unit that ends a line,
    is matched as a whole, with the root for base and the text after the
    first slash, decoded, for the value of [*]. *)
Theorem matchPath_catch_all :
  forall path cs e rest,
    streq path (str "*") || streq path (str "/*") = true ->
    forallb (fun c => negb (line_terminator c)) rest = true ->
    matchPath (PatternObject (mkPathPattern path cs e)) (str "/" ++ rest)
    = Ok (Some
            (mkPathMatch
               {[ str "*" := safelyDecodeURIComponent rest (str "*") ]}
               (str "/" ++ rest) (str "/") (mkPathPattern path cs e))).
Proof.
  intros path cs e rest Hpath Hrest.
  unfold matchPath. cbn [pattern_path pattern_caseSensitive pattern_end].
  rewrite (compilePath_root_splat _ _ _ Hpath). cbn [mbind result_bind].
  rewrite (exec_catch_all _ _ Hrest). cbn [m_0 m_groups matchPath_reduce].
  change (streq (str "*") (str "*")) with true. cbv iota.
  rewrite root_splat_base, set_property_insert by discriminate.
  rewrite insert_empty. reflexivity.
Qed.

Lemma matchPath_catch_all_witness :
  streq (str "*") (str "*") || streq (str "*") (str "/*") = true
  /\ forallb (fun c => negb (line_terminator c)) (str "no/such/page") = true
  /\ matchPath (PatternObject (mkPathPattern (str "*") None None))
       (str "/" ++ str "no/such/page")
     = Ok (Some
             (mkPathMatch
                {[ str "*" := safelyDecodeURIComponent (str "no/such/page")
                               (str "*") ]}
                (str "/" ++ str "no/such/page") (str "/")
                (mkPathPattern (str "*") None None))).
Proof.
  split; [reflexivity|]. split; [reflexivity|].
  apply (matchPath_catch_all (str "*") None None (str "no/such/page"));
    reflexivity.
Defined.

(** ** A catch-all route *)

Lemma slice_whole {A} (xs : list A) : slice xs (len []) None = xs.
Proof.
  assert (H0 : rel_index (Z.of_nat (length xs)) 0 = 0).
  { unfold rel_index. change (0 <? 0) with false. cbv iota. lia. }
  unfold slice, len. cbn [length]. change (Z.of_nat 0) with 0. cbv zeta.
  rewrite H0. change (Z.to_nat 0) with O. cbn [drop].
  rewrite Z.sub_0_r, Nat2Z.id. apply firstn_all.
Qed.

Lemma flattenRoute_own_branch (r : RouteObject) (index : nat)
    (branches bs' : list RouteBranch) (p : jsstring) :
  route_path r = Some p ->
  flattenRoute r index branches [] [] = Ok bs' ->
  exists b,
    b ∈ bs'
    /\ routesMeta b = [mkRouteMeta p (route_caseSensitive r) index r].
Proof.
  destruct r as [cs children idx path id]. cbn [route_path route_caseSensitive].
  intros -> Hrun.
  cbn [flattenRoute route_path route_children route_index
       route_caseSensitive] in Hrun.
  change (default [] (Some p)) with p in Hrun.
  assert (Hrest : forall res : result (list RouteBranch),
    (branches0 ← res;
     if bool_decide (Some p = None) && negb idx then Ok branches0
     else Ok (branches0 ++
                [mkRouteBranch (joinPaths [[]; p])
                   (computeScore (joinPaths [[]; p]) idx)
                   ([] ++ [mkRouteMeta p cs index
                             (mkRoute cs children idx (Some p) id)])]))
    = Ok bs' ->
    exists b,
      b ∈ bs'
      /\ routesMeta b
         = [mkRouteMeta p cs index (mkRoute cs children idx (Some p) id)]).
  { intros [bs1|e1] H; [|discriminate]. cbn [mbind result_bind] in H.
    rewrite bool_decide_eq_false_2 in H by discriminate.
    cbn [andb] in H. injection H as <-.
    eexists. split.
    - apply elem_of_app. right. apply list_elem_of_singleton. reflexivity.
    - reflexivity. }
  destruct (startsWith p (str "/")).
  - rewrite startsWith_nil in Hrun. cbn [invariant mbind result_bind] in Hrun.
    rewrite slice_whole in Hrun. exact (Hrest _ Hrun).
  - cbn [mbind result_bind] in Hrun. exact (Hrest _ Hrun).
Qed.

Lemma forEach_own_branch (l : list RouteObject) :
  forall (i0 : nat) (branches bs' : list RouteBranch) (j : nat)
         (r : RouteObject) (p : jsstring),
    forEach (fun route index bs => flattenRoute route index bs [] [])
      l i0 branches = Ok bs' ->
    l !! j = Some r -> route_path r = Some p ->
    exists b,
      b ∈ bs'
      /\ routesMeta b = [mkRouteMeta p (route_caseSensitive r) (i0 + j) r].
Proof.
  induction l as [|x l IH]; intros i0 branches bs' j r p Hrun Hj Hp;
    [discriminate|].
  simpl in Hrun.
  destruct (flattenRoute x i0 branches [] []) as [bs1|e] eqn:Ex;
    [|discriminate].
  cbn [mbind result_bind] in Hrun.
  destruct j as [|j].
  - injection Hj as ->.
    destruct (flattenRoute_own_branch _ _ _ _ _ Hp Ex) as (b & Hb & Hmeta).
    pose proof (forEach_grows l [] []) as Hg.
    destruct (Hg (proj2 (Forall_forall _ _)
                    (fun r0 _ => flattenRoute_grows r0)) _ _ _ Hrun)
      as (new & -> & _).
    exists b. split; [apply elem_of_app; left; exact Hb|].
    replace (i0 + 0)%nat with i0 by lia. exact Hmeta.
  - destruct (IH _ _ _ _ _ _ Hrun Hj Hp) as (b & Hb & Hmeta).
    exists b. split; [exact Hb|].
    replace (i0 + S j)%nat with (S i0 + j)%nat by lia. exact Hmeta.
Qed.

Lemma matchRouteBranch_root_splat (b : RouteBranch) (meta : RouteMeta)
    (rest : jsstring) (h : heap) :
  routesMeta b = [meta] ->
  streq (relativePath meta) (str "*") || streq (relativePath meta) (str "/*")
  = true ->
  forallb (fun c => negb (line_terminator c)) rest = true ->
  exists ms h',
    matchRouteBranch b (str "/" ++ rest) h = (Ok (Some ms), h').
Proof.
  intros Hmeta Hp Hrest. unfold matchRouteBranch, alloc. rewrite Hmeta.
  cbn [matchRouteBranch_loop].
  replace (streq (str "/") (str "/")) with true by reflexivity. cbv iota.
  unfold matchPath. cbn [pattern_path pattern_caseSensitive pattern_end].
  rewrite (compilePath_root_splat _ _ _ Hp). cbn [mbind result_bind].
  rewrite (exec_catch_all _ _ Hrest). cbn [m_0 m_groups matchPath_reduce].
  change (streq (str "*") (str "*")) with true. cbv iota. eauto.
Qed.

Lemma matchRoutes_loop_some (bs : list RouteBranch) (pathname : jsstring)
    (b : RouteBranch) :
  b ∈ bs ->
  (forall h : heap, exists ms h',
      matchRouteBranch b pathname h = (Ok (Some ms), h')) ->
  forall h : heap, exists ms h',
    matchRoutes_loop bs pathname h = (Ok (Some ms), h').
Proof.
  intros Hin Hb. induction bs as [|a bs IH]; intros h.
  - apply elem_of_nil in Hin. destruct Hin.
  - cbn [matchRoutes_loop]. apply elem_of_cons in Hin as [<-|Hin].
    + destruct (Hb h) as (ms & h' & ->). eauto.
    + assert (Ha : exists res h1, matchRouteBranch a pathname h = (Ok res, h1)).
      { unfold matchRouteBranch, alloc. apply matchRouteBranch_loop_total. }
      destruct Ha as ([ms|] & h1 & ->); [eauto|]. apply (IH Hin).
Qed.

(** X30: a catch-all route at the top of the tree matches whatever the
    other routes leave.  When one of [routes] has the path [*] or [/*]
    and the tree is well formed, [matchRoutes] gives matches, not
    [null], for every location whose pathname, with the basename taken
    off, starts with a slash and holds no code unit that ends a line. *)
Theorem matchRoutes_catch_all :
  forall routes j r p locationArg basename rest h,
    routes !! j = Some r ->
    route_path r = Some p ->
    streq p (str "*") || streq p (str "/*") = true ->
    forallb (well_formed []) routes = true ->
    requested_pathname locationArg basename = Some (str "/" ++ rest) ->
    forallb (fun c => negb (line_terminator c)) rest = true ->
    exists ms h',
      matchRoutes routes locationArg basename h = (Ok (Some ms), h').
Proof.
  intros routes j r p locationArg basename rest h Hj Hp Hsplat Hwf Hreq Hrest.
  pose proof (flattenRoutes_outcome routes) as Hout.
  destruct (flattenRoutes routes [] [] []) as [branches|e] eqn:Hflat.
  - rewrite (matchRoutes_unfold _ _ _ _ _ _ Hreq Hflat).
    unfold flattenRoutes in Hflat.
    destruct (forEach_own_branch _ _ _ _ _ _ _ Hflat Hj Hp)
      as (b & Hb & Hmeta).
    apply (matchRoutes_loop_some _ _ b).
    + unfold rankRouteBranches. rewrite sort_perm. exact Hb.
    + intros h0.
      exact (matchRouteBranch_root_splat _ _ _ h0 Hmeta Hsplat Hrest).
  - cbn [flatten_outcome] in Hout. destruct Hout as [Hout _]. congruence.
Qed.

Lemma matchRoutes_catch_all_witness :
  exists ms h',
    matchRoutes [route_of_path "/users"; route_of_path "*"]
      (ToString (str "/nowhere/at/all")) None [] = (Ok (Some ms), h').
Proof.
  apply (matchRoutes_catch_all
           [route_of_path "/users"; route_of_path "*"] 1%nat
           (route_of_path "*") (str "*") (ToString (str "/nowhere/at/all"))
           None (str "nowhere/at/all") []).
  - reflexivity.
  - reflexivity.
  - vm_compute. reflexivity.
  - vm_compute. reflexivity.
  - vm_compute. reflexivity.
  - vm_compute. reflexivity.
Defined.
